(** * AI story tool: media pipeline, verified against its TypeScript sources

    A shallow embedding of the generation scheduler, the video
    fallback resolver, the audio duration normaliser and the segment
    processor, with the properties the specification states about them.

    Conventions.  A JavaScript string is a [string]; [undefined] is [None];
    a JavaScript object used as a record with insertion-ordered keys is an
    association list; a thrown exception is an explicit alternative of the
    result type; a number is the rational its double denotes, and the
    duration arithmetic of the normaliser rounds as the doubles do
    (module [Double]).  External services (the Replicate client, the ffmpeg.wasm
    session, [atob], [fetchFile], the audio decoder) are section variables:
    every theorem holds for all of them. *)

From Stdlib Require Import ZArith QArith Qround Qminmax Qpower Lia String Ascii Permutation.
From stdpp Require Import gmap strings list pretty.

Local Open Scope string_scope.
Local Open Scope list_scope.

(** ** JavaScript string primitives used by the sources *)

Module Js.

(** [s.includes(sub)] *)
Fixpoint includes (s sub : string) : bool :=
  String.prefix sub s ||
  match s with
  | EmptyString => false
  | String _ s' => includes s' sub
  end.

(** [s.startsWith(p)] *)
Definition startsWith (s p : string) : bool := String.prefix p s.

(** Truthiness of a string value: only the empty string is falsy. *)
Definition truthy (s : string) : bool := negb (String.eqb s "").

(** Truthiness of [string | undefined]. *)
Definition truthy_opt (o : option string) : bool :=
  match o with
  | Some s => truthy s
  | None => false
  end.

(** [s.split(',')]: the pieces between commas, at least one piece. *)
Fixpoint split_comma (s : string) : list string :=
  match s with
  | EmptyString => [EmptyString]
  | String c s' =>
      if Ascii.eqb c ","%char then EmptyString :: split_comma s'
      else match split_comma s' with
           | [] => [String c EmptyString]
           | p :: ps => String c p :: ps
           end
  end.

End Js.

(** ** [src/app/api/generate-video/route.ts] *)

Module GenerateVideo.
Import Js.

Definition DEFAULT_MODEL : string :=
  "stability-ai/stable-video-diffusion:3f0457e4619daac51203dedb472816fd4af51f3149fa7a9e0b5ffcf1b8172438".

(** A JSON scalar appearing in a model parameter object. *)
Inductive value :=
| VNum (q : Q)
| VStr (s : string)
| VBool (b : bool).

(** An object literal: keys in insertion order. *)
Definition object := list (string * value).

(** [obj[k] = v]: overwrite in place, or append a new key. *)
Fixpoint set_prop (k : string) (v : value) (obj : object) : object :=
  match obj with
  | [] => [(k, v)]
  | (k', v') :: rest =>
      if String.eqb k' k then (k', v) :: rest
      else (k', v') :: set_prop k v rest
  end.

Fixpoint get_prop (k : string) (obj : object) : option value :=
  match obj with
  | [] => None
  | (k', v') :: rest => if String.eqb k' k then Some v' else get_prop k rest
  end.

(** One entry of [MODEL_CONFIGS]; an absent flag reads as falsy. *)
Record ModelConfig := {
  input_image : bool;
  image : bool;
  prompt_required : bool;
  params : object
}.

Definition natural_motion : string :=
  "Animate this image with smooth, natural motion".
Definition cinematic_motion : string :=
  "Animate this image with smooth, natural motion, cinematic camera movement".

Definition duration_prompt (p : string) : object :=
  [("duration", VNum 5); ("prompt", VStr p)].

Definition image_prompt_config (ps : object) : ModelConfig :=
  {| input_image := false; image := true; prompt_required := true; params := ps |}.

Definition MODEL_CONFIGS : list (string * ModelConfig) :=
  [ ("stability-ai/stable-video-diffusion",
      {| input_image := true; image := false; prompt_required := false;
         params := [ ("motion_bucket_id", VNum 127);
                     ("cond_aug", VNum (2 # 100));
                     ("video_length", VStr "25_frames_with_svd_xt");
                     ("sizing_strategy", VStr "maintain_aspect_ratio");
                     ("frames_per_second", VNum 6) ] |});
    ("lightricks/ltx-video",
      image_prompt_config
        [ ("prompt", VStr "Animate this image with smooth, natural camera motion");
          ("num_frames", VNum 161);
          ("num_inference_steps", VNum 30) ]);
    ("google/veo",
      image_prompt_config
        [ ("duration", VNum 5); ("aspect_ratio", VStr "16:9");
          ("prompt", VStr natural_motion) ]);
    ("wan-video/wan", image_prompt_config (duration_prompt natural_motion));
    ("minimax/hailuo", image_prompt_config (duration_prompt natural_motion));
    ("minimax/video-01", image_prompt_config (duration_prompt natural_motion));
    ("bytedance/seedance", image_prompt_config (duration_prompt cinematic_motion));
    ("bytedance/seedance-1-lite", image_prompt_config (duration_prompt cinematic_motion));
    ("kwaivgi/kling", image_prompt_config (duration_prompt natural_motion));
    ("luma/ray",
      image_prompt_config
        [ ("extend", VBool false); ("duration", VNum 5);
          ("prompt", VStr natural_motion) ]);
    ("luma/modify-video", image_prompt_config (duration_prompt natural_motion));
    ("fofr/tooncrafter",
      {| input_image := false; image := true; prompt_required := false;
         params := [ ("duration", VNum 5) ] |});
    ("open-mmlab/pia", image_prompt_config (duration_prompt natural_motion)) ].

(** The superset template returned for unknown model identifiers. *)
Definition unknown_model_config : ModelConfig :=
  {| input_image := true; image := true; prompt_required := true;
     params := [ ("duration", VNum 5); ("prompt", VStr natural_motion);
                 ("motion_bucket_id", VNum 127); ("frames_per_second", VNum 6) ] |}.

Fixpoint first_including (modelId : string) (entries : list (string * ModelConfig))
  : option ModelConfig :=
  match entries with
  | [] => None
  | (key, config) :: rest =>
      if includes modelId key then Some config else first_including modelId rest
  end.

Definition getModelConfig (modelId : string) : ModelConfig :=
  match first_including modelId MODEL_CONFIGS with
  | Some config => config
  | None => unknown_model_config
  end.

(** [{ ...config.params }] followed by the two conditional image keys. *)
Definition build_input (config : ModelConfig) (imageUrl : string) : object :=
  let input := params config in
  let input := if input_image config then set_prop "input_image" (VStr imageUrl) input else input in
  if image config then set_prop "image" (VStr imageUrl) input else input.

(** The request body after [request.json()]. *)
Record VideoModelSetting := { modelId : option string }.
Record Request := {
  imageUrl : option string;
  modelConfig : option VideoModelSetting
}.

(** [modelConfig?.modelId || DEFAULT_MODEL] *)
Definition resolve_model (req : Request) : string :=
  match modelConfig req with
  | Some mc =>
      match modelId mc with
      | Some m => if truthy m then m else DEFAULT_MODEL
      | None => DEFAULT_MODEL
      end
  | None => DEFAULT_MODEL
  end.

(** One [replicate.run(model, { input })] invocation. *)
Record Call := { call_model : string; call_input : object }.

(** The JSON body of the response: the three shapes the route emits. *)
Inductive Body (U : Type) :=
| BodyVideo (videoUrl : U) (modelUsed : string) (warning : option string)
| BodyError (error : string).
Arguments BodyVideo {U}.
Arguments BodyError {U}.

Record Response (U : Type) := { body : Body U; status : nat }.
Arguments body {U}.
Arguments status {U}.

Definition EXPIRED_MESSAGE : string :=
  "Image URL has expired. Please go back to Storyboard and regenerate the image (click 🔄 Regenerate), then try again.".

(** [err.message && (err.message.includes('404') || err.message.includes('Not Found'))] *)
Definition is404Error (message : option string) : bool :=
  match message with
  | Some m => truthy m && (includes m "404" || includes m "Not Found")
  | None => false
  end.

Section Route.
(** What [replicate.run] resolves to. *)
Variable Output : Type.
(** The proxied URL type ([string | undefined] in the source). *)
Variable Url : Type.

Inductive RunResult :=
| RunOk (output : Output)
| RunThrows (message : option string).

(** The provider: its answer may depend on the calls made before. *)
Variable replicate_run : list Call -> Call -> RunResult.
(** [proxyReplicateUrl] is total: it catches its own failures. *)
Variable proxyReplicateUrl : Output -> Url.

Definition json_error (msg : string) (code : nat) : Response Url :=
  {| body := BodyError msg; status := code |}.

Definition expired_response : Response Url := json_error EXPIRED_MESSAGE 400.

(** The handler's outermost [catch (error)]. *)
Definition outer_catch (message : option string) : Response Url :=
  if is404Error message then expired_response
  else json_error (match message with
                   | Some m => if truthy m then m else "Failed to generate video"
                   | None => "Failed to generate video"
                   end) 500.

Definition first_call (req : Request) (url : string) : Call :=
  let m := resolve_model req in
  {| call_model := m; call_input := build_input (getModelConfig m) url |}.

Definition fallback_call (url : string) : Call :=
  {| call_model := DEFAULT_MODEL;
     call_input := build_input (getModelConfig DEFAULT_MODEL) url |}.

(** [POST]: the response together with the provider calls made, in order. *)
Definition POST (req : Request) : Response Url * list Call :=
  match imageUrl req with
  | None => (json_error "Image URL is required" 400, [])
  | Some url =>
      if negb (truthy url) then (json_error "Image URL is required" 400, [])
      else
        let modelId := resolve_model req in
        let c1 := first_call req url in
        match replicate_run [] c1 with
        | RunOk output =>
            ({| body := BodyVideo (proxyReplicateUrl output) modelId None;
                status := 200 |}, [c1])
        | RunThrows modelError =>
            if is404Error modelError then (expired_response, [c1])
            else if negb (String.eqb modelId DEFAULT_MODEL) then
              let c2 := fallback_call url in
              match replicate_run [c1] c2 with
              | RunOk output =>
                  ({| body := BodyVideo (proxyReplicateUrl output) DEFAULT_MODEL
                                (Some (String.append "Original model failed, used fallback: " DEFAULT_MODEL));
                      status := 200 |}, [c1; c2])
              | RunThrows fallbackError =>
                  if is404Error fallbackError then (expired_response, [c1; c2])
                  else (outer_catch fallbackError, [c1; c2])
              end
            else (outer_catch modelError, [c1])
        end
  end.

End Route.

Arguments RunOk {Output}.
Arguments RunThrows {Output}.

End GenerateVideo.

(** ** The story store (the [StoryStore] class) *)

Module StoryStore.
Import Js.

Record Character := {
  name : string;
  char_description : string;
  prompt : option string;
  referenceImageUrl : option string;
  char_isGenerating : option bool
}.

Record Shot := {
  id : string;
  subtitle : string;
  location : string;
  content : string;
  imageUrl : option string;
  isGenerating : option bool;
  isAnimating : option bool;
  animationUrl : option string;
  audioUrl : option string;
  isGeneratingAudio : option bool
}.

Record Scene := {
  scene_id : string;
  title : string;
  description : string;
  shots : list Shot
}.

Record StoryData := {
  story_title : string;
  synopsis : string;
  characters : list Character;
  scenes : list Scene;
  style : option string;
  aspectRatio : option string
}.

(** Truthiness of an optional boolean flag. *)
Definition flag (o : option bool) : bool :=
  match o with
  | Some b => b
  | None => false
  end.

(** [Partial<Shot>]: [None] is an absent key; an optional field that is
    present may still carry [undefined]. *)
Record ShotUpdate := {
  u_id : option string;
  u_subtitle : option string;
  u_location : option string;
  u_content : option string;
  u_imageUrl : option (option string);
  u_isGenerating : option (option bool);
  u_isAnimating : option (option bool);
  u_animationUrl : option (option string);
  u_audioUrl : option (option string);
  u_isGeneratingAudio : option (option bool)
}.

Definition no_update : ShotUpdate :=
  {| u_id := None; u_subtitle := None; u_location := None; u_content := None;
     u_imageUrl := None; u_isGenerating := None; u_isAnimating := None;
     u_animationUrl := None; u_audioUrl := None; u_isGeneratingAudio := None |}.

(** [Object.assign(shot, updates)] *)
Definition assign (sh : Shot) (u : ShotUpdate) : Shot :=
  {| id := default (id sh) (u_id u);
     subtitle := default (subtitle sh) (u_subtitle u);
     location := default (location sh) (u_location u);
     content := default (content sh) (u_content u);
     imageUrl := default (imageUrl sh) (u_imageUrl u);
     isGenerating := default (isGenerating sh) (u_isGenerating u);
     isAnimating := default (isAnimating sh) (u_isAnimating u);
     animationUrl := default (animationUrl sh) (u_animationUrl u);
     audioUrl := default (audioUrl sh) (u_audioUrl u);
     isGeneratingAudio := default (isGeneratingAudio sh) (u_isGeneratingAudio u) |}.

Definition with_shots (f : list Shot -> list Shot) (sc : Scene) : Scene :=
  {| scene_id := scene_id sc; title := title sc; description := description sc;
     shots := f (shots sc) |}.

Definition with_scenes (f : list Scene -> list Scene) (st : StoryData) : StoryData :=
  {| story_title := story_title st; synopsis := synopsis st;
     characters := characters st; scenes := f (scenes st);
     style := style st; aspectRatio := aspectRatio st |}.

Definition with_characters (f : list Character -> list Character) (st : StoryData)
  : StoryData :=
  {| story_title := story_title st; synopsis := synopsis st;
     characters := f (characters st); scenes := scenes st;
     style := style st; aspectRatio := aspectRatio st |}.

(** [const x = l.find(p); if (x) mutate(x)]: the first match is changed
    in place, the array keeps its shape. *)
Fixpoint update_first {A} (p : A -> bool) (f : A -> A) (l : list A) : list A :=
  match l with
  | [] => []
  | x :: rest => if p x then f x :: rest else x :: update_first p f rest
  end.

Definition updateShot (st : StoryData) (sceneId shotId : string) (updates : ShotUpdate)
  : StoryData :=
  with_scenes
    (update_first (fun s => String.eqb (scene_id s) sceneId)
       (with_shots
          (update_first (fun s => String.eqb (id s) shotId)
             (fun shot => assign shot updates))))
    st.

Definition setGeneratingShot st sceneId shotId (b : bool) : StoryData :=
  updateShot st sceneId shotId
    {| u_id := None; u_subtitle := None; u_location := None; u_content := None;
       u_imageUrl := None; u_isGenerating := Some (Some b); u_isAnimating := None;
       u_animationUrl := None; u_audioUrl := None; u_isGeneratingAudio := None |}.

Definition setAnimatingShot st sceneId shotId (b : bool) : StoryData :=
  updateShot st sceneId shotId
    {| u_id := None; u_subtitle := None; u_location := None; u_content := None;
       u_imageUrl := None; u_isGenerating := None; u_isAnimating := Some (Some b);
       u_animationUrl := None; u_audioUrl := None; u_isGeneratingAudio := None |}.

Definition setGeneratingAudioShot st sceneId shotId (b : bool) : StoryData :=
  updateShot st sceneId shotId
    {| u_id := None; u_subtitle := None; u_location := None; u_content := None;
       u_imageUrl := None; u_isGenerating := None; u_isAnimating := None;
       u_animationUrl := None; u_audioUrl := None; u_isGeneratingAudio := Some (Some b) |}.

(** [getAllShots]: [scenes.flatMap(scene => scene.shots)] *)
Definition getAllShots (st : StoryData) : list Shot :=
  concat (shots <$> scenes st).

(** [Partial<Character>] restricted to the keys the callers pass. *)
Record CharacterUpdate := {
  u_referenceImageUrl : option (option string);
  u_char_isGenerating : option (option bool)
}.

Definition assign_character (c : Character) (u : CharacterUpdate) : Character :=
  {| name := name c; char_description := char_description c; prompt := prompt c;
     referenceImageUrl := default (referenceImageUrl c) (u_referenceImageUrl u);
     char_isGenerating := default (char_isGenerating c) (u_char_isGenerating u) |}.

(** [if (this.story.characters[index]) Object.assign(...)]: an index out
    of range reads [undefined] and nothing happens. *)
Definition updateCharacter (st : StoryData) (index : nat) (u : CharacterUpdate)
  : StoryData :=
  with_characters (alter (fun c => assign_character c u) index) st.

Definition setGeneratingCharacter st (index : nat) (b : bool) : StoryData :=
  updateCharacter st index
    {| u_referenceImageUrl := None; u_char_isGenerating := Some (Some b) |}.

(** The shot object [updateShot] would mutate. *)
Definition find_shot (st : StoryData) (sceneId shotId : string) : option Shot :=
  match List.find (fun s => String.eqb (scene_id s) sceneId) (scenes st) with
  | Some scene => List.find (fun s => String.eqb (id s) shotId) (shots scene)
  | None => None
  end.

End StoryStore.

(** ** Stale-flag reset on mount ([Storyboard] and [EditView] components) *)

Module Mount.
Import Js StoryStore.

(** The shot at array position [(i, j)] of the live store. *)
Definition shot_at (st : StoryData) (i j : nat) : option (Scene * Shot) :=
  match scenes st !! i with
  | Some scene =>
      match shots scene !! j with
      | Some shot => Some (scene, shot)
      | None => None
      end
  | None => None
  end.

(** [if (stale(shot)) storyStore.clear(scene.id, shot.id, false)], reading
    the live objects the two [forEach] callbacks are handed. *)
Definition reset_if (stale : Shot -> bool)
    (clear : StoryData -> string -> string -> bool -> StoryData)
    (st : StoryData) (i j : nat) : StoryData :=
  match shot_at st i j with
  | Some (scene, shot) =>
      if stale shot then clear st (scene_id scene) (id shot) false else st
  | None => st
  end.

(** [scenes.forEach(scene => scene.shots.forEach(shot => body))] *)
Definition forEach_shot (body : StoryData -> nat -> nat -> StoryData)
    (st : StoryData) : StoryData :=
  fold_left
    (fun st i =>
       match scenes st !! i with
       | Some scene =>
           fold_left (fun st j => body st i j) (seq 0 (length (shots scene))) st
       | None => st
       end)
    (seq 0 (length (scenes st))) st.

(** [shot.isGenerating && !shot.imageUrl] and its two siblings. *)
Definition stuck_image (shot : Shot) : bool :=
  flag (isGenerating shot) && negb (truthy_opt (imageUrl shot)).
Definition stuck_animation (shot : Shot) : bool :=
  flag (isAnimating shot) && negb (truthy_opt (animationUrl shot)).
Definition stuck_audio (shot : Shot) : bool :=
  flag (isGeneratingAudio shot) && negb (truthy_opt (audioUrl shot)).
Definition stuck_character (char : Character) : bool :=
  flag (char_isGenerating char) && negb (truthy_opt (referenceImageUrl char)).

(** [characters.forEach((char, index) => ...)] of the Storyboard effect. *)
Definition reset_characters (st : StoryData) : StoryData :=
  fold_left
    (fun st index =>
       match characters st !! index with
       | Some char =>
           if stuck_character char then setGeneratingCharacter st index false else st
       | None => st
       end)
    (seq 0 (length (characters st))) st.

(** The [useEffect(..., [])] of [Storyboard]. *)
Definition Storyboard_mount (st : StoryData) : StoryData :=
  reset_characters (forEach_shot (reset_if stuck_image setGeneratingShot) st).

(** The second [useEffect(..., [])] of [EditView]: two checks per shot. *)
Definition EditView_mount (st : StoryData) : StoryData :=
  forEach_shot
    (fun st i j =>
       reset_if stuck_audio setGeneratingAudioShot
         (reset_if stuck_animation setAnimatingShot st i j) i j)
    st.

(** *** The reset as the specification words it: a flag that is set
        while the asset reference is empty is cleared, all else is kept *)

Definition clear_image_flag (shot : Shot) : Shot :=
  if flag (isGenerating shot) && negb (truthy_opt (imageUrl shot)) then
    {| id := id shot; subtitle := subtitle shot; location := location shot;
       content := content shot; imageUrl := imageUrl shot;
       isGenerating := Some false; isAnimating := isAnimating shot;
       animationUrl := animationUrl shot; audioUrl := audioUrl shot;
       isGeneratingAudio := isGeneratingAudio shot |}
  else shot.

Definition clear_animation_flag (shot : Shot) : Shot :=
  if flag (isAnimating shot) && negb (truthy_opt (animationUrl shot)) then
    {| id := id shot; subtitle := subtitle shot; location := location shot;
       content := content shot; imageUrl := imageUrl shot;
       isGenerating := isGenerating shot; isAnimating := Some false;
       animationUrl := animationUrl shot; audioUrl := audioUrl shot;
       isGeneratingAudio := isGeneratingAudio shot |}
  else shot.

Definition clear_audio_flag (shot : Shot) : Shot :=
  if flag (isGeneratingAudio shot) && negb (truthy_opt (audioUrl shot)) then
    {| id := id shot; subtitle := subtitle shot; location := location shot;
       content := content shot; imageUrl := imageUrl shot;
       isGenerating := isGenerating shot; isAnimating := isAnimating shot;
       animationUrl := animationUrl shot; audioUrl := audioUrl shot;
       isGeneratingAudio := Some false |}
  else shot.

Definition clear_character_flag (char : Character) : Character :=
  if flag (char_isGenerating char) && negb (truthy_opt (referenceImageUrl char)) then
    {| name := name char; char_description := char_description char;
       prompt := prompt char; referenceImageUrl := referenceImageUrl char;
       char_isGenerating := Some false |}
  else char.

(** An in-place change of the shot at position [(i, j)]. *)
Definition at_shot (g : Shot -> Shot) (i j : nat) (st : StoryData) : StoryData :=
  with_scenes (alter (with_shots (alter g j)) i) st.

(** Every shot of every scene passed through [f]. *)
Definition map_shots (f : Shot -> Shot) (st : StoryData) : StoryData :=
  with_scenes (fmap (with_shots (fmap f))) st.

(** Identifiers are unique: scene ids across the story, shot ids within
    a scene (they come from [generateSceneId]/[generateShotId]). *)
Definition unique_ids (st : StoryData) : Prop :=
  NoDup (scene_id <$> scenes st) /\
  Forall (fun scene => NoDup (id <$> shots scene)) (scenes st).

End Mount.

(** ** The wave scheduler ([generateAllImages], [animateSelected],
       [generateAllAudio]) *)

Module Scheduler.
Import Js StoryStore.

(** How a job's promise settles. *)
Inductive Settled := Resolved | Rejected.

(** What an awaited [fetch(...)] followed by [response.json()] yields. *)
Inductive Fetched (D : Type) :=
| Responded (ok : bool) (data : D)
| FetchThrows.
Arguments Responded {D}.
Arguments FetchThrows {D}.

(** [l.slice(i, j)] for [i <= j] *)
Definition slice {A} (l : list A) (i j : nat) : list A := take (j - i) (drop i l).

Section Batch.
Context {J Out St : Type}.
Variables (concurrency delay : nat).

(** What the batch function does next: launch a wave and await all of
    it, or await a timer. *)
Inductive step :=
| Wave (batch : list J)
| Sleep (ms : nat).

(** The loop
    [for (let i = 0; i < jobs.length; i += concurrency) {
       const batch = jobs.slice(i, i + concurrency);
       await Promise.all(batch.map(...));
       if (i + concurrency < jobs.length) await sleep(delay);
     }].
    [None] means the fuel ran out before the loop condition failed. *)
Fixpoint loop (fuel : nat) (jobs : list J) (i : nat) : option (list step) :=
  if (i <? length jobs)%nat then
    match fuel with
    | O => None
    | S fuel' =>
        let batch := slice jobs i (i + concurrency) in
        let pause := if (i + concurrency <? length jobs)%nat then [Sleep delay] else [] in
        match loop fuel' jobs (i + concurrency) with
        | Some rest => Some (Wave batch :: pause ++ rest)
        | None => None
        end
    end
  else Some [].

Definition run_waves (jobs : list J) : option (list step) :=
  loop (length jobs) jobs 0.

Fixpoint waves (sched : list step) : list (list J) :=
  match sched with
  | [] => []
  | Wave batch :: rest => batch :: waves rest
  | Sleep _ :: rest => waves rest
  end.

(** Observable events of one run. *)
Inductive event :=
| Started (j : J)
| Finished (j : J) (o : Out)
| Slept (ms : nat).

(** The synchronous prefix of a job (up to its first [await]) and its
    continuation once the awaited request has produced [o]. *)
Variable start : St -> J -> St.
Variable finish : St -> J -> Out -> St * Settled.

(** The continuations of one wave, in the order the requests return.
    Each resolved job runs [completed++]; the first rejection rejects
    [Promise.all] and with it the batch function. *)
Fixpoint settle_all (st : St) (completed : nat) (done : list (J * Out))
  : St * nat * list event * Settled :=
  match done with
  | [] => (st, completed, [], Resolved)
  | (j, o) :: rest =>
      match finish st j o with
      | (st', Resolved) =>
          let '(st'', n, tr, r) := settle_all st' (S completed) rest in
          (st'', n, Finished j o :: tr, r)
      | (st', Rejected) => (st', completed, [Finished j o], Rejected)
      end
  end.

(** [runs sched st completed tr (st', completed', r)]: one possible run
    of the schedule.  Within a wave all jobs start in array order, then
    their requests return in any order with any outcomes. *)
Inductive runs : list step -> St -> nat -> list event -> St * nat * Settled -> Prop :=
| runs_done st n :
    runs [] st n [] (st, n, Resolved)
| runs_sleep ms rest st n tr res :
    runs rest st n tr res ->
    runs (Sleep ms :: rest) st n (Slept ms :: tr) res
| runs_wave batch done rest st n st' n' evs tr res :
    Permutation batch (done.*1) ->
    settle_all (fold_left start batch st) n done = (st', n', evs, Resolved) ->
    runs rest st' n' tr res ->
    runs (Wave batch :: rest) st n ((Started <$> batch) ++ evs ++ tr) res
| runs_reject batch done rest st n st' n' evs :
    Permutation batch (done.*1) ->
    settle_all (fold_left start batch st) n done = (st', n', evs, Rejected) ->
    runs (Wave batch :: rest) st n ((Started <$> batch) ++ evs) (st', n', Rejected).

(** The discipline a trace must follow.  [running] counts the jobs
    started and not yet finished, [prev] is the event just before.
    A job starts only while fewer than [concurrency] are running, and
    only as the first event, directly after another start of its wave,
    or directly after the inter-wave delay with nothing running; the
    delay itself begins only when nothing is running. *)
Fixpoint respects (prev : option event) (running : nat) (tr : list event) : Prop :=
  match tr with
  | [] => True
  | Started j :: tr' =>
      running < concurrency /\
      match prev with
      | None => running = 0
      | Some (Started _) => True
      | Some (Slept ms) => ms = delay /\ running = 0
      | Some (Finished _ _) => False
      end /\
      respects (Some (Started j)) (S running) tr'
  | Finished j o :: tr' =>
      0 < running /\ respects (Some (Finished j o)) (running - 1) tr'
  | Slept ms :: tr' =>
      ms = delay /\ running = 0 /\ respects (Some (Slept ms)) 0 tr'
  end.

(** Waves separated by exactly one [Sleep delay], none after the last. *)
Fixpoint interleave (ws : list (list J)) : list step :=
  match ws with
  | [] => []
  | w :: rest =>
      Wave w :: match rest with
                | [] => []
                | _ :: _ => Sleep delay :: interleave rest
                end
  end.

(** Every wave but the last holds exactly [concurrency] jobs. *)
Fixpoint full_but_last (ws : list (list J)) : Prop :=
  match ws with
  | [] => True
  | w :: rest =>
      match rest with
      | [] => True
      | _ :: _ => length w = concurrency /\ full_but_last rest
      end
  end.

Definition is_finished (e : event) : Prop :=
  match e with
  | Finished _ _ => True
  | _ => False
  end.

Definition count_finished (tr : list event) : nat :=
  length (List.filter (fun e => match e with Finished _ _ => true | _ => false end) tr).

Definition started_jobs (tr : list event) : list J :=
  omap (fun e => match e with Started j => Some j | _ => None end) tr.

End Batch.

Arguments step : clear implicits.
Arguments event : clear implicits.

(** *** The three job bodies *)

(** A job closes over the scene id and the shot it was collected with. *)
Definition Job : Type := string * Shot.

Record ImageData := { image_error : option string; data_imageUrl : option string }.
Record VideoData := { video_error : option string; data_videoUrl : option string }.
Record AudioData := { audio_error : option string; data_audioUrl : option string }.

(** [Storyboard.generateImage] *)
Definition generateImage_start (st : StoryData) (job : Job) : StoryData :=
  setGeneratingShot st job.1 (id job.2) true.

(** The rest of the [try] block; [inl] is a throw. *)
Definition generateImage_try (st : StoryData) (job : Job) (r : Fetched ImageData)
  : unit + StoryData :=
  match r with
  | FetchThrows => inl tt
  | Responded _ data =>
      if truthy_opt (image_error data) then inl tt
      else inr (updateShot st job.1 (id job.2)
                  {| u_id := None; u_subtitle := None; u_location := None;
                     u_content := None; u_imageUrl := Some (data_imageUrl data);
                     u_isGenerating := Some (Some false); u_isAnimating := None;
                     u_animationUrl := None; u_audioUrl := None;
                     u_isGeneratingAudio := None |})
  end.

(** The [catch] block logs, clears the flag and alerts; nothing is rethrown. *)
Definition generateImage_finish (st : StoryData) (job : Job) (r : Fetched ImageData)
  : StoryData * Settled :=
  match generateImage_try st job r with
  | inr st' => (st', Resolved)
  | inl _ => (setGeneratingShot st job.1 (id job.2) false, Resolved)
  end.

(** [EditView.animateShot]; a shot without an image returns at once. *)
Definition animateShot_start (st : StoryData) (job : Job) : StoryData :=
  if truthy_opt (imageUrl job.2) then setAnimatingShot st job.1 (id job.2) true else st.

Definition animateShot_try (st : StoryData) (job : Job) (r : Fetched VideoData)
  : unit + StoryData :=
  match r with
  | FetchThrows => inl tt
  | Responded _ data =>
      if truthy_opt (video_error data) then inl tt
      else inr (updateShot st job.1 (id job.2)
                  {| u_id := None; u_subtitle := None; u_location := None;
                     u_content := None; u_imageUrl := None;
                     u_isGenerating := None; u_isAnimating := Some (Some false);
                     u_animationUrl := Some (data_videoUrl data); u_audioUrl := None;
                     u_isGeneratingAudio := None |})
  end.

(** [EditView.generateAudio] up to its first [await]: it returns at once
    when audio is disabled or the shot has no caption, and otherwise
    raises the shot's audio flag before sending its request. *)
Definition EditView_generateAudio_start (enableAudio : bool) (st : StoryData) (job : Job)
  : StoryData :=
  if enableAudio && truthy (subtitle job.2)
  then setGeneratingAudioShot st job.1 (id job.2) true
  else st.

(** [if (enableAudio && shot.subtitle && !shot.audioUrl) generateAudio(...)]:
    the call is not awaited and carries its own [.catch], so only its
    synchronous part runs inside this job and it cannot reject the job's
    promise.  Its request settles as a task of its own, which writes
    nothing but [audioUrl] and [isGeneratingAudio] of the same shot. *)
Definition animateShot_background_audio (enableAudio : bool) (st : StoryData) (job : Job)
  : StoryData :=
  if enableAudio && truthy (subtitle job.2) && negb (truthy_opt (audioUrl job.2))
  then EditView_generateAudio_start enableAudio st job
  else st.

(** After a successful update the job starts the background audio request
    and removes the shot from the selection set (component state, not part
    of the store). *)
Definition animateShot_finish (enableAudio : bool) (st : StoryData) (job : Job)
    (r : Fetched VideoData) : StoryData * Settled :=
  if truthy_opt (imageUrl job.2) then
    match animateShot_try st job r with
    | inr st' => (animateShot_background_audio enableAudio st' job, Resolved)
    | inl _ => (setAnimatingShot st job.1 (id job.2) false, Resolved)
    end
  else (st, Resolved).

(** [AudioGenerator.generateAudio]; it returns early when the scene is gone. *)
Definition scene_exists (st : StoryData) (sceneId : string) : bool :=
  match List.find (fun s => String.eqb (scene_id s) sceneId) (scenes st) with
  | Some _ => true
  | None => false
  end.

Definition generateAudio_start (st : StoryData) (job : Job) : StoryData :=
  if scene_exists st job.1 then setGeneratingAudioShot st job.1 (id job.2) true else st.

Definition generateAudio_try (st : StoryData) (job : Job) (r : Fetched AudioData)
  : unit + StoryData :=
  match r with
  | FetchThrows => inl tt
  | Responded _ data =>
      if truthy_opt (audio_error data) then inl tt
      else inr (updateShot st job.1 (id job.2)
                  {| u_id := None; u_subtitle := None; u_location := None;
                     u_content := None; u_imageUrl := None;
                     u_isGenerating := None; u_isAnimating := None;
                     u_animationUrl := None; u_audioUrl := Some (data_audioUrl data);
                     u_isGeneratingAudio := Some (Some false) |})
  end.

Definition generateAudio_finish (st : StoryData) (job : Job) (r : Fetched AudioData)
  : StoryData * Settled :=
  if scene_exists st job.1 then
    match generateAudio_try st job r with
    | inr st' => (st', Resolved)
    | inl _ => (setGeneratingAudioShot st job.1 (id job.2) false, Resolved)
    end
  else (st, Resolved).

(** *** Work lists and the three batch functions *)

Definition collect (need : Shot -> bool) (st : StoryData) : list Job :=
  concat ((fun scene => (fun shot => (scene_id scene, shot)) <$> List.filter need (shots scene))
            <$> scenes st).

Definition needs_image (shot : Shot) : bool :=
  negb (truthy_opt (imageUrl shot)) && negb (flag (isGenerating shot)).

Definition needs_animation (selected : gset string) (shot : Shot) : bool :=
  bool_decide (id shot ∈ selected) && negb (flag (isAnimating shot))
  && negb (truthy_opt (animationUrl shot)).

Definition needs_audio (shot : Shot) : bool :=
  negb (truthy_opt (audioUrl shot)) && negb (flag (isGeneratingAudio shot))
  && truthy (subtitle shot).

Inductive JobKind := ImageJobs | VideoJobs | AudioJobs.

(** [const concurrency = ...] in the three batch functions. *)
Definition concurrency_of (k : JobKind) : nat :=
  match k with
  | ImageJobs => 5
  | VideoJobs => 3
  | AudioJobs => 10
  end.

(** The [setTimeout] argument between waves, in milliseconds. *)
Definition delay_of (k : JobKind) : nat :=
  match k with
  | ImageJobs => 500
  | VideoJobs => 1000
  | AudioJobs => 200
  end.

Definition schedule (k : JobKind) (jobs : list Job) : option (list (step Job)) :=
  run_waves (concurrency_of k) (delay_of k) jobs.

Definition generateAllImages (st : StoryData) : option (list (step Job)) :=
  schedule ImageJobs (collect needs_image st).

Definition animateSelected (selected : gset string) (st : StoryData)
  : option (list (step Job)) :=
  schedule VideoJobs (collect (needs_animation selected) st).

(** [enableAudio] off: the function alerts and returns before collecting. *)
Definition generateAllAudio (enableAudio : bool) (st : StoryData)
  : option (list (step Job)) :=
  if enableAudio then schedule AudioJobs (collect needs_audio st) else Some [].

End Scheduler.

(** ** JavaScript numbers (IEEE-754 binary64), as the rationals they denote *)

Module Double.

(** [2^e] for any integer exponent. *)
Definition pow2 (e : Z) : Q := (2 ^ e)%Q.

(** The binade of a positive number: the [b] with [2^b <= q < 2^(b+1)]. *)
Definition binade (q : Q) : Z :=
  let e := (Z.log2 (Qnum q) - Z.log2 (Z.pos (Qden q)))%Z in
  if Qle_bool (pow2 e) q then e else (e - 1)%Z.

(** Round to the nearest integer, ties to the even one. *)
Definition nearest_even (x : Q) : Z :=
  let f := Qfloor x in
  match (x - inject_Z f ?= 1 # 2)%Q with
  | Lt => f
  | Gt => (f + 1)%Z
  | Eq => if Z.even f then f else (f + 1)%Z
  end.

(** The exponent of the last mantissa bit: 52 below the binade, and never
    below that of the subnormal numbers. *)
Definition ulp_exp (q : Q) : Z := Z.max (binade q - 52) (-1074).

Definition round_pos (q : Q) : Q :=
  (inject_Z (nearest_even (q / pow2 (ulp_exp q))) * pow2 (ulp_exp q))%Q.

(** The binary64 number nearest to [q], ties to even, with no bound on
    the exponent: a result of [2^1024] or more stands for an infinity. *)
Definition round64 (q : Q) : Q :=
  match (q ?= 0)%Q with
  | Eq => 0%Q
  | Lt => (- round_pos (- q))%Q
  | Gt => round_pos q
  end.

End Double.

(** ** [src/utils/audioExtender.ts] *)

Module AudioExtender.
Import Double.

(** A Web Audio [AudioBuffer]: one sample list per channel.  Samples are
    the rationals their floats denote; the sample rate is a whole number
    of hertz.  Durations and products are JavaScript numbers: every
    arithmetic result is rounded to a double. *)
Record AudioBuffer := {
  sampleRate : Z;
  buf_length : nat;
  channelData : list (list Q)
}.

Definition numberOfChannels (b : AudioBuffer) : nat := length (channelData b).

(** [audioBuffer.duration]: frames over rate, in seconds, as a double. *)
Definition duration (b : AudioBuffer) : Q :=
  round64 (inject_Z (Z.of_nat (buf_length b)) / inject_Z (sampleRate b)).

(** Every channel holds [buf_length] samples, at a positive rate. *)
Definition well_formed (b : AudioBuffer) : Prop :=
  (0 < sampleRate b)%Z /\
  Forall (fun ch => length ch = buf_length b) (channelData b).

(** [audioContext.createBuffer(channels, length, rate)]: zero-filled;
    throws [NotSupportedError] on a zero channel count, a zero length or
    a non-positive rate. *)
Definition createBuffer (channels frames : nat) (rate : Z) : option AudioBuffer :=
  if (0 <? channels)%nat && (0 <? frames)%nat && (0 <? rate)%Z then
    Some {| sampleRate := rate; buf_length := frames;
            channelData := replicate channels (replicate frames 0%Q) |}
  else None.

(** [target.set(source)]: copy at offset 0; a [RangeError] when the
    source is longer than the target. *)
Definition typed_set (target source : list Q) : option (list Q) :=
  if (length source <=? length target)%nat
  then Some (source ++ drop (length source) target)
  else None.

(** The channel loop: [extendedData.set(originalData)] per channel. *)
Fixpoint copy_channels (originals extended : list (list Q)) : option (list (list Q)) :=
  match originals, extended with
  | [], _ => Some extended
  | originalData :: os, extendedData :: es =>
      match typed_set extendedData originalData with
      | Some ch =>
          match copy_channels os es with
          | Some rest => Some (ch :: rest)
          | None => None
          end
      | None => None
      end
  | _ :: _, [] => None
  end.

(** The conversion of a whole number to the [unsigned long] that
    [createBuffer] takes as its length: modulo [2^32].  (An infinite
    product converts to 0; so does its stand-in here, every double from
    [2^1024] on being a multiple of [2^32].) *)
Definition to_unsigned_long (z : Z) : nat := Z.to_nat (z mod 2 ^ 32).

(** [Math.ceil(targetDuration * audioBuffer.sampleRate)]: the product is
    rounded to a double before the ceiling is taken. *)
Definition target_frames (audioBuffer : AudioBuffer) (targetDuration : Q) : nat :=
  to_unsigned_long
    (Qceiling (round64 (targetDuration * inject_Z (sampleRate audioBuffer)))).

(** The buffer handed to [audioBufferToDataUrl]; [None] is a throw. *)
Definition extendBuffer (audioBuffer : AudioBuffer) (targetDuration : Q)
  : option AudioBuffer :=
  match createBuffer (numberOfChannels audioBuffer)
          (target_frames audioBuffer targetDuration) (sampleRate audioBuffer) with
  | Some extendedBuffer =>
      match copy_channels (channelData audioBuffer) (channelData extendedBuffer) with
      | Some chans =>
          Some {| sampleRate := sampleRate extendedBuffer;
                  buf_length := buf_length extendedBuffer;
                  channelData := chans |}
      | None => None
      end
  | None => None
  end.

(** *** The WAV writer ([audioBufferToDataUrl]) over a [DataView] *)

(** A [DataView] over an [ArrayBuffer]: a list of byte values.  The
    setters raise [RangeError] out of range; the list update is then a
    no-op, and [audioBufferToDataUrl] never writes out of range. *)
Definition setUint8 (view : list Z) (offset : nat) (v : Z) : list Z :=
  <[offset := (v mod 256)%Z]> view.

(** Little-endian setters ([littleEndian = true] at every call site). *)
Definition setUint16 (view : list Z) (offset : nat) (v : Z) : list Z :=
  setUint8 (setUint8 view offset v) (offset + 1) (v / 256)%Z.

Definition setUint32 (view : list Z) (offset : nat) (v : Z) : list Z :=
  setUint8 (setUint8 (setUint8 (setUint8 view offset v)
                        (offset + 1) (v / 256)%Z)
              (offset + 2) (v / 65536)%Z)
    (offset + 3) (v / 16777216)%Z.

(** The integer part of a number, towards zero. *)
Definition Qtrunc (q : Q) : Z :=
  if Qle_bool 0 q then Qfloor q else Qceiling q.

(** [setInt16(offset, x, true)]: [ToInt16] truncates [x] and wraps it
    modulo 2^16; the two's complement bytes are those of the wrapped
    value. *)
Definition setInt16 (view : list Z) (offset : nat) (x : Q) : list Z :=
  setUint16 view offset (Qtrunc x mod 65536)%Z.

Definition charCodes (s : string) : list Z :=
  (fun c => Z.of_nat (nat_of_ascii c)) <$> list_ascii_of_string s.

(** [writeString(view, offset, string)] *)
Definition writeString (view : list Z) (offset : nat) (s : string) : list Z :=
  fold_left (fun v ic => setUint8 v (offset + ic.1) ic.2) (imap pair (charCodes s)) view.

(** [Math.max(-1, Math.min(1, sample)) * 0x7FFF] *)
Definition scale_sample (sample : Q) : Q :=
  (Qmax (-1) (Qmin 1 sample) * 32767)%Q.

(** [audioBuffer.getChannelData(channel)[i]]; a missing sample would read
    [undefined] and be written as 0. *)
Definition sample_at (b : AudioBuffer) (channel i : nat) : Q :=
  default 0%Q (channelData b !! channel ≫= fun ch => ch !! i).

(** The frame loop with its running [offset]. *)
Definition write_frames (b : AudioBuffer) (view : list Z) : list Z * nat :=
  fold_left
    (fun acc i =>
       fold_left
         (fun acc channel =>
            (setInt16 acc.1 acc.2 (scale_sample (sample_at b channel i)), acc.2 + 2))
         (seq 0 (numberOfChannels b)) acc)
    (seq 0 (buf_length b)) (view, 44).

(** The bytes of the [wavBuffer] when the function reaches the [Blob]. *)
Definition wav_bytes (audioBuffer : AudioBuffer) : list Z :=
  let channels := Z.of_nat (numberOfChannels audioBuffer) in
  let rate := sampleRate audioBuffer in
  let len := Z.of_nat (buf_length audioBuffer) in
  let view := replicate (44 + buf_length audioBuffer * numberOfChannels audioBuffer * 2) 0%Z in
  let view := writeString view 0 "RIFF" in
  let view := setUint32 view 4 (36 + len * channels * 2) in
  let view := writeString view 8 "WAVE" in
  let view := writeString view 12 "fmt " in
  let view := setUint32 view 16 16 in
  let view := setUint16 view 20 1 in
  let view := setUint16 view 22 channels in
  let view := setUint32 view 24 rate in
  let view := setUint32 view 28 (rate * channels * 2) in
  let view := setUint16 view 32 (channels * 2) in
  let view := setUint16 view 34 16 in
  let view := writeString view 36 "data" in
  let view := setUint32 view 40 (len * channels * 2) in
  (write_frames audioBuffer view).1.

(** *** The layout the writer is expected to produce *)

Definition u16le (v : Z) : list Z := [v mod 256; v / 256 mod 256]%Z.
Definition u32le (v : Z) : list Z :=
  [v mod 256; v / 256 mod 256; v / 65536 mod 256; v / 16777216 mod 256]%Z.

Definition wav_header (audioBuffer : AudioBuffer) : list Z :=
  let channels := Z.of_nat (numberOfChannels audioBuffer) in
  let rate := sampleRate audioBuffer in
  let bytes := (Z.of_nat (buf_length audioBuffer) * channels * 2)%Z in
  charCodes "RIFF" ++ u32le (36 + bytes) ++ charCodes "WAVE" ++
  charCodes "fmt " ++ u32le 16 ++ u16le 1 ++ u16le channels ++ u32le rate ++
  u32le (rate * channels * 2) ++ u16le (channels * 2) ++ u16le 16 ++
  charCodes "data" ++ u32le bytes.

(** The two bytes [setInt16] stores for the number [x]. *)
Definition pcm16le_raw (x : Q) : list Z := u16le (Qtrunc x mod 65536).

(** A sample as signed 16-bit little-endian PCM. *)
Definition pcm16le (sample : Q) : list Z := pcm16le_raw (scale_sample sample).

(** Frame after frame, the channels interleaved. *)
Definition pcm_data (audioBuffer : AudioBuffer) : list Z :=
  flat_map
    (fun i => flat_map (fun channel => pcm16le (sample_at audioBuffer channel i))
                (seq 0 (numberOfChannels audioBuffer)))
    (seq 0 (buf_length audioBuffer)).

(** Reading a little-endian field back. *)
Definition read_le (bytes : list Z) : Z :=
  fold_right (fun b acc => b + 256 * acc)%Z 0%Z bytes.

Definition slice_bytes (view : list Z) (offset len : nat) : list Z :=
  take len (drop offset view).

Section Extend.
(** [atob] plus [decodeAudioData]: [None] when either throws. *)
Variable decodeAudioData : string -> option AudioBuffer.
(** [blobToBase64]: [None] when the [FileReader] errors. *)
Variable blobToBase64 : list Z -> option string.

Definition audioBufferToDataUrl (audioBuffer : AudioBuffer) : option string :=
  match blobToBase64 (wav_bytes audioBuffer) with
  | Some base64 => Some (String.append "data:audio/wav;base64," base64)
  | None => None
  end.

(** [extendAudioToTargetDuration]: every throw inside the [try] lands
    in the [catch], which returns the original data URL.
    [targetDuration] is a finite double. *)
Definition extendAudioToTargetDuration (audioDataUrl : string) (targetDuration : Q)
  : string :=
  match decodeAudioData audioDataUrl with
  | Some audioBuffer =>
      if Qle_bool targetDuration (duration audioBuffer) then audioDataUrl
      else
        match extendBuffer audioBuffer targetDuration with
        | Some extendedBuffer =>
            match audioBufferToDataUrl extendedBuffer with
            | Some extendedDataUrl => extendedDataUrl
            | None => audioDataUrl
            end
        | None => audioDataUrl
        end
  | None => audioDataUrl
  end.
End Extend.

End AudioExtender.

(** ** [src/utils/videoComposer.ts] and [src/utils/videoAudioMerger.ts] *)

Module VideoComposer.
Import Js.

(** The ffmpeg.wasm session as the code sees it: its virtual file system,
    the argument vectors it was asked to execute, and what went to
    [console.warn] / [console.error] ([console.log] progress lines are
    not kept). *)
Inductive Console :=
| Warn (text : string)
| Error (text : string).

Record Session := {
  files : gmap string (list Z);
  execs : list (list string);
  console : list Console
}.

Definition writeFile (s : Session) (name : string) (data : list Z) : Session :=
  {| files := <[name := data]> (files s); execs := execs s; console := console s |}.

(** [readFile] rejects on a missing file. *)
Definition readFile (s : Session) (name : string) : option (list Z) := files s !! name.

Definition deleteFile (s : Session) (name : string) : Session :=
  {| files := delete name (files s); execs := execs s; console := console s |}.

Definition say (s : Session) (line : Console) : Session :=
  {| files := files s; execs := execs s; console := console s ++ [line] |}.

Definition SUBTITLE_IGNORED : Console :=
  Warn "⚠️  Subtitle ignored: ffmpeg.wasm does not support text rendering (no fonts)".

(** The result of an [async] function: the session it leaves behind and
    either its value or the message of the error it rejects with (a fixed
    text stands for the message of an error raised by the session itself). *)
Definition Outcome (A : Type) : Type := Session * (A + string).

(** [audioUrl && audioUrl.length > 10] *)
Definition hasAudio (audioUrl : option string) : bool :=
  match audioUrl with
  | Some a => truthy a && (10 <? String.length a)%nat
  | None => false
  end.

(** [subtitle && subtitle.length > 0] *)
Definition hasSubtitle (subtitle : option string) : bool :=
  match subtitle with
  | Some t => truthy t && (0 <? String.length t)%nat
  | None => false
  end.

(** The argument vector of the export path's only transcode. *)
Definition mux_argv (videoFile outputFile : string) : list string :=
  [ "-i"; videoFile; "-i"; "temp_audio.mp3";
    "-c:v"; "copy"; "-c:a"; "aac"; "-b:a"; "128k";
    "-shortest"; "-movflags"; "+faststart"; "-y"; outputFile ].

(** The value following an option in an argument vector. *)
Fixpoint arg_value (opt : string) (argv : list string) : option string :=
  match argv with
  | a :: ((v :: _) as rest) => if String.eqb a opt then Some v else arg_value opt rest
  | _ => None
  end.

Definition has_arg (opt : string) (argv : list string) : bool :=
  existsb (String.eqb opt) argv.

Section Ffmpeg.
(** [ffmpeg.exec(argv)] on the current files: the files afterwards, or
    [None] when the call rejects. *)
Variable ffmpeg_exec : list string -> gmap string (list Z) -> option (gmap string (list Z)).
(** [atob]: [None] for an [InvalidCharacterError]. *)
Variable atob : string -> option (list Z).
(** [fetchFile]: [None] when the download fails. *)
Variable fetchFile : string -> option (list Z).

(** [await ffmpeg.exec(argv)]: the command is recorded; [false] when
    the call rejects, leaving the files as they were. *)
Definition exec (s : Session) (argv : list string) : Session * bool :=
  match ffmpeg_exec argv (files s) with
  | Some fs => ({| files := fs; execs := execs s ++ [argv]; console := console s |}, true)
  | None =>
      ({| files := files s; execs := execs s ++ [argv]; console := console s |}, false)
  end.

(** [const videoData = await ffmpeg.readFile(videoFile);
     await ffmpeg.writeFile(outputFile, videoData);]  [None] is a throw. *)
Definition copy_video (s : Session) (videoFile outputFile : string) : option Session :=
  match readFile s videoFile with
  | Some videoData => Some (writeFile s outputFile videoData)
  | None => None
  end.

(** The [try] block that loads the audio.  [inl] is a throw (caught by
    the block's own [catch]); [inr (s, true)] is the early [return]
    after copying the video, [inr (s, false)] falls through to the mux. *)
Definition load_audio (s : Session) (videoFile outputFile audioUrl : string)
  : unit + (Session * bool) :=
  if startsWith audioUrl "data:" then
    match split_comma audioUrl !! 1%nat with
    | Some base64Data =>
        if negb (truthy base64Data) || (String.length base64Data =? 0)%nat then
          match copy_video (say s (Warn "⚠️  Empty audio data, skipping audio"))
                  videoFile outputFile with
          | Some s' => inr (s', true)
          | None => inl tt
          end
        else
          match atob base64Data with
          | Some bytes => inr (writeFile s "temp_audio.mp3" bytes, false)
          | None => inl tt
          end
    | None =>
        match copy_video (say s (Warn "⚠️  Empty audio data, skipping audio"))
                videoFile outputFile with
        | Some s' => inr (s', true)
        | None => inl tt
        end
    end
  else
    match fetchFile audioUrl with
    | Some audioData => inr (writeFile s "temp_audio.mp3" audioData, false)
    | None => inl tt
    end.

(** [processVideo]; the outermost [catch] logs and rethrows. *)
Definition processVideo (s : Session) (videoFile : string)
    (audioUrl subtitle : option string) (outputFile : string) : Outcome unit :=
  let rethrow (s : Session) (msg : string) : Outcome unit :=
    (say s (Error (String.append "✗✗✗ Video processing error for " videoFile)), inr msg) in
  match readFile s videoFile with
  | None =>
      rethrow (say s (Error (String.append "✗ Input file missing: " videoFile)))
        (String.append "Input file not found: " videoFile)
  | Some _ =>
      if negb (hasAudio audioUrl) then
        let s := if hasSubtitle subtitle then say s SUBTITLE_IGNORED else s in
        match copy_video s videoFile outputFile with
        | Some s' =>
            match readFile s' outputFile with
            | Some _ => (s', inl tt)
            | None => rethrow s' "readFile failed"
            end
        | None => rethrow s "readFile failed"
        end
      else
        let url := default "" audioUrl in
        match load_audio s videoFile outputFile url with
        | inr (s', true) => (s', inl tt)
        | inl _ =>
            let s1 := say (say s (Error "✗ Failed to load audio:"))
                        (Warn "⚠️  Continuing without audio...") in
            match copy_video s1 videoFile outputFile with
            | Some s' => (s', inl tt)
            | None => rethrow s1 "readFile failed"
            end
        | inr (s1, false) =>
            let s2 := if hasSubtitle subtitle then say s1 SUBTITLE_IGNORED else s1 in
            match exec s2 (mux_argv videoFile outputFile) with
            | (s3, false) => rethrow s3 "exec failed"
            | (s3, true) =>
                match readFile s3 outputFile with
                | Some (_ :: _) =>
                    (* temp file removal; a failure there is only warned about *)
                    (deleteFile s3 "temp_audio.mp3", inl tt)
                | _ =>
                    rethrow
                      (say s3 (Error (String.append "✗ Output file not created or empty: "
                                        outputFile)))
                      (String.append "Output file not created: " outputFile)
                end
            end
        end
  end.

(** Whether the audio of a segment fails to load: an empty or missing
    base64 payload, a payload [atob] rejects, or a failed download. *)
Definition audio_unloadable (audioUrl : string) : bool :=
  if startsWith audioUrl "data:" then
    match split_comma audioUrl !! 1%nat with
    | Some base64Data =>
        negb (truthy base64Data) ||
        match atob base64Data with
        | Some _ => false
        | None => true
        end
    | None => true
    end
  else
    match fetchFile audioUrl with
    | Some _ => false
    | None => true
    end.

(** *** The preview merger ([mergeVideoAudio]) *)

Definition newline : string := String (ascii_of_nat 10) EmptyString.

(** The one-cue SRT file. *)
Definition srtContent (subtitle : string) : string :=
  String.append "1"
    (String.append newline
       (String.append "00:00:00,000 --> 00:00:05,000"
          (String.append newline (String.append subtitle newline)))).

Definition FORCE_STYLE : string :=
  "subtitles=subtitle.srt:force_style='FontSize=24,PrimaryColour=&HFFFFFF,OutlineColour=&H000000,BorderStyle=3,Outline=2,Shadow=1,MarginV=30,Alignment=2'".

Definition burn_mux_argv : list string :=
  [ "-i"; "input.mp4"; "-i"; "audio.mp3"; "-vf"; FORCE_STYLE;
    "-c:v"; "libx264"; "-preset"; "fast"; "-crf"; "23";
    "-c:a"; "aac"; "-b:a"; "128k"; "-shortest"; "output.mp4" ].

Definition burn_only_argv : list string :=
  [ "-i"; "input.mp4"; "-vf"; FORCE_STYLE;
    "-c:v"; "libx264"; "-preset"; "fast"; "-crf"; "23"; "-an"; "output.mp4" ].

Definition merge_mux_argv : list string :=
  [ "-i"; "input.mp4"; "-i"; "audio.mp3"; "-c:v"; "copy";
    "-c:a"; "aac"; "-b:a"; "128k"; "-shortest"; "output.mp4" ].

Definition merge_copy_argv : list string :=
  [ "-i"; "input.mp4"; "-c"; "copy"; "output.mp4" ].

Definition utf8 (s : string) : list Z :=
  (fun c => Z.of_nat (nat_of_ascii c)) <$> list_ascii_of_string s.

(** The audio download of [mergeVideoAudio]; [None] is a throw. *)
Definition merge_audio_data (audioUrl : string) : option (list Z) :=
  if startsWith audioUrl "data:" then
    match split_comma audioUrl !! 1%nat with
    | Some base64Data => atob base64Data
    | None => atob "undefined" (* [atob(undefined)] decodes that word *)
    end
  else fetchFile audioUrl.

(** [mergeVideoAudio] on a fresh session; the value is the bytes behind
    the object URL it returns. *)
Definition mergeVideoAudio (videoUrl audioUrl : string) (subtitle : option string)
  : Outcome (list Z) :=
  let s0 := {| files := ∅; execs := []; console := [] |} in
  let fail (s : Session) (msg : string) : Outcome (list Z) :=
    (say s (Error "Video/audio merge failed:"), inr msg) in
  match fetchFile videoUrl with
  | None => fail s0 "fetchFile failed"
  | Some videoData =>
      let s1 := writeFile s0 "input.mp4" videoData in
      let withAudio := truthy audioUrl && (0 <? String.length audioUrl)%nat in
      let loaded : option Session :=
        if withAudio then
          match merge_audio_data audioUrl with
          | Some audioData => Some (writeFile s1 "audio.mp3" audioData)
          | None => None
          end
        else Some s1 in
      match loaded with
      | None => fail s1 "audio load failed"
      | Some s2 =>
          let s3 := if truthy_opt subtitle
                    then writeFile s2 "subtitle.srt" (utf8 (srtContent (default "" subtitle)))
                    else s2 in
          let argv := if truthy_opt subtitle
                      then (if withAudio then burn_mux_argv else burn_only_argv)
                      else (if withAudio then merge_mux_argv else merge_copy_argv) in
          match exec s3 argv with
          | (s4, false) => fail s4 "exec failed"
          | (s4, true) =>
              match readFile s4 "output.mp4" with
              | Some output => (s4, inl output)
              | None => fail s4 "readFile failed"
              end
          end
      end
  end.

(** *** The multi-segment preview merger ([mergeMultipleVideos]) *)

(** One element of its [videos] argument. *)
Record PreviewVideo := {
  pv_videoUrl : string;
  pv_audioUrl : option string;
  pv_subtitle : option string
}.

(** [`video_${i}.mp4`] and the three other per-segment names. *)
Definition videoFileName (i : nat) : string :=
  String.append "video_" (String.append (pretty i) ".mp4").
Definition mergedFileName (i : nat) : string :=
  String.append "merged_" (String.append (pretty i) ".mp4").
Definition audioFileName (i : nat) : string :=
  String.append "audio_" (String.append (pretty i) ".mp3").
Definition srtFileName (i : nat) : string :=
  String.append "subtitle_" (String.append (pretty i) ".srt").

(** [`subtitles=${srtFileName}:force_style='...'`] *)
Definition subtitles_filter (srt : string) : string :=
  String.append "subtitles="
    (String.append srt
       ":force_style='FontSize=24,PrimaryColour=&HFFFFFF,OutlineColour=&H000000,BorderStyle=3,Outline=2,Shadow=1,MarginV=30,Alignment=2'").

Definition segment_burn_mux_argv (i : nat) : list string :=
  [ "-i"; videoFileName i; "-i"; audioFileName i; "-vf"; subtitles_filter (srtFileName i);
    "-c:v"; "libx264"; "-preset"; "fast"; "-crf"; "23";
    "-c:a"; "aac"; "-b:a"; "128k"; "-shortest"; mergedFileName i ].

Definition segment_mux_argv (i : nat) : list string :=
  [ "-i"; videoFileName i; "-i"; audioFileName i; "-c:v"; "copy";
    "-c:a"; "aac"; "-b:a"; "128k"; "-shortest"; mergedFileName i ].

Definition segment_burn_only_argv (i : nat) : list string :=
  [ "-i"; videoFileName i; "-vf"; subtitles_filter (srtFileName i);
    "-c:v"; "libx264"; "-preset"; "fast"; "-crf"; "23"; "-an"; mergedFileName i ].

Definition preview_concat_argv : list string :=
  [ "-f"; "concat"; "-safe"; "0"; "-i"; "concat.txt"; "-c"; "copy"; "final.mp4" ].

(** [await ffmpeg.exec(argv); processedFiles.push(mergedFileName)] *)
Definition exec_segment (s : Session) (argv : list string) (i : nat) : Outcome string :=
  match exec s argv with
  | (s', true) => (s', inl (mergedFileName i))
  | (s', false) => (s', inr "exec failed")
  end.

(** The body of the [for] loop for segment [i]: the session afterwards
    and the file name pushed onto [processedFiles], or a throw. *)
Definition merge_segment (s : Session) (i : nat) (video : PreviewVideo) : Outcome string :=
  match fetchFile (pv_videoUrl video) with
  | None => (s, inr "fetchFile failed")
  | Some videoData =>
      let s1 := writeFile s (videoFileName i) videoData in
      if truthy_opt (pv_audioUrl video) then
        match merge_audio_data (default "" (pv_audioUrl video)) with
        | None => (s1, inr "audio load failed")
        | Some audioData =>
            let s2 := writeFile s1 (audioFileName i) audioData in
            if truthy_opt (pv_subtitle video) then
              exec_segment
                (writeFile s2 (srtFileName i)
                   (utf8 (srtContent (default "" (pv_subtitle video)))))
                (segment_burn_mux_argv i) i
            else exec_segment s2 (segment_mux_argv i) i
        end
      else if truthy_opt (pv_subtitle video) then
        exec_segment
          (writeFile s1 (srtFileName i) (utf8 (srtContent (default "" (pv_subtitle video)))))
          (segment_burn_only_argv i) i
      else (s1, inl (videoFileName i))
  end.

(** [for (let i = ...; i < videos.length; i++)], from index [i] on. *)
Fixpoint merge_segments (s : Session) (i : nat) (videos : list PreviewVideo)
  : Outcome (list string) :=
  match videos with
  | [] => (s, inl [])
  | video :: rest =>
      match merge_segment s i video with
      | (s1, inl f) =>
          match merge_segments s1 (S i) rest with
          | (s2, inl fs) => (s2, inl (f :: fs))
          | (s2, inr msg) => (s2, inr msg)
          end
      | (s1, inr msg) => (s1, inr msg)
      end
  end.

(** [processedFiles.map(f => `file '${f}'`).join('\n')] *)
Definition concatContent (processedFiles : list string) : string :=
  String.concat newline
    ((fun f => String.append "file '" (String.append f "'")) <$> processedFiles).

(** [mergeMultipleVideos] on a fresh session; the value is the bytes
    behind the object URL it returns. *)
Definition mergeMultipleVideos (videos : list PreviewVideo) : Outcome (list Z) :=
  let s0 := {| files := ∅; execs := []; console := [] |} in
  let fail (s : Session) (msg : string) : Outcome (list Z) :=
    (say s (Error "Multiple video merge failed:"), inr msg) in
  match merge_segments s0 0 videos with
  | (s1, inr msg) => fail s1 msg
  | (s1, inl processedFiles) =>
      let s2 := writeFile s1 "concat.txt" (utf8 (concatContent processedFiles)) in
      match exec s2 preview_concat_argv with
      | (s3, false) => fail s3 "exec failed"
      | (s3, true) =>
          match readFile s3 "final.mp4" with
          | Some output => (s3, inl output)
          | None => fail s3 "readFile failed"
          end
      end
  end.

End Ffmpeg.

End VideoComposer.


(** ** Concrete inputs used as examples *)

Module Samples.
Import Js StoryStore.

(** A provider on which every call fails with the same message. *)
Definition always_fails (msg : string)
  : list GenerateVideo.Call -> GenerateVideo.Call -> GenerateVideo.RunResult unit :=
  fun _ _ => GenerateVideo.RunThrows (Some msg).

Definition sample_url : string := "https://replicate.delivery/pbxt/shot-1.png".

Definition custom_request : GenerateVideo.Request :=
  {| GenerateVideo.imageUrl := Some sample_url;
     GenerateVideo.modelConfig :=
       Some {| GenerateVideo.modelId := Some "minimax/video-01" |} |}.

Definition default_request : GenerateVideo.Request :=
  {| GenerateVideo.imageUrl := Some sample_url; GenerateVideo.modelConfig := None |}.

(** A shot that has a caption and nothing generated yet. *)
Definition fresh_shot (shotId : string) : Shot :=
  {| id := shotId; subtitle := "A quiet street at dawn."; location := "Street";
     content := "Wide shot"; imageUrl := None; isGenerating := None;
     isAnimating := None; animationUrl := None; audioUrl := None;
     isGeneratingAudio := None |}.

(** A shot left flagged by an interrupted run. *)
Definition stuck_shot (shotId : string) : Shot :=
  {| id := shotId; subtitle := "Rain begins."; location := "Street";
     content := "Close-up"; imageUrl := None; isGenerating := Some true;
     isAnimating := Some true; animationUrl := None; audioUrl := None;
     isGeneratingAudio := Some true |}.

Definition seven_shots : list Shot :=
  fresh_shot <$> ["shot-1"; "shot-2"; "shot-3"; "shot-4"; "shot-5"; "shot-6"; "shot-7"].

Definition seven_shot_story : StoryData :=
  {| story_title := "Dawn"; synopsis := ""; characters := [];
     scenes := [ {| scene_id := "scene-1"; title := "Opening"; description := "";
                    shots := seven_shots |} ];
     style := Some "3D Cartoon"; aspectRatio := Some "16:9" |}.

Definition seven_jobs : list Scheduler.Job :=
  (fun shot => ("scene-1", shot)) <$> seven_shots.

Definition interrupted_story : StoryData :=
  {| story_title := "Rain"; synopsis := "";
     characters := [ {| name := "Mira"; char_description := "A courier";
                        prompt := Some "young courier, yellow raincoat";
                        referenceImageUrl := None; char_isGenerating := Some true |} ];
     scenes := [ {| scene_id := "scene-1"; title := "Opening"; description := "";
                    shots := [fresh_shot "shot-1"; stuck_shot "shot-2"] |};
                 {| scene_id := "scene-2"; title := "Chase"; description := "";
                    shots := [stuck_shot "shot-3"] |} ];
     style := Some "3D Cartoon"; aspectRatio := Some "16:9" |}.

(** Two shots of one scene under the same id, the second left flagged. *)
Definition twin_story : StoryData :=
  {| story_title := "Rain"; synopsis := ""; characters := [];
     scenes := [ {| scene_id := "scene-1"; title := "Opening"; description := "";
                    shots := [fresh_shot "shot-1"; stuck_shot "shot-1"] |} ];
     style := Some "3D Cartoon"; aspectRatio := Some "16:9" |}.

Definition three_ids : gset string := list_to_set ["shot-1"; "shot-2"; "shot-3"].

(** A request that fails, and one that succeeds. *)
Definition failed_fetch : Scheduler.Fetched Scheduler.ImageData :=
  Scheduler.FetchThrows.
Definition image_fetched (url : string) : Scheduler.Fetched Scheduler.ImageData :=
  Scheduler.Responded true
    {| Scheduler.image_error := None; Scheduler.data_imageUrl := Some url |}.

(** The completions of a wave whose requests return in submission order. *)
Definition settled (batch : list Scheduler.Job) : list (Scheduler.event Scheduler.Job unit) :=
  (fun j => Scheduler.Finished j tt) <$> batch.

(** The run of a schedule in which every request of a wave returns in
    submission order. *)
Fixpoint in_order_trace (sched : list (Scheduler.step Scheduler.Job))
  : list (Scheduler.event Scheduler.Job unit) :=
  match sched with
  | [] => []
  | Scheduler.Wave batch :: rest =>
      (Scheduler.Started <$> batch) ++ settled batch ++ in_order_trace rest
  | Scheduler.Sleep ms :: rest => Scheduler.Slept ms :: in_order_trace rest
  end.

Definition seven_ids : gset string :=
  list_to_set ["shot-1"; "shot-2"; "shot-3"; "shot-4"; "shot-5"; "shot-6"; "shot-7"].

Definition twelve_shots : list Shot :=
  fresh_shot <$> ["shot-1"; "shot-2"; "shot-3"; "shot-4"; "shot-5"; "shot-6";
                  "shot-7"; "shot-8"; "shot-9"; "shot-10"; "shot-11"; "shot-12"].

Definition twelve_shot_story : StoryData :=
  {| story_title := "Dawn"; synopsis := ""; characters := [];
     scenes := [ {| scene_id := "scene-1"; title := "Opening"; description := "";
                    shots := twelve_shots |} ];
     style := Some "3D Cartoon"; aspectRatio := Some "16:9" |}.

Definition twelve_jobs : list Scheduler.Job :=
  (fun shot => ("scene-1", shot)) <$> twelve_shots.

(** A shot with its image, and the story of one scene holding it. *)
Definition painted_shot (shotId : string) : Shot :=
  {| id := shotId; subtitle := "A quiet street at dawn."; location := "Street";
     content := "Wide shot"; imageUrl := Some "https://replicate.delivery/pbxt/shot.png";
     isGenerating := Some false; isAnimating := None; animationUrl := None;
     audioUrl := None; isGeneratingAudio := None |}.

Definition painted_story : StoryData :=
  {| story_title := "Dawn"; synopsis := ""; characters := [];
     scenes := [ {| scene_id := "scene-1"; title := "Opening"; description := "";
                    shots := [painted_shot "shot-1"] |} ];
     style := Some "3D Cartoon"; aspectRatio := Some "16:9" |}.

(** Answers that carry an error message. *)
Definition image_refused : Scheduler.Fetched Scheduler.ImageData :=
  Scheduler.Responded true
    {| Scheduler.image_error := Some "Failed to generate image";
       Scheduler.data_imageUrl := None |}.
Definition video_refused : Scheduler.Fetched Scheduler.VideoData :=
  Scheduler.Responded false
    {| Scheduler.video_error := Some "Failed to generate video";
       Scheduler.data_videoUrl := None |}.
Definition audio_refused : Scheduler.Fetched Scheduler.AudioData :=
  Scheduler.Responded false
    {| Scheduler.audio_error := Some "Failed to generate audio";
       Scheduler.data_audioUrl := None |}.

(** The store after the image batch started on [interrupted_story] has
    run its only job, the request answered with a URL. *)
Definition interrupted_after_batch : StoryData :=
  (Scheduler.settle_all Scheduler.generateImage_finish
     (fold_left Scheduler.generateImage_start [("scene-1", fresh_shot "shot-1")]
        interrupted_story)
     0 [(("scene-1", fresh_shot "shot-1"), image_fetched "https://cdn.example/shot-1.png")]
  ).1.1.1.

(** Two image jobs whose requests return in reverse order, the first
    one failing. *)
Definition two_jobs : list Scheduler.Job := take 2 seven_jobs.

Definition two_done : list (Scheduler.Job * Scheduler.Fetched Scheduler.ImageData) :=
  [ (("scene-1", fresh_shot "shot-2"), image_fetched "https://cdn.example/shot-2.png");
    (("scene-1", fresh_shot "shot-1"), failed_fetch) ].

Definition two_settled :=
  Scheduler.settle_all Scheduler.generateImage_finish
    (fold_left Scheduler.generateImage_start two_jobs seven_shot_story) 0 two_done.

Definition two_trace : list (Scheduler.event Scheduler.Job (Scheduler.Fetched Scheduler.ImageData)) :=
  (Scheduler.Started <$> two_jobs) ++ two_settled.1.2 ++ [].

(** Four frames at 44.1 kHz (about 0.09 ms), one channel. *)
Definition short_clip : AudioExtender.AudioBuffer :=
  {| AudioExtender.sampleRate := 44100; AudioExtender.buf_length := 4;
     AudioExtender.channelData := [[(1#2)%Q; (-1#4)%Q; 1%Q; (3#4)%Q]] |}.

(** Silence at 8 kHz, one channel: [n] frames. *)
Definition telephone_silence (n : nat) : AudioExtender.AudioBuffer :=
  {| AudioExtender.sampleRate := 8000; AudioExtender.buf_length := n;
     AudioExtender.channelData := [replicate n 0%Q] |}.

(** 70 ms of it, and half a millisecond. *)
Definition telephone_clip : AudioExtender.AudioBuffer := telephone_silence 560.
Definition telephone_blip : AudioExtender.AudioBuffer := telephone_silence 4.

(** One full-scale sample. *)
Definition one_sample : AudioExtender.AudioBuffer :=
  {| AudioExtender.sampleRate := 44100; AudioExtender.buf_length := 1;
     AudioExtender.channelData := [[1%Q]] |}.

(** A session holding one input clip. *)
Definition clip_bytes : list Z := [0; 0; 0; 24; 102; 116; 121; 112]%Z.
Definition one_clip : VideoComposer.Session :=
  {| VideoComposer.files := {["input0.mp4" := clip_bytes]};
     VideoComposer.execs := []; VideoComposer.console := [] |}.

(** An encoder that writes three bytes to its last argument. *)
Definition stub_exec (argv : list string) (fs : gmap string (list Z))
  : option (gmap string (list Z)) :=
  match last argv with
  | Some out => Some (<[out := [1; 2; 3]%Z]> fs)
  | None => None
  end.

Definition atob_ok (_ : string) : option (list Z) := Some [73; 68; 51]%Z.
Definition atob_rejects (_ : string) : option (list Z) := None.
Definition fetch_ok (_ : string) : option (list Z) := Some clip_bytes.

(** Two preview segments: speech with a caption, then speech alone. *)
Definition two_previews : list VideoComposer.PreviewVideo :=
  [ {| VideoComposer.pv_videoUrl := "https://cdn.example/shot-1.mp4";
       VideoComposer.pv_audioUrl := Some "data:audio/wav;base64,SUQz";
       VideoComposer.pv_subtitle := Some "Rain begins." |};
    {| VideoComposer.pv_videoUrl := "https://cdn.example/shot-2.mp4";
       VideoComposer.pv_audioUrl := Some "data:audio/wav;base64,SUQz";
       VideoComposer.pv_subtitle := None |} ].

End Samples.

(** * Further operations of the sources *)

(** ** The remaining operations of the story store *)

Module StoryStoreOps.
Import Js StoryStore.

(** [this.story.characters.push(character)] *)
Definition addCharacter (st : StoryData) (character : Character) : StoryData :=
  with_characters (fun l => l ++ [character]) st.

(** [this.story.characters.splice(index, 1)]: an index past the end
    removes nothing. *)
Definition removeCharacter (st : StoryData) (index : nat) : StoryData :=
  with_characters (delete index) st.

(** [this.story.scenes.push(scene)] *)
Definition addScene (st : StoryData) (scene : Scene) : StoryData :=
  with_scenes (fun l => l ++ [scene]) st.

(** [refs[key] = value] on an object created as [{}].  Every key but
    ["__proto__"] becomes (or overwrites) an own property; ["__proto__"]
    reaches the accessor inherited from [Object.prototype], which replaces
    the prototype and adds no property.  The map holds the own properties,
    the ones [Object.keys] and [JSON.stringify] see. *)
Definition assign_key {A} (key : string) (value : A) (refs : gmap string A)
  : gmap string A :=
  if String.eqb key "__proto__" then refs else <[key := value]> refs.

(** [getCharacterReferences]: an object keyed by character name, filled
    in array order, so a later character of the same name overwrites an
    earlier one. *)
Definition getCharacterReferences (st : StoryData) : gmap string Character :=
  fold_left
    (fun refs char =>
       if truthy_opt (referenceImageUrl char) then assign_key (name char) char refs
       else refs)
    (characters st) ∅.

(** [Object.keys(characterReferences).length > 0] in [generateImage]. *)
Definition hasCharacterRefs (st : StoryData) : bool :=
  bool_decide (getCharacterReferences st <> ∅).

End StoryStoreOps.

(** ** Project statistics and export ([projectIO.ts]), export list
       ([EditView.handleExport]) *)

Module ProjectIO.
Import Js StoryStore.

(** [const { audioUrl, ...shotWithoutAudio } = shot] *)
Definition shotWithoutAudio (shot : Shot) : Shot :=
  {| id := id shot; subtitle := subtitle shot; location := location shot;
     content := content shot; imageUrl := imageUrl shot;
     isGenerating := isGenerating shot; isAnimating := isAnimating shot;
     animationUrl := animationUrl shot; audioUrl := None;
     isGeneratingAudio := isGeneratingAudio shot |}.

(** The story written by [exportProject]. *)
Definition storyWithoutAudio (story : StoryData) : StoryData :=
  with_scenes (fmap (with_shots (fmap shotWithoutAudio))) story.

Record ProjectStats := {
  totalScenes : nat;
  totalShots : nat;
  shotsWithImages : nat;
  shotsWithVideos : nat;
  shotsWithAudio : nat;
  characterCount : nat;
  charactersWithImages : nat
}.

(** [story.scenes.reduce((sum, scene) => sum + f(scene), 0)] *)
Definition sum_scenes (f : Scene -> nat) (story : StoryData) : nat :=
  fold_left (fun sum scene => sum + f scene) (scenes story) 0.

(** [scene.shots.filter(shot => shot.field).length] *)
Definition count_shots (field : Shot -> option string) (scene : Scene) : nat :=
  length (List.filter (fun shot => truthy_opt (field shot)) (shots scene)).

Definition getProjectStats (story : StoryData) : ProjectStats :=
  {| totalScenes := length (scenes story);
     totalShots := sum_scenes (fun scene => length (shots scene)) story;
     shotsWithImages := sum_scenes (count_shots imageUrl) story;
     shotsWithVideos := sum_scenes (count_shots animationUrl) story;
     shotsWithAudio := sum_scenes (count_shots audioUrl) story;
     characterCount := length (characters story);
     charactersWithImages :=
       length (List.filter (fun char => truthy_opt (referenceImageUrl char))
                 (characters story)) |}.

(** One entry of the list [handleExport] hands to [composeVideos]. *)
Record VideoSegment := {
  url : string;
  seg_subtitle : option string;
  seg_audioUrl : option string
}.

(** [getAllShots().filter(shot => shot.animationUrl).map(shot => ({ url:
    shot.animationUrl!, subtitle: includeSubtitles ? shot.subtitle :
    undefined, audioUrl: shot.audioUrl }))] *)
Definition export_segments (includeSubtitles : bool) (story : StoryData)
  : list VideoSegment :=
  (fun shot =>
     {| url := default "" (animationUrl shot);
        seg_subtitle := if includeSubtitles then Some (subtitle shot) else None;
        seg_audioUrl := audioUrl shot |})
    <$> List.filter (fun shot => truthy_opt (animationUrl shot)) (getAllShots story).

End ProjectIO.

(** ** What a batch leaves behind *)

Module BatchFlags.
Import StoryStore Scheduler.

(** The ids under which a job reaches its shot in the store. *)
Definition key (job : Job) : string * string := (job.1, id job.2).

(** The shot found under [k], if any, is not flagged as in progress. *)
Definition cleared (flag_of : Shot -> option bool) (st : StoryData) (k : string * string)
  : Prop :=
  forall shot, find_shot st k.1 k.2 = Some shot -> flag_of shot = Some false.

End BatchFlags.

(** ** Reading a WAV sample back *)

Module WavReading.
Import AudioExtender.

(** [DataView.getInt16(offset, true)]: the two bytes as a signed number. *)
Definition read_int16 (bytes : list Z) : Z :=
  let v := read_le bytes in
  if (v <? 32768)%Z then v else (v - 65536)%Z.

End WavReading.

(** ** Composing the export ([composeVideos]) *)

Module ComposeVideos.
Import Js VideoComposer ProjectIO.

(** [`input${i}.mp4`] and [`processed${i}.mp4`] *)
Definition inputFile (i : nat) : string :=
  String.append "input" (String.append (pretty i) ".mp4").

Definition processedFile (i : nat) : string :=
  String.append "processed" (String.append (pretty i) ".mp4").

(** [await ffmpeg.deleteFile(name)] outside a [try]: removing a file that
    does not exist rejects. *)
Definition unlink (s : Session) (name : string) : option Session :=
  match readFile s name with
  | Some _ => Some (deleteFile s name)
  | None => None
  end.

(** [for (const file of processedFiles) await ffmpeg.deleteFile(file)] *)
Fixpoint unlink_all (s : Session) (names : list string) : option Session :=
  match names with
  | [] => Some s
  | file :: rest =>
      match unlink s file with
      | Some s' => unlink_all s' rest
      | None => None
      end
  end.

(** [processedFiles.map(file => `file '${file}'`).join('\n')] *)
Definition concat_line (file : string) : string :=
  String.append "file '" (String.append file "'").

Fixpoint join (sep : string) (parts : list string) : string :=
  match parts with
  | [] => ""
  | [p] => p
  | p :: rest => String.append p (String.append sep (join sep rest))
  end.

Definition concatList (processedFiles : list string) : string :=
  join newline (concat_line <$> processedFiles).

Definition concat_argv : list string :=
  [ "-f"; "concat"; "-safe"; "0"; "-i"; "concat.txt"; "-c"; "copy"; "-y"; "output.mp4" ].

Definition COMPOSITION_ERROR : Console :=
  Error (String.append newline "✗✗✗ FFmpeg composition error:").

(** The commands [processVideo] can add for the segments from index [i]
    on: one mux for each segment that carries speech. *)
Fixpoint mux_commands (i : nat) (videos : list VideoSegment) : list (list string) :=
  match videos with
  | [] => []
  | video :: rest =>
      (if hasAudio (seg_audioUrl video)
       then [mux_argv (inputFile i) (processedFile i)] else [])
      ++ mux_commands (S i) rest
  end.

Section Compose.
Variable ffmpeg_exec : list string -> gmap string (list Z) -> option (gmap string (list Z)).
Variable atob : string -> option (list Z).
Variable fetchFile : string -> option (list Z).

(** The first loop, from segment [i] on; [inr] is the message of the
    error that leaves the loop. *)
Fixpoint process_from (s : Session) (i : nat) (videos : list VideoSegment)
    (processedFiles : list string) : Session * (list string + string) :=
  match videos with
  | [] => (s, inl processedFiles)
  | video :: rest =>
      match fetchFile (url video) with
      | None => (s, inr "fetchFile failed")
      | Some videoData =>
          let s1 := writeFile s (inputFile i) videoData in
          match processVideo ffmpeg_exec atob fetchFile s1 (inputFile i)
                  (seg_audioUrl video) (seg_subtitle video) (processedFile i) with
          | (s2, inr msg) => (s2, inr msg)
          | (s2, inl _) =>
              match unlink s2 (inputFile i) with
              | None => (s2, inr "deleteFile failed")
              | Some s3 =>
                  process_from s3 (S i) rest (processedFiles ++ [processedFile i])
              end
          end
      end
  end.

(** The loop that checks every processed file. *)
Fixpoint verify (s : Session) (processedFiles : list string) : Session * (unit + string) :=
  match processedFiles with
  | [] => (s, inl tt)
  | file :: rest =>
      match readFile s file with
      | Some _ => verify s rest
      | None =>
          (say s (Error (String.append "  ✗ " (String.append file " NOT FOUND!"))),
           inr (String.append "Processed file missing: " file))
      end
  end.

(** [composeVideos] on the loaded session; the value is the content of
    the blob it returns.  The outer [catch] logs and rethrows. *)
Definition composeVideos (s : Session) (videos : list VideoSegment) : Outcome (list Z) :=
  let rethrow (s : Session) (msg : string) : Outcome (list Z) :=
    (say s COMPOSITION_ERROR, inr msg) in
  match process_from s 0 videos [] with
  | (s1, inr msg) => rethrow s1 msg
  | (s1, inl processedFiles) =>
      match verify s1 processedFiles with
      | (s2, inr msg) => rethrow s2 msg
      | (s2, inl _) =>
          if (length processedFiles =? 1)%nat then
            match processedFiles with
            | file :: _ =>
                match readFile s2 file with
                | Some data =>
                    match unlink s2 file with
                    | Some s3 => (s3, inl data)
                    | None => rethrow s2 "deleteFile failed"
                    end
                | None => rethrow s2 "readFile failed"
                end
            | [] => rethrow s2 "readFile failed"
            end
          else
            let s3 := writeFile s2 "concat.txt" (utf8 (concatList processedFiles)) in
            match exec ffmpeg_exec s3 concat_argv with
            | (s4, false) => rethrow s4 "exec failed"
            | (s4, true) =>
                match readFile s4 "output.mp4" with
                | None => rethrow s4 "readFile failed"
                | Some data =>
                    match unlink_all s4 processedFiles with
                    | None => rethrow s4 "deleteFile failed"
                    | Some s5 =>
                        match unlink s5 "concat.txt" with
                        | None => rethrow s5 "deleteFile failed"
                        | Some s6 =>
                            match unlink s6 "output.mp4" with
                            | None => rethrow s6 "deleteFile failed"
                            | Some s7 => (s7, inl data)
                            end
                        end
                    end
                end
            end
      end
  end.

(** A segment whose video downloads and which carries no usable speech. *)
Definition silent_clip (video : VideoSegment) (videoData : list Z) : Prop :=
  fetchFile (url video) = Some videoData /\ hasAudio (seg_audioUrl video) = false.

(** [handleExport] up to the call of [composeVideos]: [None] when it
    stops at the alert for a story without animated shots. *)
Definition handleExport (s : Session) (includeSubtitles : bool) (story : StoryStore.StoryData)
  : option (Outcome (list Z)) :=
  let animatedShots :=
    List.filter (fun shot => truthy_opt (StoryStore.animationUrl shot))
      (StoryStore.getAllShots story) in
  if (length animatedShots =? 0)%nat then None
  else Some (composeVideos s (export_segments includeSubtitles story)).

End Compose.

End ComposeVideos.

(** ** Identifiers for imported stories ([idGenerator.ts]) *)

Module IdGenerator.
Import Js StoryStore.

(** A missing id and an empty one are both falsy; the records hold the
    empty string for either. *)
Definition with_id (shot : Shot) (i : string) : Shot :=
  {| id := i; subtitle := subtitle shot; location := location shot;
     content := content shot; imageUrl := imageUrl shot;
     isGenerating := isGenerating shot; isAnimating := isAnimating shot;
     animationUrl := animationUrl shot; audioUrl := audioUrl shot;
     isGeneratingAudio := isGeneratingAudio shot |}.

(** The scenes and shots that come without an id. *)
Definition missing_ids (story : StoryData) : nat :=
  length (List.filter (fun scene => negb (truthy (scene_id scene))) (scenes story))
  + length (List.filter (fun shot => negb (truthy (id shot))) (getAllShots story)).

(** How a shot and a scene come out: with an id, and otherwise as they
    were. *)
Definition shot_kept (shot shot' : Shot) : Prop :=
  truthy (id shot') = true /\
  shot' = if truthy (id shot) then shot else with_id shot (id shot').

Definition scene_kept (scene scene' : Scene) : Prop :=
  truthy (scene_id scene') = true /\
  (truthy (scene_id scene) = true -> scene_id scene' = scene_id scene) /\
  title scene' = title scene /\
  description scene' = description scene /\
  Forall2 shot_kept (shots scene) (shots scene').

(** A scene that has an id, as have all its shots. *)
Definition no_missing (scene : Scene) : Prop :=
  truthy (scene_id scene) = true /\
  Forall (fun shot => truthy (id shot) = true) (shots scene).

Section Ids.
(** What the [n]-th call of [generateUniqueId] reads: [Date.now()] and
    [Math.random().toString(36).substring(2, 8)], as text. *)
Variable timestamp : nat -> string.
Variable random : nat -> string.

(** [`${prefix}-${timestamp}-${random}`] *)
Definition generateUniqueId (prefix : string) (n : nat) : string :=
  String.append prefix
    (String.append "-" (String.append (timestamp n) (String.append "-" (random n)))).

Definition generateSceneId : nat -> string := generateUniqueId "scene".
Definition generateShotId : nat -> string := generateUniqueId "shot".

(** [{ ...shot, id: shot.id || generateShotId() }]; [n] counts the ids
    generated so far. *)
Definition shot_with_id (n : nat) (shot : Shot) : Shot * nat :=
  if truthy (id shot) then (shot, n) else (with_id shot (generateShotId n), S n).

Fixpoint shots_with_ids (n : nat) (l : list Shot) : list Shot * nat :=
  match l with
  | [] => ([], n)
  | shot :: rest =>
      let (shot', n1) := shot_with_id n shot in
      let (rest', n2) := shots_with_ids n1 rest in
      (shot' :: rest', n2)
  end.

(** [{ ...scene, id: scene.id || generateSceneId(), shots: ... }]: the
    scene's id is settled before those of its shots. *)
Definition scene_with_ids (n : nat) (scene : Scene) : Scene * nat :=
  let (sceneId, n1) :=
    if truthy (scene_id scene) then (scene_id scene, n) else (generateSceneId n, S n) in
  let (shots', n2) := shots_with_ids n1 (shots scene) in
  ({| scene_id := sceneId; title := title scene; description := description scene;
      shots := shots' |}, n2).

Fixpoint scenes_with_ids (n : nat) (l : list Scene) : list Scene * nat :=
  match l with
  | [] => ([], n)
  | scene :: rest =>
      let (scene', n1) := scene_with_ids n scene in
      let (rest', n2) := scenes_with_ids n1 rest in
      (scene' :: rest', n2)
  end.

Definition addIdsToStory (n : nat) (story : StoryData) : StoryData * nat :=
  let (scenes', n') := scenes_with_ids n (scenes story) in
  (with_scenes (fun _ => scenes') story, n').

End Ids.

End IdGenerator.

(** ** The model cache ([modelCache.ts]) *)

Module ModelCache.
Import Js.

(** Times are milliseconds as [Date.now()] gives them: integers, far
    inside the range in which the sums below are exact. *)
Record CacheEntry (T : Type) := {
  data : T;
  timestamp : Z;
  expiresAt : Z
}.
Arguments data {T}.
Arguments timestamp {T}.
Arguments expiresAt {T}.

(** A [Map<string, CacheEntry>]: the entries in insertion order, each
    key at most once. *)
Definition Cache (T : Type) : Type := list (string * CacheEntry T).

Definition defaultTTL : Z := 1000 * 60 * 60.

(** [Map.get] *)
Fixpoint map_get {V} (key : string) (m : list (string * V)) : option V :=
  match m with
  | [] => None
  | (k, v) :: rest => if String.eqb k key then Some v else map_get key rest
  end.

(** [Map.set]: a known key keeps its place, a new one goes last. *)
Fixpoint map_set {V} (key : string) (v : V) (m : list (string * V)) : list (string * V) :=
  match m with
  | [] => [(key, v)]
  | (k, v') :: rest =>
      if String.eqb k key then (k, v) :: rest else (k, v') :: map_set key v rest
  end.

(** [Map.delete] *)
Fixpoint map_delete {V} (key : string) (m : list (string * V)) : list (string * V) :=
  match m with
  | [] => []
  | (k, v) :: rest => if String.eqb k key then rest else (k, v) :: map_delete key rest
  end.

Section Cache.
Context {T : Type}.

(** [Date.now() > entry.expiresAt] *)
Definition expired (now : Z) (entry : CacheEntry T) : bool := (expiresAt entry <? now)%Z.

(** The keys of a [Map] are distinct. *)
Definition well_keyed (cache : Cache T) : Prop := NoDup (fst <$> cache).

(** [set(key, data, ttl = this.defaultTTL)] at time [now]. *)
Definition set (cache : Cache T) (now : Z) (key : string) (d : T) (ttl : option Z)
  : Cache T :=
  map_set key {| data := d; timestamp := now; expiresAt := now + default defaultTTL ttl |}
    cache.

(** [get(key)] at time [now]: the value, or [None] for [null], and the
    cache afterwards. *)
Definition get (cache : Cache T) (now : Z) (key : string) : option T * Cache T :=
  match map_get key cache with
  | None => (None, cache)
  | Some entry =>
      if expired now entry then (None, map_delete key cache)
      else (Some (data entry), cache)
  end.

Definition has (cache : Cache T) (now : Z) (key : string) : bool * Cache T :=
  match map_get key cache with
  | None => (false, cache)
  | Some entry =>
      if expired now entry then (false, map_delete key cache)
      else (true, cache)
  end.

(** [clear(key?)]: an absent or empty key clears everything. *)
Definition clear (cache : Cache T) (key : option string) : Cache T :=
  if truthy_opt key then map_delete (default "" key) cache else [].

Definition getAge (cache : Cache T) (now : Z) (key : string) : option Z :=
  match map_get key cache with
  | None => None
  | Some entry => Some (now - timestamp entry)%Z
  end.

(** [cleanup()]: the loop over a snapshot of the entries. *)
Definition cleanup (cache : Cache T) (now : Z) : Cache T :=
  fold_left
    (fun c '(key, entry) => if expired now entry then map_delete key c else c)
    cache cache.

Record Stats := { size : nat; keys : list string }.

(** [getStats()]: the statistics and the cache afterwards. *)
Definition getStats (cache : Cache T) (now : Z) : Stats * Cache T :=
  let c := cleanup cache now in
  ({| size := length c; keys := fst <$> c |}, c).

End Cache.

End ModelCache.

(** ** The table of model settings, entry by entry *)

Module ModelTable.
Import Js GenerateVideo.

(** The table without the entries filed under [key]. *)
Definition without (key : string) (entries : list (string * ModelConfig))
  : list (string * ModelConfig) :=
  List.filter (fun entry => negb (String.eqb entry.1 key)) entries.

End ModelTable.

(** ** Choosing the shots to animate ([EditView]) *)

Module Selection.
Import Js StoryStore.

(** [shot.imageUrl && !shot.animationUrl] *)
Definition animatable (shot : Shot) : bool :=
  truthy_opt (imageUrl shot) && negb (truthy_opt (animationUrl shot)).

(** [toggleSelection]: the new set of selected shot ids. *)
Definition toggleSelection (selected : gset string) (shotId : string) : gset string :=
  if bool_decide (shotId ∈ selected) then selected ∖ {[shotId]}
  else selected ∪ {[shotId]}.

(** [selectAll] *)
Definition selectAll (st : StoryData) : gset string :=
  list_to_set (id <$> List.filter animatable (getAllShots st)).

End Selection.

(** ** Further concrete inputs *)

Module Examples.
Import StoryStore.

(** The update [setGeneratingShot] passes to mark a shot as in progress. *)
Definition mark_generating : ShotUpdate :=
  {| u_id := None; u_subtitle := None; u_location := None; u_content := None;
     u_imageUrl := None; u_isGenerating := Some (Some true); u_isAnimating := None;
     u_animationUrl := None; u_audioUrl := None; u_isGeneratingAudio := None |}.

(** Export segments: one with a caption only, one with speech too. *)
Definition silent_segment : ProjectIO.VideoSegment :=
  {| ProjectIO.url := "https://cdn.example/shot-1.mp4";
     ProjectIO.seg_subtitle := Some "Rain begins.";
     ProjectIO.seg_audioUrl := None |}.

Definition spoken_segment : ProjectIO.VideoSegment :=
  {| ProjectIO.url := "https://cdn.example/shot-2.mp4";
     ProjectIO.seg_subtitle := None;
     ProjectIO.seg_audioUrl := Some "data:audio/wav;base64,SUQz" |}.

(** A session that has run nothing and holds no file. *)
Definition fresh_session : VideoComposer.Session :=
  {| VideoComposer.files := ∅; VideoComposer.execs := []; VideoComposer.console := [] |}.

(** Two cache entries stored at time 0, living 10 ms and 100 ms. *)
Definition two_entries : ModelCache.Cache nat :=
  ModelCache.set (ModelCache.set [] 0 "image-models" 1 (Some 10%Z))
    0 "video-models" 2 (Some 100%Z).

(** A shot whose image has been generated. *)
Definition drawn_shot (shotId : string) : Shot :=
  {| id := shotId; subtitle := "A quiet street at dawn."; location := "Street";
     content := "Wide shot"; imageUrl := Some "https://replicate.delivery/pbxt/shot.png";
     isGenerating := Some false; isAnimating := None; animationUrl := None;
     audioUrl := None; isGeneratingAudio := None |}.

Definition drawn_story : StoryData :=
  {| story_title := "Dawn"; synopsis := ""; characters := [];
     scenes := [ {| scene_id := "scene-1"; title := "Opening"; description := "";
                    shots := [ drawn_shot "shot-1"; Samples.fresh_shot "shot-2";
                               drawn_shot "shot-3" ] |} ];
     style := Some "3D Cartoon"; aspectRatio := Some "16:9" |}.

End Examples.

(** * Properties *)

(** ** The fallback resolver of the video route *)

Module GenerateVideoProps.
Import Js GenerateVideo Samples.

Lemma includes_nonempty (s sub : string) :
  sub <> "" -> includes s sub = true -> truthy s = true.
Proof.
  intros Hsub H. destruct s as [|c s]; [|reflexivity].
  destruct sub; [congruence | discriminate H].
Qed.

Lemma is404_of_signal (m : string) :
  includes m "404" || includes m "Not Found" = true -> is404Error (Some m) = true.
Proof.
  intros H. unfold is404Error. rewrite H, andb_true_r.
  apply orb_true_iff in H as [H|H]; eapply includes_nonempty; eauto; discriminate.
Qed.

Lemma default_config :
  getModelConfig DEFAULT_MODEL =
  {| input_image := true; image := false; prompt_required := false;
     params := [ ("motion_bucket_id", VNum 127); ("cond_aug", VNum (2 # 100));
                 ("video_length", VStr "25_frames_with_svd_xt");
                 ("sizing_strategy", VStr "maintain_aspect_ratio");
                 ("frames_per_second", VNum 6) ] |}.
Proof. vm_compute. reflexivity. Qed.

Lemma fallback_input_image (url : string) :
  get_prop "input_image" (call_input (fallback_call url)) = Some (VStr url).
Proof. unfold fallback_call. cbn [call_input]. rewrite default_config. reflexivity. Qed.

Lemma outer_catch_not_404 {Url} (e : option string) :
  is404Error e = false ->
  @outer_catch Url e =
  json_error Url (match e with
                  | Some m => if truthy m then m else "Failed to generate video"
                  | None => "Failed to generate video"
                  end) 500.
Proof. intros H. unfold outer_catch. by rewrite H. Qed.

Section Facts.
Context {Output Url : Type}.
Variable replicate_run : list Call -> Call -> RunResult Output.
Variable proxyReplicateUrl : Output -> Url.

Local Abbreviation POST := (POST Output Url replicate_run proxyReplicateUrl).

(** C2.  When the first attempt fails with a message carrying "404" or
    "Not Found", whatever model the request configures, the route makes
    no further provider call and answers 400 with the message telling
    the caller to regenerate the image. *)
Theorem asset_expired_no_retry (req : Request) (url m : string) :
  imageUrl req = Some url ->
  truthy url = true ->
  replicate_run [] (first_call req url) = RunThrows (Some m) ->
  includes m "404" || includes m "Not Found" = true ->
  POST req = ({| body := BodyError EXPIRED_MESSAGE; status := 400 |},
              [first_call req url]).
Proof.
  intros Himg Hurl Hrun Hsig. unfold GenerateVideo.POST.
  rewrite Himg, Hurl. cbn [negb]. rewrite Hrun.
  by rewrite (is404_of_signal m Hsig).
Qed.

(** C1 (amended).  After a generic failure of the first attempt: a
    non-default model is followed by exactly one more call, to the
    default model, whose input carries the same image URL; a success of
    that call is answered with the fallback warning, a failure with a
    plain error body (the regenerate message at 400 for a 404-class
    failure, otherwise the fallback's own message at 500); a request
    already on the default model gets no second call. *)
Theorem generic_failure_falls_back_once (req : Request) (url : string)
    (e1 : option string) :
  imageUrl req = Some url ->
  truthy url = true ->
  replicate_run [] (first_call req url) = RunThrows e1 ->
  is404Error e1 = false ->
  (resolve_model req <> DEFAULT_MODEL ->
     (POST req).2 = [first_call req url; fallback_call url] /\
     call_model (fallback_call url) = DEFAULT_MODEL /\
     get_prop "input_image" (call_input (fallback_call url)) = Some (VStr url) /\
     (POST req).1 =
       match replicate_run [first_call req url] (fallback_call url) with
       | RunOk out =>
           {| body := BodyVideo (proxyReplicateUrl out) DEFAULT_MODEL
                        (Some (String.append "Original model failed, used fallback: "
                                 DEFAULT_MODEL));
              status := 200 |}
       | RunThrows e2 =>
           if is404Error e2
           then {| body := BodyError EXPIRED_MESSAGE; status := 400 |}
           else {| body := BodyError
                             (match e2 with
                              | Some m => if truthy m then m else "Failed to generate video"
                              | None => "Failed to generate video"
                              end);
                   status := 500 |}
       end) /\
  (resolve_model req = DEFAULT_MODEL ->
     POST req =
       ({| body := BodyError
                     (match e1 with
                      | Some m => if truthy m then m else "Failed to generate video"
                      | None => "Failed to generate video"
                      end);
           status := 500 |},
        [first_call req url])).
Proof.
  intros Himg Hurl Hrun Hgen. split; intros Hmodel.
  - assert (Hne : String.eqb (resolve_model req) DEFAULT_MODEL = false)
      by by apply String.eqb_neq.
    unfold GenerateVideo.POST. rewrite Himg, Hurl. cbn [negb].
    rewrite Hrun, Hgen, Hne. cbn [negb].
    destruct (replicate_run [first_call req url] (fallback_call url)) as [out|e2].
    + repeat split; auto using fallback_input_image.
    + destruct (is404Error e2) eqn:He2.
      * repeat split; auto using fallback_input_image.
      * rewrite (outer_catch_not_404 e2 He2).
        repeat split; auto using fallback_input_image.
  - unfold GenerateVideo.POST. rewrite Himg, Hurl. cbn [negb].
    rewrite Hrun, Hgen, Hmodel, String.eqb_refl. cbn [negb].
    by rewrite (outer_catch_not_404 e1 Hgen).
Qed.
End Facts.

Lemma asset_expired_no_retry_witness :
  POST unit unit (always_fails "Request failed: 404 Not Found") (fun u => u) custom_request
  = ({| body := BodyError EXPIRED_MESSAGE; status := 400 |},
     [first_call custom_request sample_url]).
Proof.
  apply (asset_expired_no_retry (always_fails "Request failed: 404 Not Found")
           (fun u => u) custom_request sample_url "Request failed: 404 Not Found");
    reflexivity.
Defined.

Lemma generic_failure_falls_back_once_witness :
  (POST unit unit (always_fails "boom") (fun u => u) custom_request).2
  = [first_call custom_request sample_url; fallback_call sample_url].
Proof.
  refine (proj1 (proj1 (generic_failure_falls_back_once (always_fails "boom")
                          (fun u => u) custom_request sample_url (Some "boom")
                          _ _ _ _) _)); try reflexivity.
  vm_compute. discriminate.
Defined.

(** C1, as stated, fails: when the fallback also fails the response is the
    bare error body of the fallback's message.  It is the very response a
    request on the default model gets after its single failed attempt, so
    nothing in it marks that the default was tried as well. *)
Lemma second_failure_carries_no_marker :
  length (POST unit unit (always_fails "boom") (fun u => u) custom_request).2 = 2 /\
  length (POST unit unit (always_fails "boom") (fun u => u) default_request).2 = 1 /\
  (POST unit unit (always_fails "boom") (fun u => u) custom_request).1
    = {| body := BodyError "boom"; status := 500 |} /\
  ~ (exists marker : Response unit -> bool,
        marker (POST unit unit (always_fails "boom") (fun u => u) custom_request).1 = true /\
        marker (POST unit unit (always_fails "boom") (fun u => u) default_request).1 = false).
Proof.
  repeat split; try (vm_compute; reflexivity).
  intros (marker & H1 & H2).
  assert (E : (POST unit unit (always_fails "boom") (fun u => u) custom_request).1
              = (POST unit unit (always_fails "boom") (fun u => u) default_request).1)
    by (vm_compute; reflexivity).
  rewrite E in H1. congruence.
Qed.

End GenerateVideoProps.

(** ** The wave scheduler *)

Module SchedulerProps.
Import Js StoryStore Scheduler Samples.

Section BatchFacts.
Context {J : Type}.
Variables (concurrency delay : nat).
Hypothesis concurrency_pos : 0 < concurrency.

Local Abbreviation loop := (@loop J concurrency delay).
Local Abbreviation interleave := (@interleave J delay).

Lemma loop_past_end (fuel : nat) (jobs : list J) (i : nat) :
  length jobs <= i -> loop fuel jobs i = Some [].
Proof.
  intros H. destruct fuel; simpl;
    destruct (Nat.ltb_spec i (length jobs)); try lia; reflexivity.
Qed.

Lemma waves_interleave (ws : list (list J)) : waves (interleave ws) = ws.
Proof.
  induction ws as [|w ws IH]; [reflexivity|].
  destruct ws as [|w' ws']; [reflexivity|].
  cbn [Scheduler.interleave waves] in *. by rewrite IH.
Qed.

(** The loop terminates within [length jobs - i] iterations and cuts
    the rest of the array into consecutive chunks. *)
Lemma loop_chunks (fuel : nat) (jobs : list J) (i : nat) :
  length jobs - i <= fuel ->
  exists ws,
    loop fuel jobs i = Some (interleave ws) /\
    concat ws = drop i jobs /\
    Forall (fun w => 0 < length w <= concurrency) ws /\
    full_but_last concurrency ws.
Proof.
  revert i. induction fuel as [|fuel IH]; intros i Hfuel.
  - exists []. rewrite loop_past_end by lia.
    rewrite drop_ge by lia. by repeat split.
  - destruct (Nat.ltb_spec i (length jobs)) as [Hlt|Hge].
    2:{ exists []. rewrite loop_past_end by lia.
        rewrite drop_ge by lia. by repeat split. }
    destruct (IH (i + concurrency)) as (ws & Hloop & Hcat & Hbound & Hfull); [lia|].
    exists (slice jobs i (i + concurrency) :: ws).
    assert (Hslice : slice jobs i (i + concurrency) = take concurrency (drop i jobs)).
    { unfold slice. f_equal. lia. }
    assert (Hlen : length (slice jobs i (i + concurrency))
                   = Nat.min concurrency (length jobs - i)).
    { rewrite Hslice, length_take, length_drop. reflexivity. }
    repeat split.
    + cbn [Scheduler.loop]. destruct (Nat.ltb_spec i (length jobs)); [|lia].
      fold loop. rewrite Hloop.
      destruct (Nat.ltb_spec (i + concurrency) (length jobs)) as [Hmore|Hlast].
      * destruct ws as [|w' ws'].
        { simpl in Hcat. symmetry in Hcat. apply (f_equal length) in Hcat.
          rewrite length_drop in Hcat. simpl in Hcat. lia. }
        reflexivity.
      * rewrite loop_past_end in Hloop by lia.
        destruct ws as [|w' ws']; [reflexivity|discriminate Hloop].
    + cbn [concat]. rewrite Hcat, Hslice.
      rewrite <- (take_drop concurrency (drop i jobs)) at 2.
      f_equal. rewrite drop_drop. reflexivity.
    + constructor; [lia|assumption].
    + cbn [full_but_last]. destruct ws as [|w' ws']; [exact I|].
      split; [|assumption].
      destruct (Nat.ltb_spec (i + concurrency) (length jobs)) as [Hmore|Hlast]; [lia|].
      rewrite loop_past_end in Hloop by lia. discriminate Hloop.
Qed.
End BatchFacts.

Section RunFacts.
Context {J Out St : Type}.
Variables (concurrency delay : nat).
Variable start : St -> J -> St.
Variable finish : St -> J -> Out -> St * Settled.

Local Abbreviation interleave := (@interleave J delay).

Local Abbreviation event := (Scheduler.event J Out).
Local Abbreviation respects := (@respects J Out concurrency delay).
Local Abbreviation settle_all := (@settle_all J Out St finish).
Local Abbreviation runs := (@runs J Out St start finish).

(** What the continuations of a wave leave in the trace. *)
Lemma settle_all_events (done : list (J * Out)) :
  forall st n st' n' evs r,
    settle_all st n done = (st', n', evs, r) ->
    Forall is_finished evs /\
    length evs <= length done /\
    count_finished evs = length evs /\
    started_jobs evs = [] /\
    (r = Resolved -> length evs = length done /\ n' = n + length done).
Proof.
  induction done as [|[j o] done IH]; intros st n st' n' evs r H.
  - inversion H; subst. repeat split; auto.
  - cbn [Scheduler.settle_all] in H.
    destruct (finish st j o) as [st1 [|]].
    + destruct (settle_all st1 (S n) done) as [[[st2 n2] tr] r2] eqn:E.
      inversion H; subst.
      destruct (IH _ _ _ _ _ _ E) as (Hf & Hl & Hc & Hs & Hr).
      repeat split.
      * constructor; [exact I|assumption].
      * simpl. lia.
      * unfold count_finished in *. simpl. by rewrite Hc.
      * unfold started_jobs in *. simpl. assumption.
      * simpl. destruct (Hr H0). lia.
      * destruct (Hr H0). simpl. lia.
    + inversion H; subst. repeat split; try discriminate.
      * repeat constructor.
      * simpl. lia.
Qed.

Lemma respects_starts (batch : list J) :
  forall (prev : option event) (k : nat) (tr : list event),
    batch <> [] ->
    k + length batch <= concurrency ->
    match prev with
    | None => k = 0
    | Some (Started _) => True
    | Some (Slept ms) => ms = delay /\ k = 0
    | Some (Finished _ _) => False
    end ->
    (forall j, respects (Some (Started j)) (k + length batch) tr) ->
    respects prev k ((Started <$> batch) ++ tr).
Proof.
  induction batch as [|j batch IH]; intros prev k tr Hne Hk Hprev Htl; [done|].
  cbn [fmap list_fmap app Scheduler.respects]. simpl in Hk.
  split; [lia|]. split; [assumption|].
  destruct batch as [|j' batch'].
  - simpl. specialize (Htl j). simpl in Htl.
    replace (k + 1) with (S k) in Htl by lia. exact Htl.
  - apply IH; [done|simpl in *; lia|exact I|].
    intros j0. specialize (Htl j0).
    replace (S k + length (j' :: batch')) with (k + length (j :: j' :: batch'))
      by (simpl; lia).
    exact Htl.
Qed.

Lemma respects_finishes (evs : list event) :
  forall (prev : option event) (k : nat) (tr : list event),
    Forall is_finished evs ->
    length evs <= k ->
    (forall p, respects p (k - length evs) tr) ->
    respects prev k (evs ++ tr).
Proof.
  induction evs as [|e evs IH]; intros prev k tr Hf Hk Htl.
  - simpl in *. rewrite Nat.sub_0_r in Htl. apply Htl.
  - inversion Hf as [|? ? He Hf']; subst.
    destruct e as [|j o|]; try done.
    cbn [app Scheduler.respects]. simpl in Hk. split; [lia|].
    apply IH; [assumption|lia|].
    intros p. replace (k - 1 - length evs) with (k - length (Finished j o :: evs))
      by (simpl; lia).
    apply Htl.
Qed.

(** One wave: its starts, then its continuations, then [tl]. *)
Lemma respects_wave (w : list J) (evs tl : list event) (prev : option event) :
  0 < length w <= concurrency ->
  prev = None \/ prev = Some (Slept delay) ->
  Forall is_finished evs ->
  length evs <= length w ->
  (forall p, respects p (length w - length evs) tl) ->
  respects prev 0 ((Started <$> w) ++ evs ++ tl).
Proof.
  intros Hw Hprev Hf Hl Htl.
  apply respects_starts.
  - destruct w; [simpl in Hw; lia|done].
  - simpl. lia.
  - destruct Hprev as [->| ->]; auto.
  - intros j. simpl. by apply respects_finishes.
Qed.

(** Every run of an interleaved schedule with bounded waves follows the
    discipline. *)
Lemma runs_respects (ws : list (list J)) :
  Forall (fun w => 0 < length w <= concurrency) ws ->
  forall st n tr res prev,
    prev = None \/ prev = Some (Slept delay) ->
    runs (interleave ws) st n tr res ->
    respects prev 0 tr.
Proof.
  induction ws as [|w ws IH]; intros Hb st n tr res prev Hprev Hrun.
  - inversion Hrun; subst. exact I.
  - inversion Hb as [|? ? Hw Hb']; subst.
    cbn [Scheduler.interleave] in Hrun.
    inversion Hrun as [| |batch done rest st0 n0 st' n' evs tr' res' Hperm Hset Hrest
                          |batch done rest st0 n0 st' n' evs Hperm Hset]; subst.
    + destruct (settle_all_events _ _ _ _ _ _ _ Hset) as (Hf & Hl & _ & _ & Hr).
      destruct (Hr eq_refl) as [Hlen _].
      apply Permutation_length in Hperm. rewrite length_fmap in Hperm.
      apply respects_wave; auto; [lia|].
      rewrite Hlen, <- Hperm, Nat.sub_diag. intros p.
      destruct ws as [|w' ws'].
      * inversion Hrest; subst. exact I.
      * inversion Hrest as [|ms rest0 st1 n1 tr1 res1 Hrest'| |]; subst.
        cbn [Scheduler.respects]. repeat split.
        eapply IH; eauto.
    + destruct (settle_all_events _ _ _ _ _ _ _ Hset) as (Hf & Hl & _).
      apply Permutation_length in Hperm. rewrite length_fmap in Hperm.
      rewrite <- (app_nil_r evs).
      apply respects_wave; auto; [lia|]. intros p. exact I.
Qed.

(** When no job's promise can reject, a run starts every job, in array
    order, and counts every one of them as completed. *)
Lemma runs_complete (Hfinish : forall st j o, (finish st j o).2 = Resolved)
    (sched : list (Scheduler.step J)) :
  forall st n tr res,
    runs sched st n tr res ->
    exists st', res = (st', n + length (concat (waves sched)), Resolved) /\
                count_finished tr = length (concat (waves sched)) /\
                started_jobs tr = concat (waves sched).
Proof.
  intros st n tr res Hrun.
  induction Hrun as [st n|ms rest st n tr res Hrun IH
                    |batch done rest st n st' n' evs tr res Hperm Hset Hrun IH
                    |batch done rest st n st' n' evs Hperm Hset].
  - exists st. simpl. repeat split; auto. f_equal. f_equal. lia.
  - destruct IH as (st' & -> & Hc & Hs). exists st'. simpl. repeat split; auto.
  - destruct IH as (st'' & -> & Hc & Hs). exists st''.
    destruct (settle_all_events _ _ _ _ _ _ _ Hset) as (_ & _ & Hce & Hse & Hr).
    destruct (Hr eq_refl) as [Hlen ->].
    apply Permutation_length in Hperm. rewrite length_fmap in Hperm.
    cbn [waves concat]. rewrite length_app. repeat split.
    + f_equal. f_equal. lia.
    + unfold count_finished in *. rewrite !List.filter_app, !length_app, Hce, Hc.
      rewrite Hlen, <- Hperm.
      replace (length (List.filter _ (Started <$> batch))) with 0; [lia|].
      clear. induction batch; simpl; auto.
    + unfold started_jobs in *. rewrite !omap_app, Hse, Hs. simpl.
      f_equal. clear. induction batch; simpl; [done|]. by f_equal.
  - exfalso. clear -Hset Hfinish.
    revert n st' n' evs Hset. generalize (fold_left start batch st).
    induction done as [|[j o] done IH]; intros s n st' n' evs Hset.
    + discriminate Hset.
    + cbn [Scheduler.settle_all] in Hset. specialize (Hfinish s j o).
      destruct (finish s j o) as [s1 r]. simpl in Hfinish. subst r.
      destruct (settle_all s1 (S n) done) as [[[st2 n2] tr] r2] eqn:E.
      inversion Hset; subst. eapply IH; eauto.
Qed.
End RunFacts.

(** *** The store under [updateShot] *)

Lemma find_update_first {A} (p : A -> bool) (f : A -> A) (l : list A) (x : A) :
  List.find p l = Some x -> p (f x) = true ->
  List.find p (update_first p f l) = Some (f x).
Proof.
  induction l as [|a l IH]; intros Hfind Hp; [discriminate|].
  simpl in *. destruct (p a) eqn:Ha.
  - inversion Hfind; subst. simpl. by rewrite Hp.
  - simpl. rewrite Ha. auto.
Qed.

Lemma find_shot_updateShot (st : StoryData) (sceneId shotId : string)
    (u : ShotUpdate) (sh : Shot) :
  u_id u = None ->
  find_shot st sceneId shotId = Some sh ->
  find_shot (updateShot st sceneId shotId u) sceneId shotId = Some (assign sh u).
Proof.
  intros Hu. unfold find_shot, updateShot. cbn [scenes with_scenes].
  destruct (List.find _ (scenes st)) as [scene|] eqn:Hscene; [|discriminate].
  intros Hshot.
  erewrite find_update_first; [| exact Hscene |].
  - cbn [shots with_shots].
    apply (find_update_first _ (fun shot => assign shot u) _ sh); [assumption|].
    apply List.find_some in Hshot as [_ Hid].
    unfold assign. cbn [id]. rewrite Hu. exact Hid.
  - apply List.find_some in Hscene as [_ Hid]. exact Hid.
Qed.

Lemma run_waves_total {J} (c d : nat) (jobs : list J) :
  0 < c ->
  exists ws,
    run_waves c d jobs = Some (interleave d ws) /\
    concat ws = jobs /\
    Forall (fun w => 0 < length w <= c) ws /\
    full_but_last c ws.
Proof.
  intros Hc. unfold run_waves.
  destruct (loop_chunks c d Hc (length jobs) jobs 0) as (ws & H1 & H2 & H3 & H4); [lia|].
  exists ws. by rewrite drop_0 in H2.
Qed.

Lemma concurrency_of_pos (k : JobKind) : 0 < concurrency_of k.
Proof. destruct k; simpl; lia. Qed.

Lemma runs_in_order (sched : list (step Job)) (n : nat) :
  runs (fun (st : unit) _ => st) (fun st _ (_ : unit) => (st, Resolved)) sched tt n
    (in_order_trace sched) (tt, n + length (concat (waves sched)), Resolved).
Proof.
  revert n. induction sched as [|[batch|ms] rest IH]; intros n.
  - cbn. rewrite Nat.add_0_r. constructor.
  - cbn [in_order_trace waves concat]. rewrite length_app, Nat.add_assoc.
    apply runs_wave with (done := (fun j => (j, tt)) <$> batch) (st' := tt)
                         (n' := n + length batch).
    + rewrite <- list_fmap_compose. cbn. by rewrite list_fmap_id.
    + assert (Hst : fold_left (fun (st : unit) (_ : Job) => st) batch tt = tt)
        by (clear; induction batch; auto).
      rewrite Hst. clear. revert n.
      induction batch as [|j batch IHb]; intros n.
      * cbn. by rewrite Nat.add_0_r.
      * cbn [fmap list_fmap settle_all]. rewrite (IHb (S n)).
        cbn. do 3 f_equal. lia.
    + apply IH.
  - cbn [in_order_trace waves]. apply runs_sleep, IH.
Qed.

(** C3.  [generateAllImages], [animateSelected] and [generateAllAudio]
    terminate with their work list cut, in order, into waves of at most
    5, 3 and 10 jobs, every wave but the last full, and one delay of 500,
    1000 and 200 ms between consecutive waves.  In every run of that
    schedule fewer than the limit are running whenever a job starts, and a
    job starts only with the other jobs of its wave or straight after the
    delay, itself begun with no job still running. *)
Theorem waves_bounded_and_separated (story : StoryData) (selected : gset string)
    (batch : option (list (step Job))) (jobs : list Job) (limit delay : nat) :
  In (batch, jobs, limit, delay)
     [ (generateAllImages story, collect needs_image story, 5, 500);
       (animateSelected selected story, collect (needs_animation selected) story, 3, 1000);
       (generateAllAudio true story, collect needs_audio story, 10, 200) ] ->
  (exists ws,
      batch = Some (interleave delay ws) /\
      concat ws = jobs /\
      Forall (fun w => 0 < length w <= limit) ws /\
      full_but_last limit ws) /\
  (forall (sched : list (step Job)) (Out St : Type)
          (start : St -> Job -> St) (finish : St -> Job -> Out -> St * Settled)
          (st : St) (n : nat) (tr : list (event Job Out)) (res : St * nat * Settled),
      batch = Some sched ->
      runs start finish sched st n tr res ->
      respects limit delay None 0 tr).
Proof.
  intros Hin.
  assert (Hlimit : 0 < limit /\ batch = run_waves limit delay jobs).
  { cbn [In] in Hin. destruct Hin as [E|[E|[E|[]]]]; inversion E; subst;
      (split; [lia | reflexivity]). }
  destruct Hlimit as [Hpos ->].
  destruct (run_waves_total limit delay jobs Hpos) as (ws & Hs & Hcat & Hb & Hfull).
  split; [by exists ws|].
  intros sched Out St start finish st n tr res Hsched Hrun.
  rewrite Hs in Hsched. inversion Hsched; subst.
  eapply runs_respects; [exact Hb | by left | exact Hrun].
Qed.

Lemma batch_completes {Out} (k : JobKind) (jobs : list Job)
    (start : StoryData -> Job -> StoryData)
    (finish : StoryData -> Job -> Out -> StoryData * Settled) :
  (forall st j o, (finish st j o).2 = Resolved) ->
  forall sched st tr res,
    schedule k jobs = Some sched ->
    runs start finish sched st 0 tr res ->
    exists st', res = (st', length jobs, Resolved) /\
                count_finished tr = length jobs /\
                started_jobs tr = jobs.
Proof.
  intros Hfin sched st tr res Hsched Hrun.
  destruct (run_waves_total (concurrency_of k) (delay_of k) jobs (concurrency_of_pos k))
    as (ws & Hs & Hcat & _).
  unfold schedule in Hsched. rewrite Hs in Hsched. inversion Hsched; subst sched.
  destruct (runs_complete start finish Hfin _ _ _ _ _ Hrun) as (st' & -> & Hc & Hst).
  rewrite waves_interleave, Hcat in *. eauto.
Qed.

Lemma generateImage_settles st j o : (generateImage_finish st j o).2 = Resolved.
Proof. unfold generateImage_finish. by destruct (generateImage_try st j o). Qed.

Lemma animateShot_settles ea st j o : (animateShot_finish ea st j o).2 = Resolved.
Proof.
  unfold animateShot_finish. destruct (truthy_opt _); [|done].
  by destruct (animateShot_try st j o).
Qed.

Lemma find_shot_scene_exists (st : StoryData) (sceneId shotId : string) (shot : Shot) :
  find_shot st sceneId shotId = Some shot -> scene_exists st sceneId = true.
Proof.
  unfold find_shot, scene_exists. by destruct (List.find _ (scenes st)).
Qed.

Lemma generateAudio_settles st j o : (generateAudio_finish st j o).2 = Resolved.
Proof.
  unfold generateAudio_finish. destruct (scene_exists _ _); [|done].
  by destruct (generateAudio_try st j o).
Qed.


Lemma waves_bounded_and_separated_witness :
  respects 5 500 None 0
    (in_order_trace [Wave (take 5 seven_jobs); Sleep 500; Wave (drop 5 seven_jobs)]) /\
  respects 3 1000 None 0
    (in_order_trace [Wave (take 3 seven_jobs); Sleep 1000;
                     Wave (take 3 (drop 3 seven_jobs)); Sleep 1000;
                     Wave (drop 6 seven_jobs)]) /\
  respects 10 200 None 0
    (in_order_trace [Wave (take 10 twelve_jobs); Sleep 200; Wave (drop 10 twelve_jobs)]).
Proof.
  split; [|split].
  - refine (proj2 (waves_bounded_and_separated seven_shot_story seven_ids
                     (generateAllImages seven_shot_story)
                     (collect needs_image seven_shot_story) 5 500 _)
              _ unit unit _ _ tt 0 _ _ _ (runs_in_order _ 0)).
    + cbn [In]. left. reflexivity.
    + vm_compute. reflexivity.
  - refine (proj2 (waves_bounded_and_separated seven_shot_story seven_ids
                     (animateSelected seven_ids seven_shot_story)
                     (collect (needs_animation seven_ids) seven_shot_story) 3 1000 _)
              _ unit unit _ _ tt 0 _ _ _ (runs_in_order _ 0)).
    + cbn [In]. right. left. reflexivity.
    + vm_compute. reflexivity.
  - refine (proj2 (waves_bounded_and_separated twelve_shot_story seven_ids
                     (generateAllAudio true twelve_shot_story)
                     (collect needs_audio twelve_shot_story) 10 200 _)
              _ unit unit _ _ tt 0 _ _ _ (runs_in_order _ 0)).
    + cbn [In]. right. right. left. reflexivity.
    + vm_compute. reflexivity.
Defined.


End SchedulerProps.

(** ** Stale flags on mount *)

Module MountProps.
Import Js StoryStore Mount Scheduler Samples.

(** Reads the four conditions of the reset back as the tests of the code. *)
Ltac fold_stuck :=
  repeat match goal with
  | |- context [flag (isGenerating ?s) && negb (truthy_opt (imageUrl ?s))] =>
      change (flag (isGenerating s) && negb (truthy_opt (imageUrl s)))
        with (stuck_image s)
  | |- context [flag (isAnimating ?s) && negb (truthy_opt (animationUrl ?s))] =>
      change (flag (isAnimating s) && negb (truthy_opt (animationUrl s)))
        with (stuck_animation s)
  | |- context [flag (isGeneratingAudio ?s) && negb (truthy_opt (audioUrl ?s))] =>
      change (flag (isGeneratingAudio s) && negb (truthy_opt (audioUrl s)))
        with (stuck_audio s)
  | |- context [flag (char_isGenerating ?c) && negb (truthy_opt (referenceImageUrl ?c))] =>
      change (flag (char_isGenerating c) && negb (truthy_opt (referenceImageUrl c)))
        with (stuck_character c)
  end.

(** *** In-place updates of arrays *)

Section Alter.
Context {A : Type}.

Lemma alter_out_of_range (f : A -> A) (l : list A) (i : nat) :
  l !! i = None -> alter f i l = l.
Proof.
  revert i. induction l as [|a l IH]; intros [|i] H; simpl in *; try done.
  f_equal. by apply IH.
Qed.

Lemma alter_ext_at (f g : A -> A) (l : list A) (i : nat) (x : A) :
  l !! i = Some x -> f x = g x -> alter f i l = alter g i l.
Proof.
  revert i. induction l as [|a l IH]; intros [|i] H E; simpl in *; try done.
  - inversion H; subst. by rewrite E.
  - f_equal. by apply IH.
Qed.

Lemma alter_fixed (f : A -> A) (l : list A) (i : nat) :
  (forall x, l !! i = Some x -> f x = x) -> alter f i l = l.
Proof.
  revert i. induction l as [|a l IH]; intros [|i] H; simpl in *; try done.
  - f_equal. by apply H.
  - f_equal. by apply IH.
Qed.

Lemma alter_alter (f g : A -> A) (l : list A) (i : nat) :
  alter f i (alter g i l) = alter (fun x => f (g x)) i l.
Proof.
  revert i. induction l as [|a l IH]; intros [|i]; simpl; try done.
  f_equal. apply IH.
Qed.

Lemma alter_fixed_fun (f g : A -> A) (l : list A) (i : nat) :
  (forall x, f x = g x) -> alter f i l = alter g i l.
Proof.
  intros H. revert i. induction l as [|a l IH]; intros [|i]; simpl; try done.
  - by rewrite H.
  - f_equal. apply IH.
Qed.

Lemma fmap_alter_key {K} (key : A -> K) (f : A -> A) (l : list A) (i : nat) :
  (forall x, key (f x) = key x) -> key <$> alter f i l = key <$> l.
Proof.
  intros H. revert i. induction l as [|a l IH]; intros [|i]; simpl; try done.
  - by rewrite H.
  - f_equal. apply IH.
Qed.

Lemma Forall_alter_keep (P : A -> Prop) (f : A -> A) (l : list A) (i : nat) :
  (forall x, P x -> P (f x)) -> Forall P l -> Forall P (alter f i l).
Proof.
  intros H Hl. revert i. induction Hl as [|a l Ha Hl IH]; intros [|i]; simpl;
    try constructor; auto. apply IH.
Qed.

Lemma fold_alter_cons (g : A -> A) (n k : nat) (x : A) (l : list A) :
  fold_left (fun l j => alter g j l) (seq (S k) n) (x :: l)
  = x :: fold_left (fun l j => alter g j l) (seq k n) l.
Proof.
  revert k x l. induction n as [|n IH]; intros k x l; [reflexivity|].
  cbn [seq fold_left]. change (alter g (S k) (x :: l)) with (x :: alter g k l).
  apply IH.
Qed.

(** Visiting every index once applies the change everywhere. *)
Lemma fold_alter_all (g : A -> A) (l : list A) :
  fold_left (fun l j => alter g j l) (seq 0 (length l)) l = g <$> l.
Proof.
  induction l as [|a l IH]; [reflexivity|].
  cbn [length seq fold_left]. change (alter g 0 (a :: l)) with (g a :: l).
  rewrite fold_alter_cons, IH. reflexivity.
Qed.

(** [find] on a key that occurs once hits the element holding it. *)
Lemma update_first_unique (key : A -> string) (f : A -> A) (l : list A)
    (j : nat) (x : A) :
  NoDup (key <$> l) -> l !! j = Some x ->
  update_first (fun y => String.eqb (key y) (key x)) f l = alter f j l.
Proof.
  revert j. induction l as [|a l IH]; intros [|j] Hnd Hj; simpl in *; try done.
  - inversion Hj; subst. by rewrite String.eqb_refl.
  - apply NoDup_cons in Hnd as [Hnotin Hnd].
    destruct (String.eqb_spec (key a) (key x)) as [E|_].
    + exfalso. apply Hnotin. rewrite E.
      apply list_elem_of_fmap. exists x. split; [done|].
      by eapply list_elem_of_lookup_2.
    + f_equal. by apply IH.
Qed.
End Alter.

(** *** The store *)

Lemma with_scenes_id (st : StoryData) : with_scenes (fun l => l) st = st.
Proof. by destruct st. Qed.

Lemma with_shots_id (sc : Scene) : with_shots (fun l => l) sc = sc.
Proof. by destruct sc. Qed.

Lemma with_characters_id (st : StoryData) : with_characters (fun l => l) st = st.
Proof. by destruct st. Qed.

Lemma with_scenes_fixed (f : list Scene -> list Scene) (st : StoryData) :
  f (scenes st) = scenes st -> with_scenes f st = st.
Proof. intros H. destruct st. unfold with_scenes. simpl in *. by rewrite H. Qed.

Lemma with_shots_fixed (f : list Shot -> list Shot) (sc : Scene) :
  f (shots sc) = shots sc -> with_shots f sc = sc.
Proof. intros H. destruct sc. unfold with_shots. simpl in *. by rewrite H. Qed.

Lemma with_scenes_ext (f g : list Scene -> list Scene) (st : StoryData) :
  f (scenes st) = g (scenes st) -> with_scenes f st = with_scenes g st.
Proof. intros H. unfold with_scenes. by rewrite H. Qed.

Lemma with_shots_ext (f g : list Shot -> list Shot) (sc : Scene) :
  f (shots sc) = g (shots sc) -> with_shots f sc = with_shots g sc.
Proof. intros H. unfold with_shots. by rewrite H. Qed.

Lemma unique_ids_with_scenes (G : Scene -> Scene) (i : nat) (st : StoryData) :
  (forall sc, scene_id (G sc) = scene_id sc) ->
  (forall sc, NoDup (id <$> shots sc) -> NoDup (id <$> shots (G sc))) ->
  unique_ids st -> unique_ids (with_scenes (alter G i) st).
Proof.
  intros Hid Hshots [H1 H2]. split; cbn [scenes with_scenes].
  - by rewrite fmap_alter_key.
  - by apply Forall_alter_keep.
Qed.

Lemma unique_ids_at_shot (g : Shot -> Shot) (i j : nat) (st : StoryData) :
  (forall sh, id (g sh) = id sh) -> unique_ids st -> unique_ids (at_shot g i j st).
Proof.
  intros Hg. apply unique_ids_with_scenes; [done|].
  intros sc. cbn [shots with_shots]. by rewrite fmap_alter_key.
Qed.

Lemma updateShot_at (st : StoryData) (i j : nat) (scene : Scene) (shot : Shot)
    (u : ShotUpdate) :
  unique_ids st ->
  scenes st !! i = Some scene -> shots scene !! j = Some shot ->
  updateShot st (scene_id scene) (id shot) u = at_shot (fun s => assign s u) i j st.
Proof.
  intros [H1 H2] Hi Hj. unfold updateShot, at_shot. apply with_scenes_ext.
  rewrite (update_first_unique scene_id _ _ i scene H1 Hi).
  apply (alter_ext_at _ _ _ _ scene Hi). apply with_shots_ext.
  apply (update_first_unique id _ _ j shot); [|done].
  rewrite Forall_forall in H2. apply H2.
  by eapply list_elem_of_lookup_2.
Qed.

Lemma at_shot_fixed (g : Shot -> Shot) (i j : nat) (st : StoryData) :
  (forall scene shot, scenes st !! i = Some scene -> shots scene !! j = Some shot ->
                      g shot = shot) ->
  at_shot g i j st = st.
Proof.
  intros H. unfold at_shot. apply with_scenes_fixed. apply alter_fixed.
  intros scene Hi. apply with_shots_fixed. apply alter_fixed.
  intros shot Hj. eauto.
Qed.

(** One conditional reset is an in-place change of the visited shot. *)
Lemma reset_if_at (stale : Shot -> bool)
    (clear : StoryData -> string -> string -> bool -> StoryData) (u : ShotUpdate)
    (st : StoryData) (i j : nat) :
  (forall st a b, clear st a b false = updateShot st a b u) ->
  unique_ids st ->
  reset_if stale clear st i j
  = at_shot (fun sh => if stale sh then assign sh u else sh) i j st.
Proof.
  intros Hclear Hu. unfold reset_if, shot_at.
  destruct (scenes st !! i) as [scene|] eqn:Hi.
  - destruct (shots scene !! j) as [shot|] eqn:Hj.
    + destruct (stale shot) eqn:Hs.
      * rewrite Hclear, (updateShot_at st i j scene shot u Hu Hi Hj).
        unfold at_shot. apply with_scenes_ext. apply (alter_ext_at _ _ _ _ scene Hi).
        apply with_shots_ext. apply (alter_ext_at _ _ _ _ shot Hj).
        by rewrite Hs.
      * symmetry. apply at_shot_fixed. intros sc sh Hsc Hsh.
        rewrite Hi in Hsc. inversion Hsc; subst. rewrite Hj in Hsh. inversion Hsh; subst.
        by rewrite Hs.
    + symmetry. apply at_shot_fixed. intros sc sh Hsc Hsh.
      rewrite Hi in Hsc. inversion Hsc; subst. congruence.
  - symmetry. apply at_shot_fixed. intros sc sh Hsc. congruence.
Qed.

(** The nested [forEach] applies the per-shot change to every shot. *)
Lemma forEach_shot_map (body : StoryData -> nat -> nat -> StoryData) (g : Shot -> Shot) :
  (forall sh, id (g sh) = id sh) ->
  (forall st i j, unique_ids st -> body st i j = at_shot g i j st) ->
  forall st, unique_ids st -> forEach_shot body st = map_shots g st.
Proof.
  intros Hg Hbody.
  assert (Hinner : forall i js st, unique_ids st ->
            fold_left (fun st j => body st i j) js st
            = with_scenes
                (alter (with_shots (fun l => fold_left (fun l j => alter g j l) js l)) i)
                st).
  { intros i js. induction js as [|j js IH]; intros st Hu.
    - simpl. symmetry. apply with_scenes_fixed. apply alter_fixed.
      intros sc _. apply with_shots_id.
    - cbn [fold_left]. rewrite (Hbody _ _ _ Hu).
      rewrite IH by by apply unique_ids_at_shot.
      unfold at_shot, with_scenes. cbn [scenes]. f_equal.
      rewrite alter_alter. reflexivity. }
  assert (Hscene : forall st i, unique_ids st ->
            match scenes st !! i with
            | Some scene =>
                fold_left (fun st j => body st i j) (seq 0 (length (shots scene))) st
            | None => st
            end = with_scenes (alter (with_shots (fmap g)) i) st).
  { intros st i Hu. destruct (scenes st !! i) as [scene|] eqn:Hi.
    - rewrite Hinner by done. apply with_scenes_ext.
      apply (alter_ext_at _ _ _ _ scene Hi). apply with_shots_ext.
      apply fold_alter_all.
    - symmetry. apply with_scenes_fixed. by apply alter_out_of_range. }
  assert (Houter : forall idxs st, unique_ids st ->
            fold_left
              (fun st i =>
                 match scenes st !! i with
                 | Some scene =>
                     fold_left (fun st j => body st i j) (seq 0 (length (shots scene))) st
                 | None => st
                 end) idxs st
            = with_scenes (fun l => fold_left (fun l i => alter (with_shots (fmap g)) i l) idxs l)
                st).
  { induction idxs as [|i idxs IH]; intros st Hu.
    - simpl. symmetry. apply with_scenes_id.
    - cbn [fold_left]. rewrite Hscene by done. rewrite IH.
      + reflexivity.
      + apply unique_ids_with_scenes; [done| |done].
        intros sc. cbn [shots with_shots]. rewrite <- list_fmap_compose.
        intros H. erewrite list_fmap_ext; [exact H|]. intros ? x _. simpl. apply Hg. }
  intros st Hu. unfold forEach_shot, map_shots. rewrite Houter by done.
  apply with_scenes_ext. apply fold_alter_all.
Qed.

Lemma setGeneratingCharacter_at (st : StoryData) (index : nat) :
  match characters st !! index with
  | Some char =>
      if stuck_character char then setGeneratingCharacter st index false else st
  | None => st
  end = with_characters (alter clear_character_flag index) st.
Proof.
  assert (Hfix : forall f, f (characters st) = characters st -> st = with_characters f st).
  { intros f H. destruct st. unfold with_characters. simpl in *. by rewrite H. }
  destruct (characters st !! index) as [char|] eqn:Hc.
  - destruct (stuck_character char) eqn:Hs.
    + unfold setGeneratingCharacter, updateCharacter, with_characters. f_equal.
      apply (alter_ext_at _ _ _ _ char Hc).
      unfold clear_character_flag. fold_stuck. by rewrite Hs.
    + apply Hfix. apply alter_fixed. intros x Hx. rewrite Hc in Hx.
      inversion Hx; subst. unfold clear_character_flag. fold_stuck. by rewrite Hs.
  - apply Hfix. by apply alter_out_of_range.
Qed.

Lemma reset_characters_map (st : StoryData) :
  reset_characters st = with_characters (fmap clear_character_flag) st.
Proof.
  unfold reset_characters.
  assert (H : forall idxs st,
            fold_left
              (fun st index =>
                 match characters st !! index with
                 | Some char =>
                     if stuck_character char then setGeneratingCharacter st index false
                     else st
                 | None => st
                 end) idxs st
            = with_characters
                (fun l => fold_left (fun l i => alter clear_character_flag i l) idxs l) st).
  { induction idxs as [|i idxs IH]; intros st0.
    - simpl. symmetry. apply with_characters_id.
    - cbn [fold_left]. rewrite setGeneratingCharacter_at, IH. reflexivity. }
  rewrite H. unfold with_characters. f_equal. apply fold_alter_all.
Qed.

Lemma getAllShots_map_shots (g : Shot -> Shot) (st : StoryData) :
  getAllShots (map_shots g st) = g <$> getAllShots st.
Proof.
  unfold getAllShots, map_shots. cbn [scenes with_scenes].
  induction (scenes st) as [|sc l IH]; [reflexivity|].
  cbn [fmap list_fmap concat] in *. cbn [shots with_shots].
  rewrite fmap_app. f_equal. exact IH.
Qed.

Lemma clear_image_flag_spec (shot : Shot) :
  assign shot {| u_id := None; u_subtitle := None; u_location := None;
                 u_content := None; u_imageUrl := None;
                 u_isGenerating := Some (Some false); u_isAnimating := None;
                 u_animationUrl := None; u_audioUrl := None;
                 u_isGeneratingAudio := None |}
  = {| id := id shot; subtitle := subtitle shot; location := location shot;
       content := content shot; imageUrl := imageUrl shot;
       isGenerating := Some false; isAnimating := isAnimating shot;
       animationUrl := animationUrl shot; audioUrl := audioUrl shot;
       isGeneratingAudio := isGeneratingAudio shot |}.
Proof. reflexivity. Qed.

Lemma Storyboard_mount_map (st : StoryData) :
  unique_ids st ->
  Storyboard_mount st
  = with_characters (fmap clear_character_flag) (map_shots clear_image_flag st).
Proof.
  intros Hu. unfold Storyboard_mount. rewrite reset_characters_map. f_equal.
  apply forEach_shot_map; [| |exact Hu].
  - intros sh. unfold clear_image_flag. fold_stuck. by destruct (stuck_image sh).
  - intros st0 i j Hu0.
    rewrite (reset_if_at _ _ _ st0 i j (fun _ _ _ => eq_refl) Hu0). reflexivity.
Qed.

Lemma EditView_mount_map (st : StoryData) :
  unique_ids st ->
  EditView_mount st
  = map_shots (fun shot => clear_audio_flag (clear_animation_flag shot)) st.
Proof.
  intros Hu. unfold EditView_mount.
  apply forEach_shot_map; [| |exact Hu].
  - intros sh. unfold clear_audio_flag, clear_animation_flag. fold_stuck.
    destruct (stuck_animation sh); destruct (stuck_audio _); reflexivity.
  - intros st0 i j Hu0.
    rewrite (reset_if_at stuck_animation _ _ st0 i j (fun _ _ _ => eq_refl) Hu0).
    rewrite (reset_if_at stuck_audio _ _ _ i j (fun _ _ _ => eq_refl)).
    + unfold at_shot, with_scenes. cbn [scenes]. f_equal.
      rewrite alter_alter. apply alter_fixed_fun. intros sc.
      unfold with_shots. cbn [shots]. f_equal. rewrite alter_alter. reflexivity.
    + apply unique_ids_at_shot; [|exact Hu0].
      intros sh. by destruct (stuck_animation sh).
Qed.

Lemma collect_spec (need : Shot -> bool) (st : StoryData) (job : Job) :
  job ∈ collect need st -> need job.2 = true.
Proof.
  unfold collect. intros H. apply list_elem_of_In, in_concat in H as (l & Hl & Hjob).
  apply list_elem_of_In, list_elem_of_fmap in Hl as (scene & -> & _).
  apply list_elem_of_In, list_elem_of_fmap in Hjob as (shot & -> & Hshot).
  apply list_elem_of_In, filter_In in Hshot. tauto.
Qed.

Lemma schedule_jobs (k : JobKind) (jobs : list Job) (sched : list (step Job)) :
  schedule k jobs = Some sched -> concat (waves sched) = jobs.
Proof.
  intros H.
  destruct (SchedulerProps.run_waves_total (concurrency_of k) (delay_of k) jobs
              (SchedulerProps.concurrency_of_pos k)) as (ws & Hs & Hcat & _).
  unfold schedule in H. rewrite Hs in H. inversion H; subst.
  by rewrite SchedulerProps.waves_interleave.
Qed.

(** C8 (amended).  With unique scene ids and unique shot ids within a
    scene, mounting the storyboard clears the image flag of every shot
    that is flagged but has no image, and the flag of every such
    character; mounting the edit view does the same for the animation and
    audio flags; nothing else changes.  Afterwards a shot without an image
    is not flagged and passes the filter of the image batch, and likewise
    for characters, animations and audio.  The batch functions themselves
    issue no job for a shot whose flag is set. *)
Theorem stale_flags_cleared_on_mount (st : StoryData) :
  unique_ids st ->
  Storyboard_mount st
    = with_characters (fmap clear_character_flag) (map_shots clear_image_flag st) /\
  EditView_mount st
    = map_shots (fun shot => clear_audio_flag (clear_animation_flag shot)) st /\
  (forall shot, shot ∈ getAllShots (Storyboard_mount st) ->
      truthy_opt (imageUrl shot) = false ->
      flag (isGenerating shot) = false /\ needs_image shot = true) /\
  (forall char, char ∈ characters (Storyboard_mount st) ->
      truthy_opt (referenceImageUrl char) = false ->
      flag (char_isGenerating char) = false) /\
  (forall shot, shot ∈ getAllShots (EditView_mount st) ->
      (truthy_opt (animationUrl shot) = false ->
         flag (isAnimating shot) = false /\
         forall selected : gset string,
           id shot ∈ selected -> needs_animation selected shot = true) /\
      (truthy_opt (audioUrl shot) = false ->
         flag (isGeneratingAudio shot) = false /\
         (truthy (subtitle shot) = true -> needs_audio shot = true))) /\
  (forall sched job, job ∈ concat (waves sched) ->
      (generateAllImages st = Some sched -> flag (isGenerating job.2) = false) /\
      (forall selected,
          animateSelected selected st = Some sched -> flag (isAnimating job.2) = false) /\
      (generateAllAudio true st = Some sched -> flag (isGeneratingAudio job.2) = false)).
Proof.
  intros Hu. rewrite (Storyboard_mount_map st Hu), (EditView_mount_map st Hu).
  split; [reflexivity|]. split; [reflexivity|].
  split; [|split; [|split]].
  - intros shot H.
    change (getAllShots (with_characters ?f ?s)) with (getAllShots s) in H.
    rewrite getAllShots_map_shots in H.
    apply list_elem_of_fmap in H as (y & -> & _).
    unfold clear_image_flag, needs_image.
    destruct (flag (isGenerating y) && negb (truthy_opt (imageUrl y))) eqn:E.
    + cbn [imageUrl isGenerating flag]. by intros ->.
    + intros Himg. rewrite Himg in *. cbn [negb] in *. rewrite andb_true_r in E.
      by rewrite E.
  - intros char H. cbn [characters with_characters] in H.
    apply list_elem_of_fmap in H as (y & -> & _).
    unfold clear_character_flag.
    destruct (flag (char_isGenerating y) && negb (truthy_opt (referenceImageUrl y))) eqn:E.
    + reflexivity.
    + intros Href. rewrite Href in E. cbn [negb] in E. by rewrite andb_true_r in E.
  - intros shot H. rewrite getAllShots_map_shots in H.
    apply list_elem_of_fmap in H as (y & -> & _).
    assert (Hanim : truthy_opt (animationUrl (clear_audio_flag (clear_animation_flag y)))
                    = false ->
                    flag (isAnimating (clear_audio_flag (clear_animation_flag y))) = false).
    { unfold clear_audio_flag, clear_animation_flag.
      destruct (flag (isAnimating y) && negb (truthy_opt (animationUrl y))) eqn:E1;
        match goal with |- context [if ?c then _ else _] => destruct c end;
        cbn [animationUrl isAnimating flag]; try reflexivity;
        intros Hurl; rewrite Hurl in E1; cbn [negb] in E1; by rewrite andb_true_r in E1. }
    assert (Haudio : truthy_opt (audioUrl (clear_audio_flag (clear_animation_flag y)))
                     = false ->
                     flag (isGeneratingAudio (clear_audio_flag (clear_animation_flag y)))
                     = false).
    { unfold clear_audio_flag.
      destruct (flag (isGeneratingAudio (clear_animation_flag y)) &&
                negb (truthy_opt (audioUrl (clear_animation_flag y)))) eqn:E2.
      - reflexivity.
      - intros Hurl. rewrite Hurl in E2. cbn [negb] in E2. by rewrite andb_true_r in E2. }
    split.
    + intros Hurl. specialize (Hanim Hurl). split; [exact Hanim|].
      intros selected Hsel. unfold needs_animation.
      by rewrite bool_decide_eq_true_2, Hanim, Hurl.
    + intros Hurl. specialize (Haudio Hurl). split; [exact Haudio|].
      intros Hsub. unfold needs_audio. by rewrite Hurl, Haudio, Hsub.
  - intros sched job Hjob. split; [|split].
    + intros Hs. apply schedule_jobs in Hs. rewrite Hs in Hjob.
      apply collect_spec in Hjob. unfold needs_image in Hjob.
      apply andb_true_iff in Hjob as [_ Hflag]. by apply negb_true_iff in Hflag.
    + intros selected Hs. apply schedule_jobs in Hs. rewrite Hs in Hjob.
      apply collect_spec in Hjob. unfold needs_animation in Hjob.
      apply andb_true_iff in Hjob as [Hjob _]. apply andb_true_iff in Hjob as [_ Hflag].
      by apply negb_true_iff in Hflag.
    + intros Hs. cbn in Hs. apply schedule_jobs in Hs. rewrite Hs in Hjob.
      apply collect_spec in Hjob. unfold needs_audio in Hjob.
      apply andb_true_iff in Hjob as [Hjob _]. apply andb_true_iff in Hjob as [_ Hflag].
      by apply negb_true_iff in Hflag.
Qed.

Lemma stale_flags_cleared_on_mount_witness :
  Storyboard_mount interrupted_story
  = with_characters (fmap clear_character_flag)
      (map_shots clear_image_flag interrupted_story) /\
  (forall shot, shot ∈ getAllShots (EditView_mount interrupted_story) ->
      (truthy_opt (animationUrl shot) = false ->
         flag (isAnimating shot) = false /\
         forall selected : gset string,
           id shot ∈ selected -> needs_animation selected shot = true) /\
      (truthy_opt (audioUrl shot) = false ->
         flag (isGeneratingAudio shot) = false /\
         (truthy (subtitle shot) = true -> needs_audio shot = true))).
Proof.
  assert (Hu : unique_ids interrupted_story).
  { split.
    - refine (bool_decide_unpack _ _). vm_compute. exact I.
    - repeat apply Forall_cons_2; try apply Forall_nil_2;
        refine (bool_decide_unpack _ _); vm_compute; exact I. }
  destruct (stale_flags_cleared_on_mount interrupted_story Hu) as (H1 & _ & _ & _ & H5 & _).
  exact (conj H1 H5).
Defined.

(** C8, as stated, fails: starting a batch clears nothing.  On a story
    with two shots left flagged by an interrupted run, each of the three
    batch functions issues a job for the one unflagged shot only; when the
    image batch has run, the two flagged shots and the flagged character
    are exactly as before.  Only after the storyboard has mounted does the
    image batch take all three shots.  And the mount itself misses a stale
    flag when two shots of a scene share an id: it clears the first shot
    of that id and leaves the flagged one as it was. *)
Lemma batch_start_leaves_stale_flags :
  generateAllImages interrupted_story
    = Some [Wave [("scene-1", fresh_shot "shot-1")]] /\
  animateSelected three_ids interrupted_story
    = Some [Wave [("scene-1", fresh_shot "shot-1")]] /\
  generateAllAudio true interrupted_story
    = Some [Wave [("scene-1", fresh_shot "shot-1")]] /\
  find_shot interrupted_after_batch "scene-1" "shot-2" = Some (stuck_shot "shot-2") /\
  find_shot interrupted_after_batch "scene-2" "shot-3" = Some (stuck_shot "shot-3") /\
  characters interrupted_after_batch = characters interrupted_story /\
  isGenerating (stuck_shot "shot-2") = Some true /\
  imageUrl (stuck_shot "shot-2") = None /\
  ((fun job : Job => (job.1, id job.2)) <$>
     concat (waves (default [] (generateAllImages (Storyboard_mount interrupted_story)))))
    = [("scene-1", "shot-1"); ("scene-1", "shot-2"); ("scene-2", "shot-3")] /\
  getAllShots (Storyboard_mount twin_story) !! 1 = Some (stuck_shot "shot-1").
Proof. repeat split; vm_compute; reflexivity. Qed.

End MountProps.

(** ** Rounding to a double *)

Module DoubleProps.
Import Double.

Lemma pow2_pos (e : Z) : (0 < pow2 e)%Q.
Proof. unfold pow2. by apply Qpower_0_lt. Qed.

Lemma pow2_add (a b : Z) : (pow2 (a + b) == pow2 a * pow2 b)%Q.
Proof. unfold pow2. by apply Qpower_plus. Qed.

Lemma pow2_le (a b : Z) : (a <= b)%Z -> (pow2 a <= pow2 b)%Q.
Proof. intros H. unfold pow2. apply Qpower_le_compat_l; [exact H|done]. Qed.

Lemma pow2_Z (n : Z) : (0 <= n)%Z -> (pow2 n == inject_Z (2 ^ n))%Q.
Proof. intros H. unfold pow2. by rewrite Zpower_Qpower. Qed.

Lemma pow2_sub (a b : Z) : (pow2 (a - b) == pow2 a / pow2 b)%Q.
Proof. unfold pow2. by apply Qpower_minus. Qed.

(** *** The binade *)

Lemma binade_spec (q : Q) :
  (0 < q)%Q -> (pow2 (binade q) <= q)%Q /\ (q < pow2 (binade q + 1))%Q.
Proof.
  intros Hq. destruct q as [n d]. unfold binade. cbn [Qnum Qden].
  assert (Hn : (0 < n)%Z) by (unfold Qlt in Hq; cbn in Hq; lia).
  set (a := Z.log2 n). set (b := Z.log2 (Z.pos d)).
  destruct (Z.log2_spec n Hn) as [Ha1 Ha2]. fold a in Ha1, Ha2.
  destruct (Z.log2_spec (Z.pos d) eq_refl) as [Hb1 Hb2]. fold b in Hb1, Hb2.
  assert (Ha0 : (0 <= a)%Z) by apply Z.log2_nonneg.
  assert (Hb0 : (0 <= b)%Z) by apply Z.log2_nonneg.
  assert (Hq' : (n # d == inject_Z n / inject_Z (Z.pos d))%Q) by apply Qmake_Qdiv.
  assert (Hd : (0 < inject_Z (Z.pos d))%Q) by (unfold Qlt; cbn; lia).
  destruct (Qle_bool (pow2 (a - b)) (n # d)) eqn:E.
  - apply Qle_bool_iff in E. split; [exact E|].
    replace (a - b + 1)%Z with ((a + 1) - b)%Z by lia.
    rewrite pow2_sub, Hq', !pow2_Z by lia.
    apply Qlt_shift_div_l; [rewrite <- pow2_Z by lia; apply pow2_pos|].
    unfold Qdiv. rewrite <- Qmult_assoc, (Qmult_comm (/ _)), Qmult_assoc.
    apply Qlt_shift_div_r; [exact Hd|].
    rewrite <- !inject_Z_mult, <- Zlt_Qlt. nia.
  - assert (E' : ~ (pow2 (a - b) <= n # d)%Q) by (rewrite <- Qle_bool_iff; congruence).
    apply Qnot_le_lt in E'. split.
    + replace (a - b - 1)%Z with (a - (b + 1))%Z by lia.
      rewrite pow2_sub, Hq', !pow2_Z by lia.
      apply Qle_shift_div_r; [rewrite <- pow2_Z by lia; apply pow2_pos|].
      unfold Qdiv. rewrite <- Qmult_assoc, (Qmult_comm (/ _)), Qmult_assoc.
      apply Qle_shift_div_l; [exact Hd|].
      rewrite <- !inject_Z_mult, <- Zle_Qle. nia.
    + by replace (a - b - 1 + 1)%Z with (a - b)%Z by lia.
Qed.

Lemma pow2_lt_inv (a b : Z) : (pow2 a < pow2 b)%Q -> (a < b)%Z.
Proof.
  intros H. destruct (Z_lt_le_dec a b) as [|Hle]; [done|].
  apply pow2_le in Hle. exfalso. eapply Qlt_irrefl, Qlt_le_trans; eauto.
Qed.

Lemma binade_unique (q : Q) (b : Z) :
  (pow2 b <= q)%Q -> (q < pow2 (b + 1))%Q -> binade q = b.
Proof.
  intros H1 H2.
  assert (Hq : (0 < q)%Q) by (eapply Qlt_le_trans; [apply (pow2_pos b)|exact H1]).
  destruct (binade_spec q Hq) as [B1 B2].
  assert (binade q < b + 1)%Z by (apply pow2_lt_inv; eapply Qle_lt_trans; eauto).
  assert (b < binade q + 1)%Z by (apply pow2_lt_inv; eapply Qle_lt_trans; eauto).
  lia.
Qed.

Lemma binade_mono (x y : Q) : (0 < x)%Q -> (x <= y)%Q -> (binade x <= binade y)%Z.
Proof.
  intros Hx Hxy.
  assert (Hy : (0 < y)%Q) by (eapply Qlt_le_trans; eauto).
  destruct (binade_spec x Hx) as [X1 X2]. destruct (binade_spec y Hy) as [Y1 Y2].
  assert (binade x < binade y + 1)%Z; [|lia].
  apply pow2_lt_inv. eapply Qle_lt_trans; [exact X1|]. eapply Qle_lt_trans; eauto.
Qed.


Lemma binade_comp (x y : Q) : (0 < x)%Q -> (x == y)%Q -> binade x = binade y.
Proof.
  intros Hx E. destruct (binade_spec x Hx) as [X1 X2].
  symmetry. apply binade_unique; by rewrite <- E.
Qed.

(** *** Rounding to the nearest integer *)

Lemma nearest_even_cases (x : Q) :
  let f := Qfloor x in
  let r := (x - inject_Z f)%Q in
  (nearest_even x = f /\ (r < 1 # 2 \/ (r == 1 # 2 /\ Z.even f = true)))%Q \/
  (nearest_even x = (f + 1)%Z /\ (1 # 2 < r \/ (r == 1 # 2 /\ Z.even f = false)))%Q.
Proof.
  cbv zeta. unfold nearest_even.
  destruct (x - inject_Z (Qfloor x) ?= 1 # 2)%Q eqn:E.
  - apply Qeq_alt in E. destruct (Z.even (Qfloor x)) eqn:Ev; [left|right]; auto.
  - apply Qlt_alt in E. left. auto.
  - apply Qgt_alt in E. right. auto.
Qed.

Lemma nearest_even_mono (x y : Q) : (x <= y)%Q -> (nearest_even x <= nearest_even y)%Z.
Proof.
  intros Hxy. pose proof (Qfloor_resp_le _ _ Hxy) as Hf.
  destruct (nearest_even_cases x) as [[-> Hx]|[-> Hx]];
    destruct (nearest_even_cases y) as [[-> Hy]|[-> Hy]]; try lia.
  destruct (Z.eq_dec (Qfloor x) (Qfloor y)) as [E|NE]; [|lia].
  exfalso. rewrite <- E in Hy.
  assert (Hr : (x - inject_Z (Qfloor x) <= y - inject_Z (Qfloor x))%Q).
  { apply Qplus_le_l. exact Hxy. }
  destruct Hx as [Hx|[Hx Ex]], Hy as [Hy|[Hy Ey]].
  - eapply Qlt_irrefl, Qlt_trans; [exact Hx|]. eapply Qle_lt_trans; eauto.
  - rewrite Hy in Hr. eapply Qlt_irrefl, Qlt_le_trans; eauto.
  - rewrite Hx in Hr. eapply Qlt_irrefl, Qle_lt_trans; eauto.
  - congruence.
Qed.

Lemma nearest_even_Z (n : Z) : nearest_even (inject_Z n) = n.
Proof.
  unfold nearest_even. rewrite Qfloor_Z.
  assert (E : (inject_Z n - inject_Z n ?= 1 # 2)%Q = Lt).
  { assert (H : (inject_Z n - inject_Z n == 0)%Q) by ring.
    by rewrite (Qcompare_comp _ _ H (1 # 2)%Q (1 # 2)%Q (Qeq_refl _)). }
  by rewrite E.
Qed.

Lemma nearest_even_comp (x y : Q) : (x == y)%Q -> nearest_even x = nearest_even y.
Proof.
  intros E. unfold nearest_even. rewrite (Qfloor_comp _ _ E).
  assert (E' : (x - inject_Z (Qfloor y) == y - inject_Z (Qfloor y))%Q) by (by rewrite E).
  by rewrite (Qcompare_comp _ _ E' (1 # 2)%Q (1 # 2)%Q (Qeq_refl _)).
Qed.

Lemma nearest_even_nonneg (x : Q) : (0 <= x)%Q -> (0 <= nearest_even x)%Z.
Proof.
  intros H. rewrite <- (nearest_even_Z 0). by apply nearest_even_mono.
Qed.

(** *** Rounding to a double *)

Lemma ulp_exp_comp (x y : Q) : (0 < x)%Q -> (x == y)%Q -> ulp_exp x = ulp_exp y.
Proof. intros Hx E. unfold ulp_exp. by rewrite (binade_comp x y Hx E). Qed.

Lemma round_pos_comp (x y : Q) : (0 < x)%Q -> (x == y)%Q -> (round_pos x == round_pos y)%Q.
Proof.
  intros Hx E. unfold round_pos. rewrite (ulp_exp_comp x y Hx E).
  rewrite (nearest_even_comp (x / pow2 (ulp_exp y)) (y / pow2 (ulp_exp y))); [reflexivity|].
  by rewrite E.
Qed.

Lemma round_pos_nonneg (x : Q) : (0 < x)%Q -> (0 <= round_pos x)%Q.
Proof.
  intros Hx. unfold round_pos. apply Qmult_le_0_compat.
  - change 0%Q with (inject_Z 0). rewrite <- Zle_Qle. apply nearest_even_nonneg.
    apply Qle_shift_div_l; [apply pow2_pos|]. rewrite Qmult_0_l. by apply Qlt_le_weak.
  - apply Qlt_le_weak, pow2_pos.
Qed.

(** A number that is a whole multiple of its own last-bit unit is kept. *)
Lemma round_pos_exact (x : Q) (n : Z) :
  (x == inject_Z n * pow2 (ulp_exp x))%Q -> (round_pos x == x)%Q.
Proof.
  intros E. unfold round_pos.
  rewrite (nearest_even_comp _ (inject_Z n)).
  - rewrite nearest_even_Z. by rewrite <- E.
  - rewrite E at 1. field. apply Qnot_eq_sym, Qlt_not_eq, pow2_pos.
Qed.

Lemma round_pos_mono (x y : Q) :
  (0 < x)%Q -> (x <= y)%Q -> (round_pos x <= round_pos y)%Q.
Proof.
  intros Hx Hxy.
  assert (Hy : (0 < y)%Q) by (eapply Qlt_le_trans; eauto).
  pose proof (binade_mono x y Hx Hxy) as Hb.
  destruct (Z.eq_dec (ulp_exp x) (ulp_exp y)) as [E|NE].
  - unfold round_pos. rewrite E. apply Qmult_le_compat_r; [|apply Qlt_le_weak, pow2_pos].
    rewrite <- Zle_Qle. apply nearest_even_mono.
    apply Qmult_le_compat_r; [exact Hxy|]. apply Qinv_le_0_compat, Qlt_le_weak, pow2_pos.
  - assert (Hlt : (binade x < binade y /\ ulp_exp y = binade y - 52 /\
                   ulp_exp x < binade y)%Z) by (unfold ulp_exp in *; lia).
    destruct Hlt as (Hbb & Ey & Hex).
    destruct (binade_spec x Hx) as [X1 X2]. destruct (binade_spec y Hy) as [Y1 Y2].
    apply Qle_trans with (pow2 (binade y)).
    + (* round_pos x <= 2^(binade y), a whole multiple of the unit of x *)
      unfold round_pos.
      assert (Hk : (pow2 (binade y) == inject_Z (2 ^ (binade y - ulp_exp x)) * pow2 (ulp_exp x))%Q).
      { rewrite <- pow2_Z by lia. rewrite <- pow2_add. by replace (binade y - ulp_exp x + ulp_exp x)%Z with (binade y) by lia. }
      rewrite Hk. apply Qmult_le_compat_r; [|apply Qlt_le_weak, pow2_pos].
      rewrite <- Zle_Qle. rewrite <- (nearest_even_Z (2 ^ (binade y - ulp_exp x))).
      apply nearest_even_mono. apply Qle_shift_div_r; [apply pow2_pos|].
      rewrite <- Hk. apply Qlt_le_weak. eapply Qlt_le_trans; [exact X2|].
      apply pow2_le. lia.
    + unfold round_pos. rewrite Ey.
      assert (Hk : (pow2 (binade y) == inject_Z (2 ^ 52) * pow2 (binade y - 52))%Q).
      { rewrite <- pow2_Z by lia. rewrite <- pow2_add. by replace (52 + (binade y - 52))%Z with (binade y) by lia. }
      rewrite Hk at 1. apply Qmult_le_compat_r; [|apply Qlt_le_weak, pow2_pos].
      rewrite <- Zle_Qle. rewrite <- (nearest_even_Z (2 ^ 52)) at 1.
      apply nearest_even_mono. apply Qle_shift_div_l; [apply pow2_pos|].
      by rewrite <- Hk.
Qed.


Lemma round64_pos (x : Q) : (0 < x)%Q -> round64 x = round_pos x.
Proof. intros H. unfold round64. by rewrite (proj1 (Qgt_alt x 0) H). Qed.

Lemma round64_neg (x : Q) : (x < 0)%Q -> round64 x = (- round_pos (- x))%Q.
Proof. intros H. unfold round64. by rewrite (proj1 (Qlt_alt x 0) H). Qed.

Lemma round64_zero (x : Q) : (x == 0)%Q -> round64 x = 0%Q.
Proof. intros H. unfold round64. by rewrite (proj1 (Qeq_alt x 0) H). Qed.

Lemma Qsign_cases (x : Q) : (x < 0 \/ x == 0 \/ 0 < x)%Q.
Proof.
  destruct (Q_dec x 0) as [[H|H]|H]; auto.
Qed.

Lemma Qopp_pos (x : Q) : (x < 0)%Q -> (0 < - x)%Q.
Proof. intros H. apply Qopp_lt_compat in H. exact H. Qed.

Lemma round64_comp (x y : Q) : (x == y)%Q -> (round64 x == round64 y)%Q.
Proof.
  intros E. destruct (Qsign_cases x) as [H|[H|H]].
  - rewrite (round64_neg x H), (round64_neg y) by (by rewrite <- E).
    apply Qopp_comp, round_pos_comp; [by apply Qopp_pos|by rewrite E].
  - rewrite (round64_zero x H), (round64_zero y) by (by rewrite <- E). reflexivity.
  - rewrite (round64_pos x H), (round64_pos y) by (by rewrite <- E).
    by apply round_pos_comp.
Qed.

Lemma round64_nonneg (x : Q) : (0 <= x)%Q -> (0 <= round64 x)%Q.
Proof.
  intros H. destruct (Qsign_cases x) as [H'|[H'|H']].
  - exfalso. eapply Qlt_irrefl, Qle_lt_trans; eauto.
  - by rewrite (round64_zero x H').
  - rewrite (round64_pos x H'). by apply round_pos_nonneg.
Qed.

Lemma round64_nonpos (x : Q) : (x <= 0)%Q -> (round64 x <= 0)%Q.
Proof.
  intros H. destruct (Qsign_cases x) as [H'|[H'|H']].
  - rewrite (round64_neg x H'). apply Qopp_pos in H'.
    pose proof (round_pos_nonneg _ H') as Hr. apply Qopp_le_compat in Hr. exact Hr.
  - by rewrite (round64_zero x H').
  - exfalso. eapply Qlt_irrefl, Qlt_le_trans; eauto.
Qed.

(** Rounding keeps the order. *)
Lemma round64_mono (x y : Q) : (x <= y)%Q -> (round64 x <= round64 y)%Q.
Proof.
  intros Hxy. destruct (Qsign_cases x) as [Hx|[Hx|Hx]].
  - destruct (Qsign_cases y) as [Hy|[Hy|Hy]].
    + rewrite (round64_neg x Hx), (round64_neg y Hy). apply Qopp_le_compat.
      apply round_pos_mono; [by apply Qopp_pos|by apply Qopp_le_compat].
    + apply Qle_trans with 0%Q; [apply round64_nonpos; by apply Qlt_le_weak|].
      by rewrite (round64_zero y Hy).
    + apply Qle_trans with 0%Q; [apply round64_nonpos|apply round64_nonneg];
        by apply Qlt_le_weak.
  - rewrite (round64_zero x Hx). apply round64_nonneg. by rewrite <- Hx.
  - assert (Hy : (0 < y)%Q) by (eapply Qlt_le_trans; eauto).
    rewrite (round64_pos x Hx), (round64_pos y Hy). by apply round_pos_mono.
Qed.

Lemma binade_Z (n : Z) : (0 < n)%Z -> binade (inject_Z n) = Z.log2 n.
Proof.
  intros Hn. destruct (Z.log2_spec n Hn) as [H1 H2].
  pose proof (Z.log2_nonneg n) as H0.
  apply binade_unique; rewrite pow2_Z by lia.
  - by rewrite <- Zle_Qle.
  - rewrite <- Zlt_Qlt. by replace (Z.log2 n + 1)%Z with (Z.succ (Z.log2 n)) by lia.
Qed.

(** Whole numbers up to [2^53] are doubles. *)
Lemma round64_Z (n : Z) :
  (0 <= n <= 2 ^ 53)%Z -> (round64 (inject_Z n) == inject_Z n)%Q.
Proof.
  intros [H0 H53]. destruct (Z.eq_dec n 0%Z) as [->|Hn]; [reflexivity|].
  assert (Hpos : (0 < n)%Z) by lia.
  rewrite round64_pos by (change 0%Q with (inject_Z 0); by rewrite <- Zlt_Qlt).
  assert (Hlog : (0 <= Z.log2 n <= 53)%Z).
  { split; [apply Z.log2_nonneg|]. change 53%Z with (Z.log2 (2 ^ 53)).
    by apply Z.log2_le_mono. }
  assert (He : ulp_exp (inject_Z n) = (Z.log2 n - 52)%Z).
  { unfold ulp_exp. rewrite binade_Z by done. lia. }
  destruct (Z_le_gt_dec (Z.log2 n) 52) as [Hle|Hgt].
  - apply (round_pos_exact _ (n * 2 ^ (52 - Z.log2 n))). rewrite He.
    rewrite inject_Z_mult, <- pow2_Z by lia. rewrite <- Qmult_assoc, <- pow2_add.
    replace (52 - Z.log2 n + (Z.log2 n - 52))%Z with 0%Z by lia.
    change (pow2 0) with 1%Q. by rewrite Qmult_1_r.
  - assert (Z.log2 n = 53)%Z by lia.
    assert (n = 2 ^ 53)%Z.
    { destruct (Z.log2_spec n Hpos) as [L1 _]. rewrite H in L1. lia. }
    subst n. apply (round_pos_exact _ (2 ^ 52)). rewrite He. reflexivity.
Qed.

(** What a whole number lies below stays above it after rounding. *)
Lemma round64_above_Z (n : Z) (x : Q) :
  (0 <= n <= 2 ^ 53)%Z -> (inject_Z n <= x)%Q -> (inject_Z n <= round64 x)%Q.
Proof.
  intros Hn Hx. rewrite <- (round64_Z n Hn). by apply round64_mono.
Qed.

(** A double is below a number exactly when it is below its rounding. *)
Lemma round64_lt_inv (x t : Q) :
  (round64 t == t)%Q -> (round64 x < t)%Q -> (x < t)%Q.
Proof.
  intros Ht H. apply Qnot_le_lt. intros Hle.
  apply round64_mono in Hle. rewrite Ht in Hle.
  eapply Qlt_irrefl, Qlt_le_trans; eauto.
Qed.

Lemma round64_le (x t : Q) :
  (round64 t == t)%Q -> (t <= x)%Q -> (t <= round64 x)%Q.
Proof. intros Ht H. rewrite <- Ht. by apply round64_mono. Qed.

(** Known values: the double nearest to one tenth; ties going to the even
    mantissa just above [2^53]; and the two smallest ties among the
    subnormal numbers. *)
Example round64_known_values :
  (round64 (1 # 10) == 3602879701896397 # 36028797018963968)%Q /\
  (round64 (inject_Z (2 ^ 53 + 1)) == inject_Z (2 ^ 53))%Q /\
  (round64 (inject_Z (2 ^ 53 + 3)) == inject_Z (2 ^ 53 + 4))%Q /\
  (round64 (pow2 (-1075)) == 0)%Q /\
  (round64 (3 * pow2 (-1075)) == pow2 (-1073))%Q /\
  (round64 (- (1 # 10)) == - round64 (1 # 10))%Q.
Proof. repeat split; vm_compute; reflexivity. Qed.

End DoubleProps.

(** ** The duration normaliser and its WAV writer *)

Module AudioExtenderProps.
Import Double DoubleProps AudioExtender Samples.

(** *** Writing through the [DataView] *)

Lemma insert_after (pre : list Z) (x y : Z) (rest : list Z) :
  <[length pre := x]> (pre ++ y :: rest) = pre ++ x :: rest.
Proof. induction pre as [|a pre IH]; simpl; [done|]. by f_equal. Qed.

Lemma setInt16_after (pre rest : list Z) (q : Q) :
  setInt16 (pre ++ 0%Z :: 0%Z :: rest) (length pre) q
  = pre ++ pcm16le_raw q ++ rest.
Proof.
  unfold setInt16, setUint16, setUint8, pcm16le_raw, u16le.
  rewrite insert_after.
  replace (length pre + 1) with (length (pre ++ [(Qtrunc q mod 65536 mod 256)%Z]))
    by (rewrite length_app; simpl; lia).
  change (pre ++ (Qtrunc q mod 65536 mod 256)%Z :: 0%Z :: rest)
    with (pre ++ [(Qtrunc q mod 65536 mod 256)%Z] ++ 0%Z :: rest).
  rewrite app_assoc, insert_after, <- app_assoc. reflexivity.
Qed.

(** The channel loop of one frame. *)
Lemma write_channels (sample : nat -> Q) (chs : list nat) :
  forall (pre : list Z) (m : nat),
    fold_left (fun acc ch => (setInt16 acc.1 acc.2 (sample ch), acc.2 + 2)) chs
      (pre ++ replicate (2 * length chs + m) 0%Z, length pre)
    = (pre ++ flat_map (fun ch => pcm16le_raw (sample ch)) chs ++ replicate m 0%Z,
       length pre + 2 * length chs).
Proof.
  induction chs as [|ch chs IH]; intros pre m.
  - simpl. f_equal. lia.
  - cbn [fold_left length flat_map fst snd].
    replace (2 * S (length chs) + m) with (S (S (2 * length chs + m))) by lia.
    cbn [replicate]. rewrite setInt16_after.
    replace (length pre + 2) with (length (pre ++ pcm16le_raw (sample ch)))
      by (rewrite length_app; reflexivity).
    rewrite app_assoc, IH, <- !app_assoc. f_equal.
    rewrite length_app. simpl. lia.
Qed.

(** The frame loop. *)
Lemma write_all_frames (sample : nat -> nat -> Q) (chs frames : list nat) :
  forall (pre : list Z) (m : nat),
    fold_left
      (fun acc i =>
         fold_left (fun acc ch => (setInt16 acc.1 acc.2 (sample ch i), acc.2 + 2)) chs acc)
      frames
      (pre ++ replicate (length frames * (2 * length chs) + m) 0%Z, length pre)
    = (pre ++ flat_map (fun i => flat_map (fun ch => pcm16le_raw (sample ch i)) chs) frames
           ++ replicate m 0%Z,
       length pre + length frames * (2 * length chs)).
Proof.
  induction frames as [|i frames IH]; intros pre m.
  - simpl. f_equal. lia.
  - cbn [fold_left length flat_map].
    replace (S (length frames) * (2 * length chs) + m)
      with (2 * length chs + (length frames * (2 * length chs) + m)) by lia.
    rewrite (write_channels (fun ch => sample ch i) chs pre).
    set (written := flat_map (fun ch => pcm16le_raw (sample ch i)) chs).
    assert (Hlen : length written = 2 * length chs).
    { subst written. clear. induction chs as [|c chs IH]; simpl; lia. }
    replace (length pre + 2 * length chs) with (length (pre ++ written))
      by (rewrite length_app; lia).
    rewrite app_assoc, IH, <- !app_assoc. f_equal.
    rewrite length_app. lia.
Qed.

Lemma header_written (b : AudioBuffer) (n : nat) :
  let channels := Z.of_nat (numberOfChannels b) in
  let rate := sampleRate b in
  let len := Z.of_nat (buf_length b) in
  setUint32
    (writeString
       (setUint16
          (setUint16
             (setUint32
                (setUint32
                   (setUint16
                      (setUint16
                         (setUint32
                            (writeString
                               (writeString
                                  (setUint32 (writeString (replicate (44 + n) 0%Z) 0 "RIFF")
                                     4 (36 + len * channels * 2))
                                  8 "WAVE")
                               12 "fmt ")
                            16 16)
                         20 1)
                      22 channels)
                   24 rate)
                28 (rate * channels * 2))
             32 (channels * 2))
          34 16)
       36 "data")
    40 (len * channels * 2)
  = wav_header b ++ replicate n 0%Z.
Proof.
  intros channels rate len. unfold wav_header. fold channels rate len.
  generalize (len * channels * 2)%Z (rate * channels * 2)%Z (channels * 2)%Z.
  generalize channels rate. clear. intros c r z1 z2 z3.
  cbn -[Z.modulo Z.div Z.add Z.mul]. reflexivity.
Qed.

Lemma wav_bytes_layout (b : AudioBuffer) : wav_bytes b = wav_header b ++ pcm_data b.
Proof.
  unfold wav_bytes, write_frames. cbv zeta. rewrite header_written.
  pose proof (write_all_frames (fun ch i => scale_sample (sample_at b ch i))
                (seq 0 (numberOfChannels b)) (seq 0 (buf_length b)) (wav_header b) 0) as H.
  rewrite !length_seq in H.
  replace (buf_length b * (2 * numberOfChannels b) + 0)
    with (buf_length b * numberOfChannels b * 2) in H by lia.
  change (length (wav_header b)) with 44 in H.
  rewrite H. cbn [fst]. rewrite app_nil_r. reflexivity.
Qed.

Lemma length_pcm_data (b : AudioBuffer) :
  length (pcm_data b) = 2 * (buf_length b * numberOfChannels b).
Proof.
  unfold pcm_data.
  assert (Hin : forall i chs,
            length (flat_map (fun channel => pcm16le (sample_at b channel i)) chs)
            = 2 * length chs).
  { intros i chs. induction chs as [|c chs IH]; simpl; lia. }
  assert (Hout : forall frames chs,
            length (flat_map
                      (fun i => flat_map (fun channel => pcm16le (sample_at b channel i)) chs)
                      frames)
            = 2 * (length frames * length chs)).
  { intros frames chs. induction frames as [|i l IH]; [reflexivity|].
    cbn [flat_map length]. rewrite length_app, Hin, IH. lia. }
  rewrite Hout, !length_seq. reflexivity.
Qed.

Lemma read_u16le (v : Z) : (0 <= v < 65536)%Z -> read_le (u16le v) = v.
Proof.
  intros Hv. unfold read_le, u16le. cbn [fold_right].
  rewrite (Z.mod_small (v / 256) 256)
    by (split; [apply Z.div_pos; lia | apply Z.div_lt_upper_bound; lia]).
  pose proof (Z.div_mod v 256). lia.
Qed.

Lemma read_u32le (v : Z) : (0 <= v < 4294967296)%Z -> read_le (u32le v) = v.
Proof.
  intros Hv. unfold read_le, u32le. cbn [fold_right].
  pose proof (Z.div_mod v 256).
  pose proof (Z.div_mod (v / 256) 256).
  pose proof (Z.div_mod (v / 256 / 256) 256).
  rewrite !Z.div_div in * by lia.
  change (256 * 256)%Z with 65536%Z in *.
  change (65536 * 256)%Z with 16777216%Z in *.
  rewrite (Z.mod_small (v / 16777216) 256)
    by (split; [apply Z.div_pos; lia | apply Z.div_lt_upper_bound; lia]).
  lia.
Qed.

(** *** Padding *)

Lemma copy_channels_pad (frames : nat) (originals : list (list Q)) :
  forall n : nat,
    Forall (fun ch => length ch <= frames) originals ->
    length originals <= n ->
    exists rest,
      copy_channels originals (replicate n (replicate frames 0%Q))
      = Some (((fun ch => ch ++ replicate (frames - length ch) 0%Q) <$> originals) ++ rest)
      /\ length rest = n - length originals.
Proof.
  induction originals as [|ch os IH]; intros n Hlen Hn.
  - exists (replicate n (replicate frames 0%Q)). simpl.
    rewrite length_replicate. split; [reflexivity|lia].
  - destruct n as [|n]; [simpl in Hn; lia|].
    inversion Hlen as [|? ? Hch Hos]; subst.
    destruct (IH n Hos) as (rest & Hcopy & Hrest); [simpl in Hn; lia|].
    exists rest. cbn [replicate copy_channels]. unfold typed_set.
    rewrite length_replicate.
    destruct (Nat.leb_spec (length ch) frames); [|lia].
    rewrite Hcopy, drop_replicate. split; [reflexivity|simpl; lia].
Qed.

Lemma inject_Z_pos (z : Z) : (0 < z)%Z -> (0 < inject_Z z)%Q.
Proof. intros H. unfold Qlt. simpl. lia. Qed.

Lemma copy_channels_fits (frames : nat) (originals : list (list Q)) :
  forall (n : nat) (chans : list (list Q)),
    copy_channels originals (replicate n (replicate frames 0%Q)) = Some chans ->
    Forall (fun ch => length ch <= frames) originals /\ length originals <= n.
Proof.
  induction originals as [|ch os IH]; intros n chans H.
  - split; [constructor|simpl; lia].
  - destruct n as [|n]; [discriminate H|].
    cbn [replicate copy_channels] in H. unfold typed_set in H.
    rewrite length_replicate in H.
    destruct (Nat.leb_spec (length ch) frames) as [Hle|]; [|discriminate H].
    destruct (copy_channels os (replicate n (replicate frames 0%Q))) as [rest|] eqn:E;
      [|discriminate H].
    destruct (IH n rest E) as [Hos Hn]. split; [by constructor|simpl; lia].
Qed.

(** The frame count of the new buffer, while it stays below [2^32]: at
    least one frame and at least the frames of the input. *)
Lemma frames_reach (b : AudioBuffer) (t : Q) :
  (0 < sampleRate b)%Z ->
  (round64 t == t)%Q ->
  (duration b < t)%Q ->
  (Qceiling (round64 (t * inject_Z (sampleRate b))) < 2 ^ 32)%Z ->
  target_frames b t = Z.to_nat (Qceiling (round64 (t * inject_Z (sampleRate b)))) /\
  0 < target_frames b t /\
  buf_length b <= target_frames b t.
Proof.
  intros Hr Ht Hd Hwrap.
  assert (Hpos : (0 < inject_Z (sampleRate b))%Q) by (by apply inject_Z_pos).
  set (len := inject_Z (Z.of_nat (buf_length b))) in *.
  set (p := round64 (t * inject_Z (sampleRate b))) in *.
  assert (Hlen0 : (0 <= len)%Q).
  { unfold len. change 0%Q with (inject_Z 0). rewrite <- Zle_Qle. lia. }
  assert (Hd0 : (0 <= duration b)%Q).
  { unfold duration. apply round64_nonneg. fold len.
    apply Qle_shift_div_l; [exact Hpos|]. by rewrite Qmult_0_l. }
  assert (Ht0 : (0 < t)%Q) by (eapply Qle_lt_trans; eauto).
  (* the exact frame count lies below the exact product *)
  assert (Hexact : (len < t * inject_Z (sampleRate b))%Q).
  { unfold duration in Hd. fold len in Hd. apply round64_lt_inv in Hd; [|exact Ht].
    apply (Qmult_lt_r _ _ _ Hpos) in Hd.
    assert (E : (len / inject_Z (sampleRate b) * inject_Z (sampleRate b) == len)%Q).
    { field. intros H0. rewrite H0 in Hpos. by apply Qlt_irrefl in Hpos. }
    by rewrite E in Hd. }
  (* the rounded product is at least the target, hence positive *)
  assert (Hp : (t <= p)%Q).
  { unfold p. apply round64_le; [exact Ht|].
    rewrite <- (Qmult_1_r t) at 1.
    apply Qmult_le_l; [exact Ht0|].
    change 1%Q with (inject_Z 1). rewrite <- Zle_Qle. lia. }
  assert (Hc0 : (0 < Qceiling p)%Z).
  { rewrite Zlt_Qlt. eapply Qlt_le_trans; [|apply Qle_ceiling].
    eapply Qlt_le_trans; eauto. }
  assert (Hclen : (Z.of_nat (buf_length b) <= Qceiling p)%Z).
  { destruct (Z_le_gt_dec (Z.of_nat (buf_length b)) (2 ^ 53)) as [Hsmall|Hbig].
    - rewrite Zle_Qle. eapply Qle_trans; [|apply Qle_ceiling].
      unfold p. apply round64_above_Z; [lia|]. by apply Qlt_le_weak.
    - exfalso.
      assert (H53 : (inject_Z (2 ^ 53) <= p)%Q).
      { unfold p. apply round64_above_Z; [lia|].
        apply Qlt_le_weak. eapply Qlt_trans; [|exact Hexact].
        unfold len. rewrite <- Zlt_Qlt. lia. }
      assert ((2 ^ 53 <= Qceiling p)%Z).
      { rewrite Zle_Qle. eapply Qle_trans; [exact H53|apply Qle_ceiling]. }
      lia. }
  unfold target_frames, to_unsigned_long. fold p.
  rewrite Z.mod_small by lia. repeat split; lia.
Qed.

(** What a successful [extendBuffer] returns. *)
Lemma extendBuffer_some (b e : AudioBuffer) (t : Q) :
  well_formed b -> channelData b <> [] ->
  extendBuffer b t = Some e ->
  sampleRate e = sampleRate b /\
  numberOfChannels e = numberOfChannels b /\
  buf_length e = target_frames b t /\
  buf_length b <= buf_length e /\
  channelData e
    = (fun ch => ch ++ replicate (buf_length e - buf_length b) 0%Q) <$> channelData b.
Proof.
  intros [Hr Hch] Hne. unfold extendBuffer, createBuffer, numberOfChannels.
  destruct (_ && _); [|discriminate]. cbn [channelData sampleRate buf_length].
  destruct (copy_channels _ _) as [chans|] eqn:E; [|discriminate].
  intros H. inversion H; subst e. clear H. cbn [channelData sampleRate buf_length].
  destruct (copy_channels_fits _ _ _ _ E) as [Hfit _].
  destruct (copy_channels_pad (target_frames b t) (channelData b)
              (length (channelData b)) Hfit (Nat.le_refl _)) as (rest & Hcopy & Hrest).
  rewrite Hcopy in E. inversion E; subst chans. clear E.
  rewrite Nat.sub_diag in Hrest. destruct rest; [|discriminate Hrest]. rewrite app_nil_r.
  assert (Hle : buf_length b <= target_frames b t).
  { destruct (channelData b) as [|ch chs]; [done|].
    inversion Hch; subst. inversion Hfit; subst. lia. }
  repeat split; auto.
  - by rewrite length_fmap.
  - apply Forall_fmap_ext_1. eapply Forall_impl; [exact Hch|].
    intros ch Hc. simpl in Hc. by rewrite Hc.
Qed.

(** The buffer built for an input shorter than the target. *)
Lemma extendBuffer_pads (b : AudioBuffer) (t : Q) :
  well_formed b -> channelData b <> [] ->
  0 < target_frames b t -> buf_length b <= target_frames b t ->
  exists e, extendBuffer b t = Some e.
Proof.
  intros [Hr Hch] Hne Hpos Hle.
  unfold extendBuffer, createBuffer, numberOfChannels.
  destruct (Nat.ltb_spec 0 (length (channelData b))) as [_|Hz];
    [|destruct (channelData b); [done|simpl in Hz; lia]].
  destruct (Nat.ltb_spec 0 (target_frames b t)); [|lia].
  destruct (Z.ltb_spec 0 (sampleRate b)); [|lia].
  cbn [andb channelData sampleRate buf_length].
  destruct (copy_channels_pad (target_frames b t) (channelData b)
              (length (channelData b))) as (rest & Hcopy & Hrest); [|lia|].
  { eapply Forall_impl; [exact Hch|]. intros ch Hc. simpl in Hc. lia. }
  rewrite Hcopy. by eexists.
Qed.

Lemma copy_channels_length (originals : list (list Q)) :
  forall extended chans,
    copy_channels originals extended = Some chans -> length chans = length extended.
Proof.
  induction originals as [|o os IH]; intros extended chans H.
  - simpl in H. by inversion H.
  - destruct extended as [|e es]; [discriminate H|].
    cbn [copy_channels] in H. destruct (typed_set e o); [|discriminate H].
    destruct (copy_channels os es) as [rest|] eqn:E; [|discriminate H].
    inversion H; subst. simpl. f_equal. by apply IH.
Qed.

Lemma extendBuffer_keeps_format (b e : AudioBuffer) (t : Q) :
  extendBuffer b t = Some e ->
  sampleRate e = sampleRate b /\ numberOfChannels e = numberOfChannels b.
Proof.
  unfold extendBuffer, createBuffer. intros H.
  destruct (_ && _); [|discriminate H]. cbn [channelData sampleRate buf_length] in H.
  destruct (copy_channels _ _) as [chans|] eqn:E; [|discriminate H].
  inversion H; subst. cbn. split; [reflexivity|].
  apply copy_channels_length in E. rewrite length_replicate in E. exact E.
Qed.

Lemma scaled_sample_in_range (sample : Q) :
  (-32767 <= Qtrunc (scale_sample sample) <= 32767)%Z.
Proof.
  unfold scale_sample.
  assert (Hlo : (-1 <= Qmax (-1) (Qmin 1 sample))%Q) by apply Q.le_max_l.
  assert (Hhi : (Qmax (-1) (Qmin 1 sample) <= 1)%Q).
  { apply Q.max_lub; [discriminate|apply Q.le_min_l]. }
  set (c := Qmax (-1) (Qmin 1 sample)) in *.
  assert (H1 : (-32767 <= c * 32767)%Q).
  { change (-1 * 32767 <= c * 32767)%Q. apply Qmult_le_r; [reflexivity|exact Hlo]. }
  assert (H2 : (c * 32767 <= 32767)%Q).
  { change (c * 32767 <= 1 * 32767)%Q. apply Qmult_le_r; [reflexivity|exact Hhi]. }
  unfold Qtrunc. destruct (Qle_bool 0 (c * 32767)) eqn:E.
  - apply Qle_bool_iff in E. split.
    + apply (Qfloor_resp_le 0) in E. change (Qfloor 0) with 0%Z in E. lia.
    + apply Qfloor_resp_le in H2. change (Qfloor 32767) with 32767%Z in H2. exact H2.
  - split.
    + apply Qceiling_resp_le in H1. change (Qceiling (-32767)) with (-32767)%Z in H1. exact H1.
    + apply Qceiling_resp_le in H2. change (Qceiling 32767) with 32767%Z in H2. exact H2.
Qed.

(** C9 (amended).  The writer emits a 44-byte header followed by the
    frames as interleaved signed 16-bit little-endian samples, each within
    the 16-bit range; bytes 22-23 and 24-27 of the header hold the
    channel count and the sample rate, which for a padded buffer are
    those of the input. *)
Theorem wav_container_layout (b : AudioBuffer) :
  wav_bytes b = wav_header b ++ pcm_data b /\
  length (wav_header b) = 44 /\
  length (pcm_data b) = 2 * (buf_length b * numberOfChannels b) /\
  (forall sample, (-32767 <= Qtrunc (scale_sample sample) <= 32767)%Z) /\
  ((Z.of_nat (numberOfChannels b) < 65536)%Z ->
     read_le (slice_bytes (wav_bytes b) 22 2) = Z.of_nat (numberOfChannels b)) /\
  ((0 <= sampleRate b < 4294967296)%Z ->
     read_le (slice_bytes (wav_bytes b) 24 4) = sampleRate b) /\
  (forall b0 t, extendBuffer b0 t = Some b ->
     sampleRate b = sampleRate b0 /\ numberOfChannels b = numberOfChannels b0).
Proof.
  split; [apply wav_bytes_layout|]. split; [reflexivity|].
  split; [apply length_pcm_data|]. split; [apply scaled_sample_in_range|].
  split; [|split].
  - intros Hc. rewrite wav_bytes_layout. unfold slice_bytes, wav_header.
    cbn -[Z.modulo Z.div Z.add Z.mul Z.of_nat read_le].
    apply read_u16le. lia.
  - intros Hr. rewrite wav_bytes_layout. unfold slice_bytes, wav_header.
    cbn -[Z.modulo Z.div Z.add Z.mul Z.of_nat read_le].
    by apply read_u32le.
  - intros b0 t H. by apply extendBuffer_keeps_format in H.
Qed.

Section ExtendFacts.
Variable decodeAudioData : string -> option AudioBuffer.
Variable blobToBase64 : list Z -> option string.

(** C5 (amended).  [targetDuration] is a double [t]; the duration of the
    input is its frame count over its rate, rounded to a double.  An input
    at least as long as the target comes back unchanged.  A shorter one is
    rebuilt at the same rate and channel count with [ceil] of the rounded
    product [t * rate] frames, provided that count is below [2^32]: never
    fewer frames than the input, each channel the input channel followed
    by zeros only, and exactly [t * rate] frames, hence a duration of [t],
    when that product is a whole number up to [2^53].  That buffer,
    WAV-encoded, is what the function returns. *)
Theorem pads_with_trailing_silence (audioDataUrl : string) (t : Q) (b : AudioBuffer) :
  decodeAudioData audioDataUrl = Some b ->
  well_formed b ->
  channelData b <> [] ->
  (round64 t == t)%Q ->
  ((t <= round64 (inject_Z (Z.of_nat (buf_length b)) / inject_Z (sampleRate b)))%Q ->
     extendAudioToTargetDuration decodeAudioData blobToBase64 audioDataUrl t
     = audioDataUrl) /\
  ((round64 (inject_Z (Z.of_nat (buf_length b)) / inject_Z (sampleRate b)) < t)%Q ->
   (Qceiling (round64 (t * inject_Z (sampleRate b))) < 2 ^ 32)%Z ->
     exists e,
       extendBuffer b t = Some e /\
       extendAudioToTargetDuration decodeAudioData blobToBase64 audioDataUrl t
         = default audioDataUrl (audioBufferToDataUrl blobToBase64 e) /\
       sampleRate e = sampleRate b /\
       numberOfChannels e = numberOfChannels b /\
       buf_length e = Z.to_nat (Qceiling (round64 (t * inject_Z (sampleRate b)))) /\
       buf_length b <= buf_length e /\
       channelData e
         = (fun ch => ch ++ replicate (buf_length e - buf_length b) 0%Q)
             <$> channelData b /\
       (forall z : Z,
           (t * inject_Z (sampleRate b) == inject_Z z)%Q -> (z <= 2 ^ 53)%Z ->
           Z.of_nat (buf_length e) = z /\
           (round64 (inject_Z (Z.of_nat (buf_length e)) / inject_Z (sampleRate e)) == t)%Q)).
Proof.
  intros Hdec Hwf Hne Ht. unfold extendAudioToTargetDuration. rewrite Hdec.
  change (round64 (inject_Z (Z.of_nat (buf_length b)) / inject_Z (sampleRate b)))
    with (duration b).
  split.
  - intros Hle. apply Qle_bool_iff in Hle. by rewrite Hle.
  - intros Hlt Hwrap.
    assert (Hb : Qle_bool t (duration b) = false).
    { destruct (Qle_bool t (duration b)) eqn:E; [|reflexivity].
      apply Qle_bool_iff in E. by apply Qlt_not_le in Hlt. }
    rewrite Hb.
    destruct (frames_reach b t (proj1 Hwf) Ht Hlt Hwrap) as (Hframes & Hpos & Hle).
    destruct (extendBuffer_pads b t Hwf Hne Hpos Hle) as (e & He).
    destruct (extendBuffer_some b e t Hwf Hne He) as (Hrate & Hch & Hlen & Hge & Hdata).
    exists e. rewrite He.
    split; [reflexivity|]. split; [reflexivity|]. split; [exact Hrate|].
    split; [exact Hch|]. split; [by rewrite Hlen|]. split; [exact Hge|].
    split; [exact Hdata|].
    intros z Hz Hz53.
    assert (Ht0 : (0 < t)%Q).
    { eapply Qle_lt_trans; [|exact Hlt]. unfold duration. apply round64_nonneg.
      apply Qle_shift_div_l; [by apply inject_Z_pos, (proj1 Hwf)|].
      rewrite Qmult_0_l. change 0%Q with (inject_Z 0). rewrite <- Zle_Qle. lia. }
    assert (Hz0 : (0 <= z)%Z).
    { rewrite Zle_Qle, <- Hz. apply Qmult_le_0_compat; [by apply Qlt_le_weak|].
      apply Qlt_le_weak, inject_Z_pos, (proj1 Hwf). }
    assert (Hez : Z.of_nat (buf_length e) = z).
    { rewrite Hlen, Hframes.
      rewrite (Qceiling_comp _ (inject_Z z)).
      - rewrite Qceiling_Z. lia.
      - rewrite (round64_comp _ _ Hz). apply round64_Z. lia. }
    split; [exact Hez|].
    rewrite Hez, Hrate. transitivity (round64 t); [|exact Ht]. apply round64_comp.
    rewrite <- Hz. field.
    apply Qnot_eq_sym, Qlt_not_eq, inject_Z_pos, (proj1 Hwf).
Qed.
End ExtendFacts.

Lemma pads_with_trailing_silence_witness :
  extendAudioToTargetDuration (fun _ => Some telephone_clip) (fun _ => None)
    "data:audio/mpeg;base64,AAAA" (round64 (7 # 100))
  = "data:audio/mpeg;base64,AAAA" /\
  exists e, extendBuffer telephone_blip (round64 (7 # 100)) = Some e /\ buf_length e = 560.
Proof.
  assert (Hwf : forall n, well_formed (telephone_silence n)).
  { intros n. split; [reflexivity|]. repeat constructor. cbn. apply length_replicate. }
  assert (Ht : (round64 (round64 (7 # 100)) == round64 (7 # 100))%Q)
    by (vm_compute; reflexivity).
  split.
  - refine (proj1 (pads_with_trailing_silence (fun _ => Some telephone_clip) (fun _ => None)
                     "data:audio/mpeg;base64,AAAA" (round64 (7 # 100)) telephone_clip
                     eq_refl (Hwf 560) ltac:(discriminate) Ht) _).
    vm_compute. discriminate.
  - destruct (proj2 (pads_with_trailing_silence (fun _ => Some telephone_blip)
                       (fun _ => None) "data:audio/mpeg;base64,AAAA"
                       (round64 (7 # 100)) telephone_blip
                       eq_refl (Hwf 4) ltac:(discriminate) Ht))
      as (e & He & _ & _ & _ & Hlen & _).
    + vm_compute. reflexivity.
    + vm_compute. reflexivity.
    + exists e. split; [exact He|]. rewrite Hlen. vm_compute. reflexivity.
Defined.

(** C5, as stated, fails: an eighth of a second at 44.1 kHz is 5512.5
    frames, the buffer gets 5513, and its duration is not the target. *)
Lemma padded_duration_exceeds_target :
  exists e,
    extendBuffer short_clip (1 # 8) = Some e /\
    (round64 (1 # 8) == 1 # 8)%Q /\
    (duration short_clip < 1 # 8)%Q /\
    Z.of_nat (buf_length e) = 5513%Z /\
    (1 # 8 < duration e)%Q.
Proof.
  eexists. split; [vm_compute; reflexivity|]. repeat split; vm_compute; reflexivity.
Qed.

Lemma wav_container_layout_witness :
  read_le (slice_bytes (wav_bytes one_sample) 24 4) = 44100%Z.
Proof.
  refine (proj1 (proj2 (proj2 (proj2 (proj2 (proj2 (wav_container_layout one_sample))))))
            _).
  simpl. lia.
Defined.

(** C9, as stated, fails: the header is 44 bytes long, not 42. *)
Lemma wav_header_is_not_42_bytes :
  ~ (exists header, length header = 42 /\
                    wav_bytes one_sample = header ++ pcm_data one_sample).
Proof.
  intros (header & Hlen & E). apply (f_equal length) in E.
  rewrite length_app, Hlen in E. vm_compute in E. discriminate E.
Qed.

End AudioExtenderProps.

(** ** The segment processor *)

Module VideoComposerProps.
Import Js VideoComposer Samples.

Section Facts.
Variable ffmpeg_exec : list string -> gmap string (list Z) -> option (gmap string (list Z)).
Variable atob : string -> option (list Z).
Variable fetchFile : string -> option (list Z).

Local Abbreviation processVideo := (processVideo ffmpeg_exec atob fetchFile).
Local Abbreviation load_audio := (load_audio atob fetchFile).
Local Abbreviation mergeVideoAudio := (mergeVideoAudio ffmpeg_exec atob fetchFile).
Local Abbreviation mergeMultipleVideos := (mergeMultipleVideos ffmpeg_exec atob fetchFile).

Lemma copy_video_ok (s : Session) (videoFile outputFile : string) (videoData : list Z) :
  readFile s videoFile = Some videoData ->
  copy_video s videoFile outputFile = Some (writeFile s outputFile videoData).
Proof. intros H. unfold copy_video. by rewrite H. Qed.

Lemma readFile_written (s : Session) (name : string) (data : list Z) :
  readFile (writeFile s name data) name = Some data.
Proof. unfold readFile, writeFile. cbn [files]. apply lookup_insert_eq. Qed.

(** C6.  Without usable speech (absent, empty, or at most ten
    characters long) a segment whose input file exists is written out
    with exactly the input bytes, no command is run, the call succeeds,
    and a caption, if present, only adds the "Subtitle ignored" warning. *)
Theorem no_speech_passes_video_through (s : Session) (videoFile outputFile : string)
    (audioUrl subtitle : option string) (videoData : list Z) :
  readFile s videoFile = Some videoData ->
  hasAudio audioUrl = false ->
  let r := processVideo s videoFile audioUrl subtitle outputFile in
  r.2 = inl tt /\
  readFile r.1 outputFile = Some videoData /\
  files r.1 = <[outputFile := videoData]> (files s) /\
  execs r.1 = execs s /\
  console r.1 = console s ++ (if hasSubtitle subtitle then [SUBTITLE_IGNORED] else []).
Proof.
  intros Hin Hno. cbv zeta. unfold VideoComposer.processVideo.
  rewrite Hin, Hno. cbn [negb].
  set (s1 := if hasSubtitle subtitle then say s SUBTITLE_IGNORED else s).
  assert (H1 : readFile s1 videoFile = Some videoData)
    by (subst s1; by destruct (hasSubtitle subtitle)).
  rewrite (copy_video_ok s1 _ _ _ H1), readFile_written.
  cbn [fst snd]. repeat split.
  - apply readFile_written.
  - subst s1. by destruct (hasSubtitle subtitle).
  - subst s1. by destruct (hasSubtitle subtitle).
  - subst s1. destruct (hasSubtitle subtitle); cbn; [reflexivity|].
    by rewrite app_nil_r.
Qed.

Lemma load_audio_fails (s : Session) (videoFile outputFile audioUrl : string)
    (videoData : list Z) :
  readFile s videoFile = Some videoData ->
  audio_unloadable atob fetchFile audioUrl = true ->
  load_audio s videoFile outputFile audioUrl = inl tt \/
  exists s', load_audio s videoFile outputFile audioUrl = inr (s', true) /\
             files s' = <[outputFile := videoData]> (files s) /\ execs s' = execs s.
Proof.
  intros Hin Hbad. unfold VideoComposer.load_audio, audio_unloadable in *.
  assert (Hcopy : forall line,
            copy_video (say s line) videoFile outputFile
            = Some (writeFile (say s line) outputFile videoData))
    by (intros line; by apply copy_video_ok).
  destruct (startsWith audioUrl "data:").
  - destruct (split_comma audioUrl !! 1) as [payload|].
    + destruct (truthy payload) eqn:Hp; cbn [negb orb] in *.
      * assert (Hlen : (String.length payload =? 0)%nat = false).
        { destruct payload; [discriminate Hp|reflexivity]. }
        rewrite Hlen. destruct (atob payload); [discriminate Hbad|]. by left.
      * rewrite Hcopy. right. eexists. split; [reflexivity|]. by split.
    + rewrite Hcopy. right. eexists. split; [reflexivity|]. by split.
  - destruct (fetchFile audioUrl); [discriminate Hbad|]. by left.
Qed.

(** C10.  When speech is supplied but cannot be loaded (no or empty
    base64 payload, a payload [atob] rejects, a download that fails), a
    segment whose input file exists is still reported as processed: the
    output holds exactly the input bytes and no command is run. *)
Theorem unloadable_speech_is_dropped (s : Session) (videoFile outputFile audioUrl : string)
    (subtitle : option string) (videoData : list Z) :
  readFile s videoFile = Some videoData ->
  hasAudio (Some audioUrl) = true ->
  audio_unloadable atob fetchFile audioUrl = true ->
  let r := processVideo s videoFile (Some audioUrl) subtitle outputFile in
  r.2 = inl tt /\
  readFile r.1 outputFile = Some videoData /\
  files r.1 = <[outputFile := videoData]> (files s) /\
  execs r.1 = execs s.
Proof.
  intros Hin Hyes Hbad. cbv zeta. unfold VideoComposer.processVideo.
  rewrite Hin, Hyes. cbn [negb].
  change (default "" (Some audioUrl)) with audioUrl.
  destruct (load_audio_fails s videoFile outputFile audioUrl videoData Hin Hbad)
    as [Hl|(s' & Hl & Hf & He)]; rewrite Hl.
  - rewrite copy_video_ok with (videoData := videoData) by exact Hin.
    cbn [fst snd]. repeat split. apply readFile_written.
  - cbn [fst snd]. repeat split; auto.
    unfold readFile. rewrite Hf. apply lookup_insert_eq.
Qed.

Lemma load_audio_execs (s s' : Session) (videoFile outputFile audioUrl : string)
    (early : bool) :
  load_audio s videoFile outputFile audioUrl = inr (s', early) -> execs s' = execs s.
Proof.
  unfold VideoComposer.load_audio, copy_video, readFile.
  destruct (startsWith audioUrl "data:").
  - destruct (split_comma audioUrl !! 1) as [payload|].
    + destruct (negb (truthy payload) || (String.length payload =? 0)%nat).
      * cbn [files say]. destruct (files s !! videoFile); [|discriminate].
        intros H. by inversion H.
      * destruct (atob payload); [|discriminate]. intros H. by inversion H.
    + cbn [files say]. destruct (files s !! videoFile); [|discriminate].
      intros H. by inversion H.
  - destruct (fetchFile audioUrl); [|discriminate]. intros H. by inversion H.
Qed.

(** The mux step of the export path does not look at the console. *)
Lemma mux_ignores_console (s1 : Session) (line : Console)
    (videoFile outputFile : string) :
  let finish (s2 : Session) : Outcome unit :=
    match exec ffmpeg_exec s2 (mux_argv videoFile outputFile) with
    | (s3, false) =>
        (say s3 (Error (String.append "✗✗✗ Video processing error for " videoFile)),
         inr "exec failed")
    | (s3, true) =>
        match readFile s3 outputFile with
        | Some (_ :: _) => (deleteFile s3 "temp_audio.mp3", inl tt)
        | _ =>
            (say (say s3 (Error (String.append "✗ Output file not created or empty: "
                                   outputFile)))
               (Error (String.append "✗✗✗ Video processing error for " videoFile)),
             inr (String.append "Output file not created: " outputFile))
        end
    end in
  (finish (say s1 line)).2 = (finish s1).2 /\
  files (finish (say s1 line)).1 = files (finish s1).1 /\
  execs (finish (say s1 line)).1 = execs (finish s1).1 /\
  execs (finish s1).1 = execs s1 ++ [mux_argv videoFile outputFile].
Proof.
  cbv zeta. unfold exec, readFile. cbn [files say execs].
  destruct (ffmpeg_exec (mux_argv videoFile outputFile) (files s1)) as [fs|];
    cbn [files say execs fst snd]; [|by repeat split].
  destruct (fs !! outputFile) as [[|byte rest]|]; cbn; by repeat split.
Qed.

Lemma exec_segment_execs (s : Session) (argv : list string) (i : nat) :
  execs (exec_segment ffmpeg_exec s argv i).1 = execs s ++ [argv].
Proof.
  unfold exec_segment, exec. by destruct (ffmpeg_exec argv (files s)).
Qed.

(** What the loop body of [mergeMultipleVideos] runs for segment [i]. *)
Lemma merge_segment_execs (s : Session) (i : nat) (video : PreviewVideo) (f : string) :
  (merge_segment ffmpeg_exec atob fetchFile s i video).2 = inl f ->
  execs (merge_segment ffmpeg_exec atob fetchFile s i video).1
  = execs s ++
    (if truthy_opt (pv_audioUrl video)
     then [if truthy_opt (pv_subtitle video)
           then segment_burn_mux_argv i else segment_mux_argv i]
     else if truthy_opt (pv_subtitle video) then [segment_burn_only_argv i] else []).
Proof.
  unfold merge_segment.
  destruct (fetchFile (pv_videoUrl video)) as [videoData|]; [|discriminate].
  cbv zeta. destruct (truthy_opt (pv_audioUrl video)).
  - destruct (merge_audio_data atob fetchFile (default "" (pv_audioUrl video)));
      [|discriminate].
    intros _. destruct (truthy_opt (pv_subtitle video)); by rewrite exec_segment_execs.
  - intros _. destruct (truthy_opt (pv_subtitle video)).
    + by rewrite exec_segment_execs.
    + cbn. by rewrite app_nil_r.
Qed.

Lemma merge_segments_execs (videos : list PreviewVideo) :
  forall (s : Session) (i : nat) (fs : list string),
    (merge_segments ffmpeg_exec atob fetchFile s i videos).2 = inl fs ->
    execs (merge_segments ffmpeg_exec atob fetchFile s i videos).1
    = execs s ++
      concat (imap (fun j video =>
                      if truthy_opt (pv_audioUrl video)
                      then [if truthy_opt (pv_subtitle video)
                            then segment_burn_mux_argv (i + j)
                            else segment_mux_argv (i + j)]
                      else if truthy_opt (pv_subtitle video)
                           then [segment_burn_only_argv (i + j)] else [])
                videos).
Proof.
  induction videos as [|video rest IH]; intros s i fs.
  - cbn. by rewrite app_nil_r.
  - cbn [merge_segments].
    pose proof (merge_segment_execs s i video) as Hseg.
    destruct (merge_segment ffmpeg_exec atob fetchFile s i video) as [s1 [f|msg]];
      [|discriminate].
    specialize (Hseg f eq_refl). cbn [fst] in Hseg.
    specialize (IH s1 (S i)).
    destruct (merge_segments ffmpeg_exec atob fetchFile s1 (S i) rest) as [s2 [fs'|msg]];
      [|discriminate].
    intros _. specialize (IH fs' eq_refl). cbn [fst] in IH |- *. rewrite IH, Hseg.
    rewrite imap_cons. cbn [concat]. rewrite Nat.add_0_r, <- !app_assoc.
    do 3 f_equal. apply imap_ext. intros j video' _. cbn [compose].
    by replace (i + S j) with (S i + j) by lia.
Qed.

End Facts.

Lemma no_speech_passes_video_through_witness :
  readFile
    (processVideo stub_exec atob_ok fetch_ok one_clip "input0.mp4" None
       (Some "Rain begins.") "processed0.mp4").1
    "processed0.mp4"
  = Some clip_bytes.
Proof.
  refine (proj1 (proj2 (no_speech_passes_video_through stub_exec atob_ok fetch_ok
                          one_clip "input0.mp4" "processed0.mp4" None
                          (Some "Rain begins.") clip_bytes _ _))).
  - vm_compute. reflexivity.
  - reflexivity.
Defined.

Lemma unloadable_speech_is_dropped_witness :
  (processVideo stub_exec atob_rejects fetch_ok one_clip "input0.mp4"
     (Some "data:audio/mpeg;base64,") None "processed0.mp4").2
  = inl tt.
Proof.
  refine (proj1 (unloadable_speech_is_dropped stub_exec atob_rejects fetch_ok
                   one_clip "input0.mp4" "processed0.mp4" "data:audio/mpeg;base64,"
                   None clip_bytes _ _ _)).
  - vm_compute. reflexivity.
  - reflexivity.
  - reflexivity.
Defined.



End VideoComposerProps.


(** * Further properties *)

(** ** The video route, beyond the fallback rules *)

Module GenerateVideoExtra.
Import Js GenerateVideo.

Lemma get_set_prop (k : string) (v : value) (obj : object) :
  get_prop k (set_prop k v obj) = Some v.
Proof.
  induction obj as [|[k' v'] obj IH]; simpl.
  - by rewrite String.eqb_refl.
  - destruct (String.eqb k' k) eqn:E; simpl; rewrite E; [reflexivity|exact IH].
Qed.

Lemma build_input_has_image (config : ModelConfig) (url : string) :
  input_image config || image config = true ->
  get_prop "image" (build_input config url) = Some (VStr url) \/
  get_prop "input_image" (build_input config url) = Some (VStr url).
Proof.
  intros H. unfold build_input. destruct (image config).
  - left. apply get_set_prop.
  - right. rewrite orb_false_r in H. rewrite H. apply get_set_prop.
Qed.

Lemma first_including_In (modelId : string) (entries : list (string * ModelConfig))
    (config : ModelConfig) :
  first_including modelId entries = Some config -> In config (snd <$> entries).
Proof.
  induction entries as [|[key c] entries IH]; [discriminate|].
  simpl. destruct (includes modelId key).
  - intros H. inversion H. by left.
  - intros H. right. by apply IH.
Qed.

(** Every template, the superset one included, names the image under at
    least one of the two keys. *)
Lemma every_config_takes_image (modelId : string) :
  input_image (getModelConfig modelId) || image (getModelConfig modelId) = true.
Proof.
  unfold getModelConfig.
  destruct (first_including modelId MODEL_CONFIGS) as [config|] eqn:E; [|reflexivity].
  apply first_including_In in E.
  assert (Hall : Forall (fun c => input_image c || image c = true) (snd <$> MODEL_CONFIGS))
    by (repeat constructor).
  rewrite Forall_forall in Hall. apply Hall. by apply list_elem_of_In.
Qed.

Section Facts.
Context {Output Url : Type}.
Variable replicate_run : list Call -> Call -> RunResult Output.
Variable proxyReplicateUrl : Output -> Url.

Local Abbreviation POST := (POST Output Url replicate_run proxyReplicateUrl).

(** The provider calls of one request: none without an image URL,
    otherwise the configured model and, at most once more, the default. *)
Lemma calls_of_POST (req : Request) :
  (truthy_opt (imageUrl req) = false /\
   POST req = ({| body := BodyError "Image URL is required"; status := 400 |}, [])) \/
  (exists url, imageUrl req = Some url /\ truthy url = true /\
     ((POST req).2 = [first_call req url] \/
      ((POST req).2 = [first_call req url; fallback_call url] /\
       resolve_model req <> DEFAULT_MODEL))).
Proof.
  unfold GenerateVideo.POST.
  destruct (imageUrl req) as [url|]; [|left; by split].
  destruct (truthy url) eqn:Hurl; cbn [negb]; [|left; split; [exact Hurl|reflexivity]].
  right. exists url. split; [reflexivity|]. split; [exact Hurl|].
  destruct (replicate_run [] (first_call req url)) as [out|e1]; [by left|].
  destruct (is404Error e1); [by left|].
  destruct (String.eqb_spec (resolve_model req) DEFAULT_MODEL) as [E|NE]; cbn [negb];
    [by left|].
  right. split; [|exact NE].
  destruct (replicate_run [first_call req url] (fallback_call url)) as [out|e2];
    [reflexivity|].
  by destruct (is404Error e2).
Qed.

(** X1.  Whatever the model and however the provider answers, every call
    the route makes passes the request's image URL, as [image] or as
    [input_image]. *)
Theorem every_call_carries_the_image (req : Request) (url : string) (call : Call) :
  imageUrl req = Some url ->
  In call (POST req).2 ->
  get_prop "image" (call_input call) = Some (VStr url) \/
  get_prop "input_image" (call_input call) = Some (VStr url).
Proof.
  intros Himg Hin.
  destruct (calls_of_POST req) as [[_ H]|(url' & Himg' & _ & H)].
  - rewrite H in Hin. destruct Hin.
  - rewrite Himg in Himg'. inversion Himg'; subst url'.
    assert (Hcases : call = first_call req url \/ call = fallback_call url).
    { destruct H as [H|[H _]]; rewrite H in Hin; simpl in Hin;
        intuition (subst; auto). }
    destruct Hcases as [-> | ->]; cbn [call_input first_call fallback_call];
      apply build_input_has_image, every_config_takes_image.
Qed.

(** X2.  A request without an image URL (absent or empty) is refused with
    400 before any provider call; any other request makes one call or two,
    and a second call happens only for a non-default model and always
    targets the default model. *)
Theorem at_most_one_fallback_call (req : Request) :
  (truthy_opt (imageUrl req) = false ->
     POST req = ({| body := BodyError "Image URL is required"; status := 400 |}, [])) /\
  (forall url, imageUrl req = Some url -> truthy url = true ->
     (POST req).2 = [first_call req url] \/
     ((POST req).2 = [first_call req url; fallback_call url] /\
      resolve_model req <> DEFAULT_MODEL /\
      call_model (fallback_call url) = DEFAULT_MODEL)).
Proof.
  destruct (calls_of_POST req) as [[Hno H]|(url & Himg & Hurl & H)]; split.
  - intros _. exact H.
  - intros url Himg Hurl. rewrite Himg in Hno. simpl in Hno. congruence.
  - intros Hno. rewrite Himg in Hno. simpl in Hno. congruence.
  - intros url' Himg' _. rewrite Himg in Himg'. inversion Himg'; subst url'.
    destruct H as [H|[H NE]]; [by left|right; by repeat split].
Qed.

(** X3.  The status is 200 exactly for a body of the video shape.  Such
    a body holds, as [videoUrl], what [proxyReplicateUrl] returns for the
    output of the provider call that succeeded (no URL when it returns
    [undefined]): the first call, reported under the requested model
    without a warning, or the call to the default model made after the
    first one failed with an error that is not a 404, reported under the
    default model with the fallback warning.  An error body comes with
    status 400 or 500. *)
Theorem response_shape (req : Request) :
  (status (POST req).1 = 200 <->
   exists videoUrl modelUsed warning,
     body (POST req).1 = BodyVideo videoUrl modelUsed warning) /\
  match body (POST req).1 with
  | BodyVideo videoUrl modelUsed warning =>
      exists url output,
        imageUrl req = Some url /\ truthy url = true /\
        videoUrl = proxyReplicateUrl output /\
        ((replicate_run [] (first_call req url) = RunOk output /\
          modelUsed = resolve_model req /\ warning = None) \/
         (exists message,
            replicate_run [] (first_call req url) = RunThrows message /\
            is404Error message = false /\
            resolve_model req <> DEFAULT_MODEL /\
            replicate_run [first_call req url] (fallback_call url) = RunOk output /\
            modelUsed = DEFAULT_MODEL /\
            warning = Some (String.append "Original model failed, used fallback: "
                              DEFAULT_MODEL)))
  | BodyError _ => status (POST req).1 = 400 \/ status (POST req).1 = 500
  end.
Proof.
  assert (Hcatch : forall e, exists msg code,
             @outer_catch Url e = {| body := BodyError msg; status := code |} /\
             (code = 400 \/ code = 500)).
  { intros e. unfold outer_catch, expired_response, json_error.
    destruct (is404Error e); eauto. }
  assert (Herr : forall msg code calls,
             code = 400 \/ code = 500 ->
             let r : Response Url * list Call :=
               ({| body := BodyError msg; status := code |}, calls) in
             (status r.1 = 200 <->
              exists videoUrl modelUsed warning,
                body r.1 = BodyVideo videoUrl modelUsed warning) /\
             (status r.1 = 400 \/ status r.1 = 500)).
  { intros msg code calls Hcode. cbn. split; [|exact Hcode]. split.
    - intros ->. destruct Hcode; discriminate.
    - intros (? & ? & ? & ?). discriminate. }
  unfold GenerateVideo.POST.
  destruct (imageUrl req) as [url|]; [|apply Herr; by left].
  destruct (truthy url) eqn:Hurl; cbn [negb]; [|apply Herr; by left].
  destruct (replicate_run [] (first_call req url)) as [out|e1] eqn:H1.
  { cbn. split; [split; eauto|]. exists url, out. repeat split; auto. }
  destruct (is404Error e1) eqn:H404; [apply Herr; by left|].
  destruct (String.eqb_spec (resolve_model req) DEFAULT_MODEL) as [E|NE]; cbn [negb].
  { destruct (Hcatch e1) as (msg & code & -> & Hcode). by apply Herr. }
  destruct (replicate_run [first_call req url] (fallback_call url)) as [out|e2] eqn:H2.
  { cbn. split; [split; eauto|]. exists url, out. repeat split; auto.
    right. exists e1. repeat split; auto. }
  destruct (is404Error e2); [apply Herr; by left|].
  destruct (Hcatch e2) as (msg & code & -> & Hcode). by apply Herr.
Qed.
End Facts.

Lemma every_call_carries_the_image_witness :
  get_prop "image" (call_input (fallback_call Samples.sample_url))
    = Some (VStr Samples.sample_url) \/
  get_prop "input_image" (call_input (fallback_call Samples.sample_url))
    = Some (VStr Samples.sample_url).
Proof.
  apply (every_call_carries_the_image (Samples.always_fails "boom") (fun u => u)
           Samples.custom_request Samples.sample_url (fallback_call Samples.sample_url)).
  - reflexivity.
  - vm_compute. right. left. reflexivity.
Defined.

End GenerateVideoExtra.

(** ** The story store *)

Module StoryStoreExtra.
Import Js StoryStore StoryStoreOps.

Lemma update_first_fixed {A} (p : A -> bool) (f : A -> A) (l : list A) :
  (forall x, List.find p l = Some x -> f x = x) -> update_first p f l = l.
Proof.
  induction l as [|a l IH]; intros H; [reflexivity|].
  simpl in *. destruct (p a).
  - by rewrite H.
  - f_equal. by apply IH.
Qed.

Lemma find_update_first_same {A} (p : A -> bool) (f : A -> A) (l : list A) :
  (forall x, p (f x) = p x) ->
  List.find p (update_first p f l) = f <$> List.find p l.
Proof.
  intros Hp. induction l as [|a l IH]; [reflexivity|].
  simpl. destruct (p a) eqn:Ha; simpl.
  - by rewrite Hp, Ha.
  - by rewrite Ha.
Qed.

Lemma find_update_first_other {A} (p q : A -> bool) (f : A -> A) (l : list A) :
  (forall x, q (f x) = q x) ->
  (forall x, q x = true -> p x = false) ->
  List.find q (update_first p f l) = List.find q l.
Proof.
  intros Hq Hpq. induction l as [|a l IH]; [reflexivity|].
  simpl. destruct (p a) eqn:Ha; simpl.
  - rewrite Hq. destruct (q a) eqn:Hqa; [|reflexivity].
    apply Hpq in Hqa. congruence.
  - destruct (q a); [reflexivity|exact IH].
Qed.

Lemma id_assign (shot : Shot) (u : ShotUpdate) : u_id u = None -> id (assign shot u) = id shot.
Proof. intros H. unfold assign. cbn [id]. by rewrite H. Qed.

(** Reading back the updated shot, found or not. *)
Lemma find_shot_after_update (st : StoryData) (sceneId shotId : string) (u : ShotUpdate) :
  u_id u = None ->
  find_shot (updateShot st sceneId shotId u) sceneId shotId
  = (fun shot => assign shot u) <$> find_shot st sceneId shotId.
Proof.
  intros Hu. unfold find_shot, updateShot. cbn [scenes with_scenes].
  rewrite find_update_first_same by reflexivity.
  destruct (List.find _ (scenes st)) as [scene|]; [|reflexivity].
  cbn [fmap option_fmap option_map shots with_shots].
  apply find_update_first_same. intros shot. by rewrite id_assign.
Qed.

(** Reading back any other shot. *)
Lemma find_shot_other_update (st : StoryData) (sceneId shotId : string) (u : ShotUpdate)
    (sceneId' shotId' : string) :
  u_id u = None ->
  (sceneId', shotId') <> (sceneId, shotId) ->
  find_shot (updateShot st sceneId shotId u) sceneId' shotId'
  = find_shot st sceneId' shotId'.
Proof.
  intros Hu Hne. unfold find_shot, updateShot. cbn [scenes with_scenes].
  destruct (String.eqb_spec sceneId' sceneId) as [->|Hscene].
  - rewrite find_update_first_same by reflexivity.
    destruct (List.find _ (scenes st)) as [scene|]; [|reflexivity].
    cbn [fmap option_fmap option_map shots with_shots].
    apply find_update_first_other.
    + intros shot. by rewrite id_assign.
    + intros shot Hb. apply String.eqb_eq in Hb. apply String.eqb_neq.
      intros E. apply Hne. congruence.
  - rewrite find_update_first_other; [reflexivity|reflexivity|].
    intros scene Ha. apply String.eqb_eq in Ha. apply String.eqb_neq. congruence.
Qed.

(** X4.  [updateShot] with a scene id or shot id that is not in the story
    changes nothing. *)
Theorem updateShot_unknown_is_noop (st : StoryData) (sceneId shotId : string)
    (u : ShotUpdate) :
  find_shot st sceneId shotId = None ->
  updateShot st sceneId shotId u = st.
Proof.
  unfold find_shot, updateShot. intros H.
  destruct st as [t s cs scs sty ar]. unfold with_scenes. cbn [scenes] in *. f_equal.
  apply update_first_fixed. intros scene Hscene. rewrite Hscene in H.
  destruct scene as [sid ti de shs]. unfold with_shots. cbn [shots] in *. f_equal.
  apply update_first_fixed. intros shot Hshot. congruence.
Qed.

(** X5.  An update that does not assign the id leaves the identifiers of
    all scenes and shots, the characters and the story fields as they
    were, and every other shot reads back unchanged: only the shot found
    under the given ids can differ. *)
Theorem updateShot_touches_one_shot (st : StoryData) (sceneId shotId : string)
    (u : ShotUpdate) :
  u_id u = None ->
  (fun scene => (scene_id scene, id <$> shots scene)) <$> scenes (updateShot st sceneId shotId u)
    = (fun scene => (scene_id scene, id <$> shots scene)) <$> scenes st /\
  characters (updateShot st sceneId shotId u) = characters st /\
  story_title (updateShot st sceneId shotId u) = story_title st /\
  (forall sceneId' shotId',
      (sceneId', shotId') <> (sceneId, shotId) ->
      find_shot (updateShot st sceneId shotId u) sceneId' shotId'
        = find_shot st sceneId' shotId').
Proof.
  intros Hu. split; [|split; [reflexivity|split; [reflexivity|]]].
  - unfold updateShot. cbn [scenes with_scenes].
    induction (scenes st) as [|scene l IH]; [reflexivity|].
    cbn [update_first]. destruct (String.eqb (scene_id scene) sceneId).
    + cbn [fmap list_fmap]. f_equal. cbn [scene_id shots with_shots]. f_equal.
      clear IH. induction (shots scene) as [|shot shs IH]; [reflexivity|].
      cbn [update_first]. destruct (String.eqb (id shot) shotId); cbn [fmap list_fmap].
      * by rewrite id_assign.
      * f_equal. exact IH.
    + cbn [fmap list_fmap]. f_equal. exact IH.
  - intros a b Hne. by apply find_shot_other_update.
Qed.

(** X6.  Removing the character just added gives the story back, and
    [removeCharacter] at or past the end changes nothing. *)
Theorem removeCharacter_after_addCharacter (st : StoryData) (character : Character) :
  removeCharacter (addCharacter st character) (length (characters st)) = st /\
  (forall index, length (characters st) <= index -> removeCharacter st index = st).
Proof.
  assert (Hdel : forall (l : list Character) c, delete (length l) (l ++ [c]) = l).
  { intros l c. induction l as [|a l IH]; [reflexivity|]. simpl. by f_equal. }
  assert (Hge : forall (l : list Character) i, length l <= i -> delete i l = l).
  { intros l. induction l as [|a l IH]; intros [|i] H; simpl in *; try done; try lia.
    f_equal. apply IH. lia. }
  destruct st as [t s cs scs sty ar].
  unfold removeCharacter, addCharacter, with_characters. cbn [characters]. split.
  - by rewrite Hdel.
  - intros index H. by rewrite Hge.
Qed.

Lemma references_snoc (l : list Character) (char : Character) (acc : gmap string Character) :
  fold_left
    (fun refs char =>
       if truthy_opt (referenceImageUrl char) then assign_key (name char) char refs
       else refs)
    (l ++ [char]) acc
  = let refs := fold_left
                  (fun refs char =>
                     if truthy_opt (referenceImageUrl char)
                     then assign_key (name char) char refs else refs) l acc in
    if truthy_opt (referenceImageUrl char) then assign_key (name char) char refs else refs.
Proof. by rewrite fold_left_app. Qed.

Lemma lookup_assign_key {A} (key k : string) (value : A) (refs : gmap string A) :
  assign_key key value refs !! k
  = if decide (key = k /\ key <> "__proto__") then Some value else refs !! k.
Proof.
  unfold assign_key. destruct (String.eqb_spec key "__proto__") as [E|NE].
  - destruct (decide _) as [[_ H]|_]; [by destruct H|reflexivity].
  - destruct (decide (key = k)) as [<-|Hk].
    + rewrite lookup_insert_eq. by rewrite decide_True.
    + rewrite lookup_insert_ne by done. rewrite decide_False; [reflexivity|tauto].
Qed.

(** X7.  The keys of [getCharacterReferences] never include [__proto__];
    every entry is a character of the story, filed under its own name,
    that has a reference image; every character with a reference image
    and a name other than [__proto__] has its name among the keys; and
    when names are unique each such character is the entry under its
    name. *)
Theorem character_references_sound_and_complete (st : StoryData) :
  getCharacterReferences st !! "__proto__" = None /\
  (forall key char,
      getCharacterReferences st !! key = Some char ->
      In char (characters st) /\ name char = key /\
      truthy_opt (referenceImageUrl char) = true) /\
  (forall char,
      In char (characters st) -> truthy_opt (referenceImageUrl char) = true ->
      name char <> "__proto__" ->
      is_Some (getCharacterReferences st !! name char)) /\
  (NoDup (name <$> characters st) ->
   forall char,
      In char (characters st) -> truthy_opt (referenceImageUrl char) = true ->
      name char <> "__proto__" ->
      getCharacterReferences st !! name char = Some char).
Proof.
  unfold getCharacterReferences.
  induction (characters st) as [|x l IH] using rev_ind.
  - repeat split; intros; done.
  - destruct IH as (IH0 & IH1 & IH2 & IH3). rewrite references_snoc. cbv zeta.
    set (refs := fold_left _ l ∅) in *.
    split; [|split; [|split]].
    + destruct (truthy_opt (referenceImageUrl x)); [|exact IH0].
      rewrite lookup_assign_key. destruct (decide _) as [[E NE]|_]; [congruence|exact IH0].
    + intros key char H. destruct (truthy_opt (referenceImageUrl x)) eqn:Hx.
      * rewrite lookup_assign_key in H. destruct (decide _) as [[<- NE]|_].
        -- inversion H; subst.
           repeat split; auto. apply in_or_app. right. by left.
        -- destruct (IH1 _ _ H) as (Hin & Hn & Ht). repeat split; auto.
           apply in_or_app. by left.
      * destruct (IH1 _ _ H) as (Hin & Hn & Ht). repeat split; auto.
        apply in_or_app. by left.
    + intros char Hin Ht Hname. apply in_app_or in Hin as [Hin|[->|[]]].
      * specialize (IH2 _ Hin Ht Hname).
        destruct (truthy_opt (referenceImageUrl x)); [|exact IH2].
        rewrite lookup_assign_key. destruct (decide _); [by eexists|exact IH2].
      * rewrite Ht, lookup_assign_key, decide_True by done. by eexists.
    + intros Hnd char Hin Ht Hname. rewrite fmap_app in Hnd.
      apply NoDup_app in Hnd as (Hnd & Hdisj & _).
      apply in_app_or in Hin as [Hin|[->|[]]].
      * assert (Hne : name x <> name char).
        { intros E. apply (Hdisj (name char)).
          - apply list_elem_of_fmap. exists char. split; [done|]. by apply list_elem_of_In.
          - rewrite <- E. simpl. apply list_elem_of_here. }
        specialize (IH3 Hnd _ Hin Ht Hname).
        destruct (truthy_opt (referenceImageUrl x)); [|exact IH3].
        rewrite lookup_assign_key, decide_False; [exact IH3|tauto].
      * by rewrite Ht, lookup_assign_key, decide_True.
Qed.

Lemma updateShot_unknown_is_noop_witness :
  updateShot Samples.seven_shot_story "scene-2" "shot-1" Examples.mark_generating
  = Samples.seven_shot_story.
Proof. apply updateShot_unknown_is_noop. reflexivity. Defined.

Lemma updateShot_touches_one_shot_witness :
  find_shot (updateShot Samples.seven_shot_story "scene-1" "shot-3" Examples.mark_generating)
    "scene-1" "shot-4"
  = find_shot Samples.seven_shot_story "scene-1" "shot-4".
Proof.
  refine (proj2 (proj2 (proj2 (updateShot_touches_one_shot Samples.seven_shot_story
                                 "scene-1" "shot-3" Examples.mark_generating _)))
            "scene-1" "shot-4" _).
  - reflexivity.
  - discriminate.
Defined.

End StoryStoreExtra.

(** ** Project statistics and the export list *)

Module ProjectIOProps.
Import Js StoryStore ProjectIO.

Lemma sum_scenes_concat (g : list Shot -> list Shot) (l : list Scene) (a : nat) :
  fold_left (fun sum scene => sum + length (g (shots scene))) l a
  = a + length (concat ((fun scene => g (shots scene)) <$> l)).
Proof.
  revert a. induction l as [|scene l IH]; intros a.
  - simpl. lia.
  - cbn [fold_left fmap list_fmap concat]. rewrite IH, length_app. lia.
Qed.

Lemma filter_concat {A} (p : A -> bool) (ls : list (list A)) :
  List.filter p (concat ls) = concat (List.filter p <$> ls).
Proof.
  induction ls as [|l ls IH]; [reflexivity|].
  simpl. by rewrite List.filter_app, IH.
Qed.

Lemma count_is_filter_of_all (field : Shot -> option string) (story : StoryData) :
  sum_scenes (count_shots field) story
  = length (List.filter (fun shot => truthy_opt (field shot)) (getAllShots story)).
Proof.
  unfold sum_scenes, count_shots, getAllShots.
  rewrite (sum_scenes_concat (List.filter (fun shot => truthy_opt (field shot)))).
  rewrite filter_concat, <- list_fmap_compose. reflexivity.
Qed.

Lemma total_is_all (story : StoryData) :
  sum_scenes (fun scene => length (shots scene)) story = length (getAllShots story).
Proof.
  unfold sum_scenes, getAllShots.
  rewrite (sum_scenes_concat (fun l => l)). reflexivity.
Qed.

Lemma filter_length_le {A} (p : A -> bool) (l : list A) :
  length (List.filter p l) <= length l.
Proof. induction l as [|a l IH]; simpl; [lia|]. destruct (p a); simpl; lia. Qed.

(** X8.  The per-scene sums of [getProjectStats] count the shots of
    [getAllShots]: the total is its length, each "with" count is the number
    of its shots with a non-empty reference of that kind and so never
    exceeds the total; the export list of [handleExport] has exactly
    [shotsWithVideos] entries. *)
Theorem stats_count_all_shots (story : StoryData) (includeSubtitles : bool) :
  let stats := getProjectStats story in
  totalShots stats = length (getAllShots story) /\
  shotsWithImages stats
    = length (List.filter (fun shot => truthy_opt (imageUrl shot)) (getAllShots story)) /\
  shotsWithVideos stats
    = length (List.filter (fun shot => truthy_opt (animationUrl shot)) (getAllShots story)) /\
  shotsWithAudio stats
    = length (List.filter (fun shot => truthy_opt (audioUrl shot)) (getAllShots story)) /\
  shotsWithImages stats <= totalShots stats /\
  shotsWithVideos stats <= totalShots stats /\
  shotsWithAudio stats <= totalShots stats /\
  charactersWithImages stats <= characterCount stats /\
  length (export_segments includeSubtitles story) = shotsWithVideos stats.
Proof.
  cbv zeta. unfold getProjectStats.
  cbn [totalShots shotsWithImages shotsWithVideos shotsWithAudio characterCount
       charactersWithImages].
  rewrite !count_is_filter_of_all, total_is_all.
  repeat split; auto using filter_length_le.
  unfold export_segments. by rewrite length_fmap.
Qed.

Lemma getAllShots_without_audio (story : StoryData) :
  getAllShots (storyWithoutAudio story) = shotWithoutAudio <$> getAllShots story.
Proof.
  unfold getAllShots, storyWithoutAudio. cbn [scenes with_scenes].
  induction (scenes story) as [|sc l IH]; [reflexivity|].
  cbn [fmap list_fmap concat] in *. cbn [shots with_shots].
  rewrite fmap_app. f_equal. exact IH.
Qed.

Lemma filter_fmap_same {A} (p : A -> bool) (f : A -> A) (l : list A) :
  (forall x, p (f x) = p x) ->
  length (List.filter p (f <$> l)) = length (List.filter p l).
Proof.
  intros H. induction l as [|a l IH]; [reflexivity|].
  cbn [fmap list_fmap List.filter]. fold (fmap f l). rewrite H.
  destruct (p a); cbn [length]; rewrite IH; reflexivity.
Qed.


End ProjectIOProps.

(** ** Batches, beyond counting *)

Module SchedulerExtra.
Import Js StoryStore Scheduler BatchFlags StoryStoreExtra.

Section Clearing.
Context {Out : Type}.
Variable start : StoryData -> Job -> StoryData.
Variable finish : StoryData -> Job -> Out -> StoryData * Settled.
(** The in-progress flag the batch drives. *)
Variable flag_of : Shot -> option bool.
(** The jobs that reach their request. *)
Variable proper : Job -> Prop.

Local Abbreviation cleared := (cleared flag_of).

Hypothesis start_frame : forall st job k,
  k <> key job -> find_shot (start st job) k.1 k.2 = find_shot st k.1 k.2.
Hypothesis finish_frame : forall st job o k,
  k <> key job -> find_shot (finish st job o).1 k.1 k.2 = find_shot st k.1 k.2.
Hypothesis finish_clears : forall st job o,
  proper job -> cleared (finish st job o).1 (key job).
Hypothesis finish_resolves : forall st job o, (finish st job o).2 = Resolved.

Lemma starts_frame (batch : list Job) :
  forall st k, k ∉ key <$> batch ->
    find_shot (fold_left start batch st) k.1 k.2 = find_shot st k.1 k.2.
Proof.
  induction batch as [|job batch IH]; intros st k Hk; [reflexivity|].
  cbn [fold_left]. rewrite IH.
  - apply start_frame. intros E. apply Hk. rewrite E. cbn. apply list_elem_of_here.
  - intros Hin. apply Hk. cbn. by apply list_elem_of_further.
Qed.

Lemma finishes_clear (done : list (Job * Out)) :
  forall st n st' n' evs r,
    settle_all finish st n done = (st', n', evs, r) ->
    Forall proper (done.*1) ->
    (forall k, k ∈ key <$> done.*1 -> cleared st' k) /\
    (forall k, k ∉ key <$> done.*1 -> find_shot st' k.1 k.2 = find_shot st k.1 k.2).
Proof.
  induction done as [|[job o] done IH]; intros st n st' n' evs r Hset Hgood.
  - inversion Hset; subst. split; [|done]. intros k Hk. cbn in Hk. by apply elem_of_nil in Hk.
  - cbn [settle_all] in Hset.
    pose proof (finish_resolves st job o) as Hres.
    pose proof (finish_clears st job o) as Hclr.
    pose proof (finish_frame st job o) as Hfr.
    destruct (finish st job o) as [st1 s1]. cbn [fst snd] in *. subst s1.
    destruct (settle_all finish st1 (S n) done) as [[[st2 n2] tr] r2] eqn:E.
    inversion Hset; subst.
    cbn [fmap list_fmap fst] in Hgood. inversion Hgood as [|? ? Hjob Hrest]; subst.
    destruct (IH _ _ _ _ _ _ E Hrest) as [IH1 IH2].
    split.
    + intros k Hk. destruct (decide (k ∈ key <$> done.*1)) as [Hin|Hnot].
      * by apply IH1.
      * cbn in Hk. apply elem_of_cons in Hk as [->|Hk]; [|done].
        intros shot Hshot. rewrite IH2 in Hshot by done. by apply Hclr.
    + intros k Hk. cbn in Hk. apply not_elem_of_cons in Hk as [Hne Hk].
      rewrite IH2 by done. by apply Hfr.
Qed.

Lemma run_clears (sched : list (step Job)) :
  forall st n tr res,
    runs start finish sched st n tr res ->
    Forall proper (concat (waves sched)) ->
    forall st' n', res = (st', n', Resolved) ->
      (forall k, k ∈ key <$> concat (waves sched) -> cleared st' k) /\
      (forall k, k ∉ key <$> concat (waves sched) ->
                 find_shot st' k.1 k.2 = find_shot st k.1 k.2).
Proof.
  intros st n tr res Hrun.
  induction Hrun as [st n|ms rest st n tr res Hrun IH
                    |batch done rest st n st1 n1 evs tr res Hperm Hset Hrun IH
                    |batch done rest st n st1 n1 evs Hperm Hset];
    intros Hgood st' n' Hres.
  - inversion Hres; subst. split; [|done]. intros k Hk. cbn in Hk. by apply elem_of_nil in Hk.
  - exact (IH Hgood _ _ Hres).
  - cbn [waves concat] in *. apply Forall_app in Hgood as [Hb Hr].
    destruct (IH Hr _ _ Hres) as [IH1 IH2].
    assert (Hdone : Forall proper (done.*1)) by (by rewrite <- Hperm).
    destruct (finishes_clear _ _ _ _ _ _ _ Hset Hdone) as [W1 W2].
    assert (Hkeys : forall k, k ∈ key <$> batch <-> k ∈ key <$> done.*1)
      by (intros k; by rewrite Hperm).
    split.
    + intros k Hk. rewrite fmap_app in Hk.
      destruct (decide (k ∈ key <$> concat (waves rest))) as [Hin|Hnot]; [by apply IH1|].
      apply elem_of_app in Hk as [Hk|Hk]; [|done].
      intros shot Hshot. rewrite IH2 in Hshot by done.
      apply Hkeys in Hk. by apply (W1 k Hk).
    + intros k Hk. rewrite fmap_app in Hk. apply not_elem_of_app in Hk as [Hb' Hr'].
      rewrite IH2 by done. rewrite W2 by (by rewrite <- Hkeys).
      by apply starts_frame.
  - discriminate Hres.
Qed.
End Clearing.


Lemma image_start_frame st job k :
  k <> key job ->
  find_shot (generateImage_start st job) k.1 k.2 = find_shot st k.1 k.2.
Proof.
  intros Hne. unfold generateImage_start, setGeneratingShot.
  apply find_shot_other_update; [reflexivity|]. by destruct k.
Qed.

Lemma image_finish_frame st job (o : Fetched ImageData) k :
  k <> key job ->
  find_shot (generateImage_finish st job o).1 k.1 k.2 = find_shot st k.1 k.2.
Proof.
  intros Hne. assert (Hk : (k.1, k.2) <> (job.1, id job.2)) by (by destruct k).
  unfold generateImage_finish, generateImage_try.
  destruct o as [ok data|]; [destruct (truthy_opt (image_error data))|];
    cbn [fst]; unfold setGeneratingShot; by apply find_shot_other_update.
Qed.

Lemma image_finish_clears st job (o : Fetched ImageData) :
  cleared isGenerating (generateImage_finish st job o).1 (key job).
Proof.
  intros shot. unfold key. cbn [fst snd].
  unfold generateImage_finish, generateImage_try.
  destruct o as [ok data|]; [destruct (truthy_opt (image_error data))|];
    cbn [fst]; unfold setGeneratingShot; rewrite find_shot_after_update by reflexivity;
    destruct (find_shot st job.1 (id job.2)); intros H; inversion H; reflexivity.
Qed.

Lemma video_start_frame st job k :
  k <> key job ->
  find_shot (animateShot_start st job) k.1 k.2 = find_shot st k.1 k.2.
Proof.
  intros Hne. unfold animateShot_start. destruct (truthy_opt _); [|reflexivity].
  unfold setAnimatingShot. apply find_shot_other_update; [reflexivity|]. by destruct k.
Qed.

Lemma video_finish_frame ea st job (o : Fetched VideoData) k :
  k <> key job ->
  find_shot (animateShot_finish ea st job o).1 k.1 k.2 = find_shot st k.1 k.2.
Proof.
  intros Hne. assert (Hk : (k.1, k.2) <> (job.1, id job.2)) by (by destruct k).
  unfold animateShot_finish, animateShot_try. destruct (truthy_opt (imageUrl job.2));
    [|reflexivity].
  destruct o as [ok data|]; [destruct (truthy_opt (video_error data))|];
    cbn [fst]; unfold setAnimatingShot; try by apply find_shot_other_update.
  unfold animateShot_background_audio, EditView_generateAudio_start.
  destruct (ea && truthy (subtitle job.2) && negb (truthy_opt (audioUrl job.2)));
    [destruct (ea && truthy (subtitle job.2))|];
    unfold setGeneratingAudioShot; by rewrite ?find_shot_other_update.
Qed.

Lemma video_finish_clears ea st job (o : Fetched VideoData) :
  truthy_opt (imageUrl job.2) = true ->
  cleared isAnimating (animateShot_finish ea st job o).1 (key job).
Proof.
  intros Himg shot. unfold key. cbn [fst snd].
  unfold animateShot_finish, animateShot_try. rewrite Himg.
  destruct o as [ok data|]; [destruct (truthy_opt (video_error data))|];
    cbn [fst]; unfold setAnimatingShot;
    unfold animateShot_background_audio, EditView_generateAudio_start;
    try destruct (ea && truthy (subtitle job.2) && negb (truthy_opt (audioUrl job.2)));
    try destruct (ea && truthy (subtitle job.2));
    unfold setGeneratingAudioShot; rewrite ?find_shot_after_update by reflexivity;
    destruct (find_shot st job.1 (id job.2)); intros H; inversion H; reflexivity.
Qed.

(** X11.  When a run of an image batch ends, the shot of every job reads
    [isGenerating = false], whatever the requests answered and in whatever
    order, and every shot no job addresses reads back as before the run.
    The same holds for [isAnimating] after a video batch whose jobs all
    have an image. *)
Theorem no_flag_left_after_batch :
  (forall (jobs : list Job) sched st tr st' n,
      schedule ImageJobs jobs = Some sched ->
      runs generateImage_start generateImage_finish sched st 0 tr (st', n, Resolved) ->
      (forall job shot, In job jobs ->
          find_shot st' job.1 (id job.2) = Some shot -> isGenerating shot = Some false) /\
      (forall sceneId shotId, (sceneId, shotId) ∉ key <$> jobs ->
          find_shot st' sceneId shotId = find_shot st sceneId shotId)) /\
  (forall (enableAudio : bool) (jobs : list Job) sched st tr st' n,
      Forall (fun job : Job => truthy_opt (imageUrl job.2) = true) jobs ->
      schedule VideoJobs jobs = Some sched ->
      runs animateShot_start (animateShot_finish enableAudio) sched st 0 tr
        (st', n, Resolved) ->
      (forall job shot, In job jobs ->
          find_shot st' job.1 (id job.2) = Some shot -> isAnimating shot = Some false) /\
      (forall sceneId shotId, (sceneId, shotId) ∉ key <$> jobs ->
          find_shot st' sceneId shotId = find_shot st sceneId shotId)).
Proof.
  split.
  - intros jobs sched st tr st' n Hsched Hrun.
    destruct (SchedulerProps.run_waves_total (concurrency_of ImageJobs) (delay_of ImageJobs)
                jobs (SchedulerProps.concurrency_of_pos ImageJobs)) as (ws & Hs & Hcat & _).
    unfold schedule in Hsched. rewrite Hs in Hsched. inversion Hsched; subst sched.
    destruct (run_clears generateImage_start generateImage_finish isGenerating
                (fun _ => True) image_start_frame image_finish_frame
                (fun st job o _ => image_finish_clears st job o)
                SchedulerProps.generateImage_settles _ _ _ _ _ Hrun) with (st' := st') (n' := n)
      as [H1 H2].
    + rewrite Forall_forall. done.
    + reflexivity.
    + rewrite SchedulerProps.waves_interleave, Hcat in *. split.
      * intros job shot Hin Hfind. apply (H1 (key job)); [|exact Hfind].
        apply list_elem_of_fmap. exists job. split; [done|]. by apply list_elem_of_In.
      * intros a b Hk. exact (H2 (a, b) Hk).
  - intros ea jobs sched st tr st' n Hgood Hsched Hrun.
    destruct (SchedulerProps.run_waves_total (concurrency_of VideoJobs) (delay_of VideoJobs)
                jobs (SchedulerProps.concurrency_of_pos VideoJobs)) as (ws & Hs & Hcat & _).
    unfold schedule in Hsched. rewrite Hs in Hsched. inversion Hsched; subst sched.
    destruct (run_clears animateShot_start (animateShot_finish ea) isAnimating
                (fun job => truthy_opt (imageUrl job.2) = true)
                video_start_frame (video_finish_frame ea) (video_finish_clears ea)
                (SchedulerProps.animateShot_settles ea) _ _ _ _ _ Hrun)
      with (st' := st') (n' := n)
      as [H1 H2].
    + by rewrite SchedulerProps.waves_interleave, Hcat.
    + reflexivity.
    + rewrite SchedulerProps.waves_interleave, Hcat in *. split.
      * intros job shot Hin Hfind. apply (H1 (key job)); [|exact Hfind].
        apply list_elem_of_fmap. exists job. split; [done|]. by apply list_elem_of_In.
      * intros a b Hk. exact (H2 (a, b) Hk).
Qed.


Lemma no_flag_left_after_batch_witness :
  exists shot,
    find_shot Samples.two_settled.1.1.1 "scene-1" "shot-1" = Some shot /\
    isGenerating shot = Some false.
Proof.
  destruct (find_shot Samples.two_settled.1.1.1 "scene-1" "shot-1") as [shot|] eqn:Hfind.
  - exists shot. split; [reflexivity|].
    refine (proj1 (proj1 no_flag_left_after_batch Samples.two_jobs [Wave Samples.two_jobs]
                     Samples.seven_shot_story Samples.two_trace
                     Samples.two_settled.1.1.1 2 _ _)
              ("scene-1", Samples.fresh_shot "shot-1") shot _ Hfind).
    + reflexivity.
    + refine (runs_wave _ _ Samples.two_jobs Samples.two_done [] Samples.seven_shot_story 0
                Samples.two_settled.1.1.1 2 Samples.two_settled.1.2 [] _ _ _ _).
      * apply perm_swap.
      * vm_compute. reflexivity.
      * apply runs_done.
    + left. reflexivity.
  - vm_compute in Hfind. discriminate Hfind.
Defined.

End SchedulerExtra.

(** ** The WAV writer, beyond its layout *)

Module AudioExtenderExtra.
Import AudioExtender WavReading AudioExtenderProps.

(** X12.  The two size fields of the header agree with the file: the RIFF
    chunk size (bytes 4-7) is the file length minus 8 and the data chunk size
    (bytes 40-43) is the number of sample bytes, for files below 4 GiB. *)
Theorem wav_sizes_are_consistent (b : AudioBuffer) :
  (Z.of_nat (length (wav_bytes b)) < 4294967296)%Z ->
  length (wav_bytes b) = 44 + 2 * (buf_length b * numberOfChannels b) /\
  read_le (slice_bytes (wav_bytes b) 4 4) = (Z.of_nat (length (wav_bytes b)) - 8)%Z /\
  read_le (slice_bytes (wav_bytes b) 40 4) = Z.of_nat (length (pcm_data b)).
Proof.
  intros Hsize.
  assert (Hlen : length (wav_bytes b) = 44 + 2 * (buf_length b * numberOfChannels b)).
  { rewrite wav_bytes_layout, length_app, length_pcm_data. reflexivity. }
  split; [exact Hlen|].
  rewrite Hlen in *. rewrite length_pcm_data.
  rewrite wav_bytes_layout. unfold slice_bytes, wav_header.
  cbn -[Z.modulo Z.div Z.add Z.mul Z.of_nat read_le].
  split.
  - etransitivity;
      [apply (read_u32le
                (36 + Z.of_nat (buf_length b) * Z.of_nat (numberOfChannels b) * 2)); lia
      |lia].
  - etransitivity;
      [apply (read_u32le (Z.of_nat (buf_length b) * Z.of_nat (numberOfChannels b) * 2)); lia
      |lia].
Qed.

Lemma Qtrunc_comp (x y : Q) : (x == y)%Q -> Qtrunc x = Qtrunc y.
Proof.
  intros E. unfold Qtrunc.
  assert (Hb : Qle_bool 0 x = Qle_bool 0 y).
  { destruct (Qle_bool 0 x) eqn:Hx, (Qle_bool 0 y) eqn:Hy; try reflexivity.
    - apply Qle_bool_iff in Hx. rewrite E in Hx. apply Qle_bool_iff in Hx. congruence.
    - apply Qle_bool_iff in Hy. rewrite <- E in Hy. apply Qle_bool_iff in Hy. congruence. }
  rewrite Hb. destruct (Qle_bool 0 y); [by rewrite E|by rewrite E].
Qed.

Lemma read_int16_wrap (v : Z) :
  (-32768 <= v < 32768)%Z -> read_int16 (u16le (v mod 65536)) = v.
Proof.
  intros Hv. unfold read_int16. cbv zeta.
  rewrite read_u16le by (apply Z.mod_pos_bound; lia).
  destruct (Z.ltb_spec (v mod 65536) 32768) as [H|H].
  - destruct (Z.lt_ge_cases v 0) as [Hneg|Hpos].
    + exfalso. replace v with ((v + 65536) - 1 * 65536)%Z in H by lia.
      rewrite Zminus_mod, Z_mod_mult, Z.sub_0_r, Zmod_mod in H.
      rewrite Z.mod_small in H by lia. lia.
    + rewrite Z.mod_small by lia. reflexivity.
  - destruct (Z.lt_ge_cases v 0) as [Hneg|Hpos].
    + replace v with ((v + 65536) - 1 * 65536)%Z at 1 by lia.
      rewrite Zminus_mod, Z_mod_mult, Z.sub_0_r, Zmod_mod.
      rewrite Z.mod_small by lia. lia.
    + rewrite Z.mod_small in H by lia. lia.
Qed.

(** X13.  Reading a written sample back as a signed 16-bit number gives
    the sample clamped to [-1, 1], scaled by 32767 and truncated towards
    zero; a sample of 1 or more reads 32767, one of -1 or less reads
    -32767, and silence reads 0. *)
Theorem sample_round_trip (sample : Q) :
  read_int16 (pcm16le sample) = Qtrunc (scale_sample sample) /\
  ((1 <= sample)%Q -> read_int16 (pcm16le sample) = 32767%Z) /\
  ((sample <= -1)%Q -> read_int16 (pcm16le sample) = (-32767)%Z) /\
  ((sample == 0)%Q -> pcm16le sample = [0; 0]%Z).
Proof.
  assert (Hrt : read_int16 (pcm16le sample) = Qtrunc (scale_sample sample)).
  { unfold pcm16le, pcm16le_raw. apply read_int16_wrap.
    pose proof (scaled_sample_in_range sample). lia. }
  split; [exact Hrt|]. repeat split.
  - intros H. rewrite Hrt. unfold scale_sample.
    assert (E : (Qmax (-1) (Qmin 1 sample) * 32767 == 32767)%Q).
    { rewrite (Q.min_l 1 sample H). reflexivity. }
    by rewrite (Qtrunc_comp _ _ E).
  - intros H. rewrite Hrt. unfold scale_sample.
    assert (E : (Qmax (-1) (Qmin 1 sample) * 32767 == -32767)%Q).
    { rewrite (Q.min_r 1 sample) by (eapply Qle_trans; [exact H|discriminate]).
      rewrite (Q.max_l (-1) sample H). reflexivity. }
    by rewrite (Qtrunc_comp _ _ E).
  - intros H. unfold pcm16le, pcm16le_raw, scale_sample.
    assert (E : (Qmax (-1) (Qmin 1 sample) * 32767 == 0)%Q).
    { rewrite H. reflexivity. }
    by rewrite (Qtrunc_comp _ _ E).
Qed.

Lemma flat_map_ext_In {A B} (f g : A -> list B) (l : list A) :
  (forall a, In a l -> f a = g a) -> flat_map f l = flat_map g l.
Proof.
  induction l as [|a l IH]; intros H; [reflexivity|].
  simpl. rewrite (H a) by (by left). f_equal. apply IH. intros x Hx. apply H. by right.
Qed.

Lemma flat_map_zeros {A} (k : nat) (l : list A) :
  flat_map (fun _ => replicate k 0%Z) l = replicate (length l * k) 0%Z.
Proof.
  induction l as [|a l IH]; [reflexivity|].
  simpl. by rewrite IH, replicate_add.
Qed.

Lemma padded_sample (b e : AudioBuffer) (channel i : nat) :
  Forall (fun ch => length ch = buf_length b) (channelData b) ->
  channelData e
    = (fun ch => ch ++ replicate (buf_length e - buf_length b) 0%Q) <$> channelData b ->
  channel < numberOfChannels b ->
  sample_at e channel i = if (i <? buf_length b)%nat then sample_at b channel i else 0%Q.
Proof.
  intros Hwf Hdata Hch. unfold sample_at. rewrite Hdata, list_lookup_fmap.
  destruct (channelData b !! channel) as [c|] eqn:Hc.
  2:{ apply lookup_ge_None in Hc. unfold numberOfChannels in Hch. lia. }
  cbn [fmap option_fmap option_map mbind option_bind].
  assert (Hlen : length c = buf_length b).
  { rewrite Forall_forall in Hwf. apply Hwf. by eapply list_elem_of_lookup_2. }
  destruct (Nat.ltb_spec i (buf_length b)) as [Hi|Hi].
  - by rewrite lookup_app_l by lia.
  - rewrite lookup_app_r by lia.
    destruct (replicate _ _ !! _) as [q|] eqn:Hq; [|reflexivity].
    apply lookup_replicate in Hq as [-> _]. reflexivity.
Qed.

(** X14.  The samples written for a padded clip are byte for byte those
    written for the original clip, followed by zero bytes only: two per
    channel for every added frame. *)
Theorem padded_clip_encodes_as_original_then_zeros (b e : AudioBuffer) (t : Q) :
  well_formed b ->
  channelData b <> [] ->
  (duration b < t)%Q ->
  extendBuffer b t = Some e ->
  pcm_data e
  = pcm_data b
    ++ replicate ((buf_length e - buf_length b) * (numberOfChannels b * 2)) 0%Z.
Proof.
  intros Hwf Hne Hlt He.
  destruct (extendBuffer_some b e t Hwf Hne He) as (_ & Hch & _ & Hgt & Hdata).
  unfold pcm_data. rewrite Hch.
  replace (buf_length e) with (buf_length b + (buf_length e - buf_length b)) at 1 by lia.
  rewrite seq_app, flat_map_app. cbn [Nat.add]. f_equal.
  - apply flat_map_ext_In. intros i Hi. apply in_seq in Hi.
    apply flat_map_ext_In. intros ch Hc. apply in_seq in Hc.
    rewrite (padded_sample b e ch i (proj2 Hwf) Hdata) by lia.
    destruct (Nat.ltb_spec i (buf_length b)); [reflexivity|lia].
  - rewrite (flat_map_ext_In _ (fun _ => replicate (numberOfChannels b * 2) 0%Z)).
    { by rewrite flat_map_zeros, length_seq. }
    intros i Hi. apply in_seq in Hi.
    rewrite (flat_map_ext_In _ (fun _ => replicate 2 0%Z)).
    { by rewrite flat_map_zeros, length_seq. }
    intros ch Hc. apply in_seq in Hc.
    rewrite (padded_sample b e ch i (proj2 Hwf) Hdata) by lia.
    destruct (Nat.ltb_spec i (buf_length b)); [lia|reflexivity].
Qed.

Lemma wav_sizes_are_consistent_witness :
  length (wav_bytes Samples.one_sample) = 46.
Proof.
  refine (proj1 (wav_sizes_are_consistent Samples.one_sample _)).
  vm_compute. reflexivity.
Defined.

Lemma padded_clip_encodes_as_original_then_zeros_witness :
  exists e, extendBuffer Samples.short_clip (1 # 10000) = Some e /\
            pcm_data e = pcm_data Samples.short_clip ++ [0; 0]%Z.
Proof.
  assert (Hwf : well_formed Samples.short_clip).
  { split; [reflexivity|]. repeat constructor. }
  eexists. split; [vm_compute; reflexivity|].
  refine (padded_clip_encodes_as_original_then_zeros Samples.short_clip _ (1 # 10000)
            Hwf _ _ _).
  - discriminate.
  - reflexivity.
  - vm_compute. reflexivity.
Defined.

End AudioExtenderExtra.

(** ** The export path, beyond single segments *)

Module VideoComposerExtra.
Import Js VideoComposer ProjectIO ComposeVideos.

Section Facts.
Variable ffmpeg_exec : list string -> gmap string (list Z) -> option (gmap string (list Z)).
Variable atob : string -> option (list Z).
Variable fetchFile : string -> option (list Z).

Local Abbreviation processVideo := (processVideo ffmpeg_exec atob fetchFile).
Local Abbreviation load_audio := (load_audio atob fetchFile).
Local Abbreviation mergeVideoAudio := (mergeVideoAudio ffmpeg_exec atob fetchFile).
Local Abbreviation composeVideos := (composeVideos ffmpeg_exec atob fetchFile).
Local Abbreviation process_from := (process_from ffmpeg_exec atob fetchFile).

(** What the audio-loading block can leave behind. *)
Lemma load_audio_cases (s : Session) (videoFile outputFile audioUrl : string) :
  match load_audio s videoFile outputFile audioUrl with
  | inl _ => True
  | inr (s', true) =>
      exists videoData, readFile s videoFile = Some videoData /\
                        files s' = <[outputFile := videoData]> (files s) /\
                        execs s' = execs s
  | inr (s', false) =>
      exists audio, files s' = <["temp_audio.mp3" := audio]> (files s) /\
                    execs s' = execs s
  end.
Proof.
  unfold VideoComposer.load_audio, copy_video, readFile.
  destruct (startsWith audioUrl "data:").
  - destruct (split_comma audioUrl !! 1) as [payload|].
    + destruct (negb (truthy payload) || (String.length payload =? 0)%nat).
      * cbn [files say]. destruct (files s !! videoFile) as [videoData|]; [|exact I].
        exists videoData. by repeat split.
      * destruct (atob payload) as [bytes|]; [|exact I]. exists bytes. by split.
    + cbn [files say]. destruct (files s !! videoFile) as [videoData|]; [|exact I].
      exists videoData. by repeat split.
  - destruct (fetchFile audioUrl) as [audioData|]; [|exact I]. exists audioData. by split.
Qed.

(** X15.  A segment that is reported as processed was handled in one of
    two ways.  Either no command ran and the output file holds the input
    bytes, nothing else being touched; or the segment carries speech,
    exactly the mux command ran, the temporary audio file is gone and the
    output file (any name but that of the temporary file) is not empty. *)
Theorem processed_segment_is_copied_or_muxed (s s' : Session)
    (videoFile outputFile : string) (audioUrl subtitle : option string) :
  processVideo s videoFile audioUrl subtitle outputFile = (s', inl tt) ->
  (exists videoData, readFile s videoFile = Some videoData /\
                     files s' = <[outputFile := videoData]> (files s) /\
                     execs s' = execs s) \/
  (hasAudio audioUrl = true /\
   execs s' = execs s ++ [mux_argv videoFile outputFile] /\
   readFile s' "temp_audio.mp3" = None /\
   (outputFile <> "temp_audio.mp3" ->
    exists byte rest, readFile s' outputFile = Some (byte :: rest))).
Proof.
  unfold VideoComposer.processVideo. cbv zeta.
  destruct (readFile s videoFile) as [videoData|] eqn:Hin; [|discriminate].
  destruct (hasAudio audioUrl) eqn:Ha; cbn [negb].
  - pose proof (load_audio_cases s videoFile outputFile (default "" audioUrl)) as Hl.
    destruct (load_audio s videoFile outputFile (default "" audioUrl))
      as [[]|[s1 [|]]].
    + unfold copy_video, readFile in *. cbn [files say]. rewrite Hin.
      intros H. inversion H; subst s'. left. exists videoData. by repeat split.
    + intros H. inversion H; subst s'. left.
      destruct Hl as (data & Hd & Hf & He). rewrite Hin in Hd. inversion Hd; subst data.
      exists videoData. by repeat split.
    + destruct Hl as (audio & Hf & He).
      set (s2 := if hasSubtitle subtitle then say s1 SUBTITLE_IGNORED else s1).
      assert (He2 : execs s2 = execs s)
        by (subst s2; destruct (hasSubtitle subtitle); exact He).
      unfold exec.
      destruct (ffmpeg_exec (mux_argv videoFile outputFile) (files s2)) as [fs|];
        [|discriminate].
      unfold readFile. cbn [files].
      destruct (fs !! outputFile) as [[|byte rest]|] eqn:Hout; try discriminate.
      intros H. inversion H; subst s'. right.
      cbn [deleteFile execs files]. rewrite He2.
      split; [reflexivity|]. split; [reflexivity|]. split; [apply lookup_delete_eq|].
      intros Hne. exists byte, rest. by rewrite lookup_delete_ne.
  - set (s1 := if hasSubtitle subtitle then say s SUBTITLE_IGNORED else s).
    assert (H1 : files s1 = files s /\ execs s1 = execs s)
      by (subst s1; by destruct (hasSubtitle subtitle)).
    destruct H1 as [Hf He].
    unfold copy_video, readFile in *. rewrite Hf, Hin. cbn [writeFile files].
    rewrite lookup_insert_eq. intros H. inversion H; subst s'. left.
    exists videoData. cbn [writeFile files execs]. by rewrite Hf, He.
Qed.

(** The commands a segment adds, whatever its outcome. *)
Lemma processVideo_commands (s : Session) (videoFile outputFile : string)
    (audioUrl subtitle : option string) :
  let r := processVideo s videoFile audioUrl subtitle outputFile in
  execs r.1 = execs s \/
  (hasAudio audioUrl = true /\ execs r.1 = execs s ++ [mux_argv videoFile outputFile]).
Proof.
  cbv zeta. unfold VideoComposer.processVideo. cbv zeta.
  destruct (readFile s videoFile) as [videoData|] eqn:Hin; [|by left].
  destruct (hasAudio audioUrl) eqn:Ha; cbn [negb].
  - pose proof (load_audio_cases s videoFile outputFile (default "" audioUrl)) as Hl.
    destruct (load_audio s videoFile outputFile (default "" audioUrl))
      as [[]|[s1 [|]]].
    + unfold copy_video, readFile in *. cbn [files say]. rewrite Hin. by left.
    + destruct Hl as (data & _ & _ & He). by left.
    + destruct Hl as (audio & _ & He). right. split; [reflexivity|].
      set (s2 := if hasSubtitle subtitle then say s1 SUBTITLE_IGNORED else s1).
      assert (He2 : execs s2 = execs s)
        by (subst s2; destruct (hasSubtitle subtitle); exact He).
      unfold exec.
      destruct (ffmpeg_exec (mux_argv videoFile outputFile) (files s2)) as [fs|];
        cbn [fst execs say]; [|by rewrite He2].
      unfold readFile. cbn [files].
      destruct (fs !! outputFile) as [[|byte rest]|]; cbn [fst execs say deleteFile];
        by rewrite He2.
  - left.
    set (s1 := if hasSubtitle subtitle then say s SUBTITLE_IGNORED else s).
    assert (H1 : files s1 = files s /\ execs s1 = execs s)
      by (subst s1; by destruct (hasSubtitle subtitle)).
    destruct H1 as [Hf He].
    unfold copy_video, readFile in *. rewrite Hf, Hin. cbn [writeFile files].
    by rewrite lookup_insert_eq.
Qed.

Lemma truthy_nonempty (a : string) : a <> "" -> truthy a && (0 <? String.length a)%nat = true.
Proof. destruct a; [congruence|reflexivity]. Qed.

(** X16.  The preview merger runs no command exactly when the video
    cannot be downloaded or speech is given and cannot be loaded; it then
    rejects, having logged the failure.  Unlike the export path it does not
    go on without the speech. *)
Theorem preview_merge_needs_both_inputs (videoUrl audioUrl : string)
    (subtitle : option string) :
  let r := mergeVideoAudio videoUrl audioUrl subtitle in
  (execs r.1 = [] <->
   fetchFile videoUrl = None \/
   (audioUrl <> "" /\ merge_audio_data atob fetchFile audioUrl = None)) /\
  (execs r.1 = [] ->
   (exists msg, r.2 = inr msg) /\ console r.1 = [Error "Video/audio merge failed:"]).
Proof.
  cbv zeta. unfold VideoComposer.mergeVideoAudio. cbv zeta.
  destruct (fetchFile videoUrl) as [videoData|].
  2:{ cbn. split; [split; [by left|done]|]. intros _. split; [by eexists|done]. }
  destruct (decide (audioUrl = "")) as [->|Hne].
  - cbn [truthy String.eqb negb andb]. unfold exec.
    destruct (truthy_opt subtitle);
      match goal with
      | |- context [ffmpeg_exec ?a ?f] => destruct (ffmpeg_exec a f) as [fs|]
      end; cbn [fst snd execs say writeFile app];
      try (unfold readFile; cbn [files];
           match goal with
           | |- context [?m !! "output.mp4"] => destruct (m !! "output.mp4")
           end; cbn [fst snd execs say]);
      (split; [split; [discriminate|intros [H|[H _]]; [discriminate|congruence]]
              |discriminate]).
  - rewrite (truthy_nonempty audioUrl Hne).
    destruct (merge_audio_data atob fetchFile audioUrl) as [audioData|].
    2:{ cbn. split; [split; [right; by split|done]|].
        intros _. split; [by eexists|done]. }
    unfold exec.
    destruct (truthy_opt subtitle);
      match goal with
      | |- context [ffmpeg_exec ?a ?f] => destruct (ffmpeg_exec a f) as [fs|]
      end; cbn [fst snd execs say writeFile app];
      try (unfold readFile; cbn [files];
           match goal with
           | |- context [?m !! "output.mp4"] => destruct (m !! "output.mp4")
           end; cbn [fst snd execs say]);
      (split; [split; [discriminate|intros [H|[_ H]]; discriminate]
              |discriminate]).
Qed.

Lemma unlink_execs (s s' : Session) (name : string) :
  unlink s name = Some s' -> execs s' = execs s /\ files s' = delete name (files s).
Proof.
  unfold unlink. destruct (readFile s name); [|discriminate].
  intros H. by inversion H.
Qed.

Lemma unlink_all_execs (names : list string) (s s' : Session) :
  unlink_all s names = Some s' -> execs s' = execs s.
Proof.
  revert s. induction names as [|file rest IH]; intros s; cbn [unlink_all].
  - intros H. by inversion H.
  - destruct (unlink s file) as [s1|] eqn:Hu; [|discriminate].
    intros H. apply IH in H. apply unlink_execs in Hu as [He _]. congruence.
Qed.

Lemma verify_resolved (processedFiles : list string) (s s' : Session) :
  verify s processedFiles = (s', inl tt) ->
  s' = s /\ Forall (fun file => is_Some (readFile s file)) processedFiles.
Proof.
  induction processedFiles as [|file rest IH]; cbn [verify].
  - intros H. by inversion H.
  - destruct (readFile s file) eqn:Hr; [|discriminate].
    intros H. destruct (IH H) as [-> Hall]. split; [reflexivity|].
    constructor; [by rewrite Hr|exact Hall].
Qed.

(** The first loop adds at most the mux of each segment that carries
    speech, in segment order, and names one processed file per segment. *)
Lemma process_from_resolved (videos : list VideoSegment) (s s1 : Session) (i : nat)
    (acc processedFiles : list string) :
  process_from s i videos acc = (s1, inl processedFiles) ->
  processedFiles = acc ++ (processedFile <$> seq i (length videos)) /\
  exists muxes, muxes `sublist_of` mux_commands i videos /\
                execs s1 = execs s ++ muxes.
Proof.
  revert s i acc.
  induction videos as [|video rest IH]; intros s i acc; cbn [ComposeVideos.process_from].
  - intros H. inversion H; subst. split; [by rewrite app_nil_r|].
    exists []. split; [constructor|by rewrite app_nil_r].
  - destruct (fetchFile (url video)) as [videoData|]; [|discriminate].
    cbv zeta.
    pose proof (processVideo_commands (writeFile s (inputFile i) videoData) (inputFile i)
                  (processedFile i) (seg_audioUrl video) (seg_subtitle video)) as Hc.
    cbv zeta in Hc.
    destruct (processVideo (writeFile s (inputFile i) videoData) (inputFile i)
                (seg_audioUrl video) (seg_subtitle video) (processedFile i))
      as [s2 [[]|msg]]; [|discriminate].
    cbn [fst execs writeFile] in Hc.
    destruct (unlink s2 (inputFile i)) as [s3|] eqn:Hu; [|discriminate].
    apply unlink_execs in Hu as [He3 _].
    intros H. destruct (IH _ _ _ H) as (-> & muxes & Hsub & He).
    split.
    { cbn [length seq fmap list_fmap]. by rewrite <- app_assoc. }
    cbn [mux_commands]. rewrite He, He3.
    destruct Hc as [Hc|[Ha Hc]]; rewrite Hc.
    + exists muxes. split; [|reflexivity]. by apply sublist_inserts_l.
    + exists (mux_argv (inputFile i) (processedFile i) :: muxes).
      split; [|by rewrite <- app_assoc].
      rewrite Ha. cbn [app]. by apply sublist_skip.
Qed.

(** X18.  An export that succeeds ran, on top of what the session had
    already run, at most one mux per segment that carries speech, in
    segment order, followed by the one concat command, which is left out
    exactly when there is a single segment. *)
Theorem export_command_budget (s s' : Session) (videos : list VideoSegment)
    (data : list Z) :
  composeVideos s videos = (s', inl data) ->
  exists muxes,
    muxes `sublist_of` mux_commands 0 videos /\
    execs s' = execs s ++ muxes
               ++ (if (length videos =? 1)%nat then [] else [concat_argv]).
Proof.
  unfold ComposeVideos.composeVideos. cbv zeta.
  destruct (process_from s 0 videos []) as [s1 [processedFiles|msg]] eqn:Hp;
    [|discriminate].
  apply process_from_resolved in Hp as (Hfiles & muxes & Hsub & He1).
  assert (Hlen : length processedFiles = length videos).
  { rewrite Hfiles. cbn [app]. by rewrite length_fmap, length_seq. }
  destruct (verify s1 processedFiles) as [s2 [[]|msg]] eqn:Hv; [|discriminate].
  apply verify_resolved in Hv as [-> _].
  rewrite Hlen.
  destruct (length videos =? 1)%nat.
  - destruct processedFiles as [|file ?]; [discriminate|].
    destruct (readFile s1 file); [|discriminate].
    destruct (unlink s1 file) as [s3|] eqn:Hu; [|discriminate].
    apply unlink_execs in Hu as [Hu _].
    intros Hr. inversion Hr; subst. exists muxes. split; [exact Hsub|].
    by rewrite Hu, He1, app_nil_r.
  - unfold exec. cbn [files writeFile execs].
    destruct (ffmpeg_exec concat_argv _) as [fs|]; [|discriminate].
    unfold readFile at 1. cbn [files].
    destruct (fs !! "output.mp4") as [out|]; [|discriminate].
    match goal with |- context [unlink_all ?x _] => set (s4 := x) end.
    destruct (unlink_all s4 processedFiles) as [s5|] eqn:H5; [|discriminate].
    destruct (unlink s5 "concat.txt") as [s6|] eqn:H6; [|discriminate].
    destruct (unlink s6 "output.mp4") as [s7|] eqn:H7; [|discriminate].
    apply unlink_all_execs in H5. apply unlink_execs in H6 as [H6 _].
    apply unlink_execs in H7 as [H7 _].
    intros Hr. inversion Hr; subst s7. exists muxes. split; [exact Hsub|].
    rewrite H7, H6, H5. subst s4. cbn [execs]. by rewrite He1, app_assoc.
Qed.

(** X17.  A single segment without usable speech is exported as the very
    bytes that were downloaded: no command runs, and neither the input nor
    the processed file is left in the session. *)
Theorem single_silent_clip_is_exported_unchanged (s : Session) (video : VideoSegment)
    (videoData : list Z) :
  fetchFile (url video) = Some videoData ->
  hasAudio (seg_audioUrl video) = false ->
  let r := composeVideos s [video] in
  r.2 = inl videoData /\
  execs r.1 = execs s /\
  files r.1 = delete "processed0.mp4" (delete "input0.mp4" (files s)).
Proof.
  intros Hfetch Hno. cbv zeta.
  unfold ComposeVideos.composeVideos. cbv zeta.
  cbn [ComposeVideos.process_from]. rewrite Hfetch. cbv zeta.
  change (inputFile 0) with "input0.mp4". change (processedFile 0) with "processed0.mp4".
  unfold VideoComposer.processVideo. cbv zeta.
  unfold readFile at 1. cbn [files writeFile]. rewrite lookup_insert_eq, Hno. cbn [negb].
  unfold copy_video, unlink, readFile.
  destruct (hasSubtitle (seg_subtitle video));
    repeat (cbn [files writeFile say deleteFile execs fst snd app verify length
                 Nat.eqb readFile];
            unfold readFile;
            repeat first [ rewrite lookup_insert_eq
                         | rewrite lookup_insert_ne by discriminate
                         | rewrite lookup_delete_ne by discriminate ]);
    (split; [reflexivity|]; split; [reflexivity|]).
  all: cbn [files].
  all: apply map_eq; intros k.
  all: destruct (decide (k = "processed0.mp4")), (decide (k = "input0.mp4"));
    by simplify_map_eq.
Qed.

Lemma length_append (a b : string) :
  String.length (String.append a b) = String.length a + String.length b.
Proof.
  induction a as [|c a IH]; [reflexivity|].
  change (String c a +:+ b) with (String c (a +:+ b)). cbn [String.length].
  by rewrite IH.
Qed.

Lemma append_inj_r (a b t : string) : String.append a t = String.append b t -> a = b.
Proof.
  revert b. induction a as [|c a IH]; intros [|d b] H.
  - reflexivity.
  - apply (f_equal String.length) in H. rewrite !length_append in H.
    cbn [String.length] in H. lia.
  - apply (f_equal String.length) in H. rewrite !length_append in H.
    cbn [String.length] in H. lia.
  - change (String c (a +:+ t) = String d (b +:+ t)) in H.
    inversion H; subst. f_equal. by apply IH.
Qed.

Lemma processedFile_inj (i j : nat) : processedFile i = processedFile j -> i = j.
Proof.
  unfold processedFile. intros H. apply String.app_inj in H.
  apply append_inj_r in H. by apply pretty_nat_inj in H.
Qed.

Lemma inputFile_inj (i j : nat) : inputFile i = inputFile j -> i = j.
Proof.
  unfold inputFile. intros H. apply String.app_inj in H.
  apply append_inj_r in H. by apply pretty_nat_inj in H.
Qed.

Lemma inputFile_not_processed (i j : nat) : inputFile i <> processedFile j.
Proof. unfold inputFile, processedFile. cbv [String.append]. discriminate. Qed.

Lemma concat_not_processed (i : nat) : "concat.txt" <> processedFile i.
Proof. unfold processedFile. cbv [String.append]. discriminate. Qed.

Lemma concat_not_input (i : nat) : "concat.txt" <> inputFile i.
Proof. unfold inputFile. cbv [String.append]. discriminate. Qed.

Lemma output_not_processed (i : nat) : "output.mp4" <> processedFile i.
Proof. unfold processedFile. cbv [String.append]. discriminate. Qed.

(** A segment without usable speech, on a session that holds its input. *)
Lemma processVideo_silent (s : Session) (videoFile outputFile : string)
    (audioUrl subtitle : option string) (videoData : list Z) :
  readFile s videoFile = Some videoData ->
  hasAudio audioUrl = false ->
  exists s', processVideo s videoFile audioUrl subtitle outputFile = (s', inl tt) /\
             files s' = <[outputFile := videoData]> (files s) /\ execs s' = execs s.
Proof.
  intros Hin Hno. unfold VideoComposer.processVideo. cbv zeta.
  rewrite Hin, Hno. cbn [negb].
  set (s1 := if hasSubtitle subtitle then say s SUBTITLE_IGNORED else s).
  assert (H1 : files s1 = files s /\ execs s1 = execs s)
    by (subst s1; by destruct (hasSubtitle subtitle)).
  destruct H1 as [Hf He].
  unfold copy_video, readFile in *. rewrite Hf, Hin. cbn [writeFile files].
  rewrite lookup_insert_eq. eexists. split; [reflexivity|].
  cbn [writeFile files execs]. by rewrite Hf, He.
Qed.

(** The first loop over segments without usable speech: nothing runs, each
    processed file holds the bytes of its segment, no input file is left,
    and no other file is touched. *)
Lemma process_from_silent (videos : list VideoSegment) (datas : list (list Z)) :
  Forall2 (silent_clip fetchFile) videos datas ->
  forall (s : Session) (i : nat) (acc : list string),
  exists s1,
    process_from s i videos acc
      = (s1, inl (acc ++ (processedFile <$> seq i (length videos)))) /\
    execs s1 = execs s /\
    (forall k d, datas !! k = Some d -> files s1 !! processedFile (i + k) = Some d) /\
    (forall k, k < length videos -> files s1 !! inputFile (i + k) = None) /\
    (forall name,
        (forall k, k < length videos ->
                   name <> inputFile (i + k) /\ name <> processedFile (i + k)) ->
        files s1 !! name = files s !! name).
Proof.
  induction 1 as [|video videoData rest datas [Hfetch Hno] _ IH]; intros s i acc.
  - exists s. cbn [ComposeVideos.process_from length seq fmap list_fmap].
    rewrite app_nil_r. repeat split; try done. intros k Hk. cbn in Hk. lia.
  - cbn [ComposeVideos.process_from]. rewrite Hfetch. cbv zeta.
    destruct (processVideo_silent (writeFile s (inputFile i) videoData) (inputFile i)
                (processedFile i) (seg_audioUrl video) (seg_subtitle video) videoData)
      as (s2 & -> & Hf2 & He2).
    { unfold readFile. cbn [files writeFile]. apply lookup_insert_eq. }
    { exact Hno. }
    cbn [files writeFile execs] in Hf2, He2.
    unfold unlink, readFile. rewrite Hf2.
    rewrite lookup_insert_ne
      by (intros E; symmetry in E; by apply inputFile_not_processed in E).
    rewrite lookup_insert_eq.
    destruct (IH (deleteFile s2 (inputFile i)) (S i) (acc ++ [processedFile i]))
      as (s1 & Hrun & He & Hproc & Hin & Hframe).
    exists s1. cbn [files deleteFile execs] in *.
    split; [rewrite Hrun; cbn [length seq fmap list_fmap]; by rewrite <- app_assoc|].
    split; [congruence|].
    assert (Hhere : forall name,
               files s2 !! name
               = if decide (name = processedFile i) then Some videoData
                 else if decide (name = inputFile i) then Some videoData
                 else files s !! name).
    { intros name. rewrite Hf2. repeat case_decide; by simplify_map_eq. }
    split; [|split].
    + intros [|k] d Hd.
      * cbn in Hd. inversion Hd; subst d. rewrite Nat.add_0_r.
        rewrite Hframe.
        -- rewrite lookup_delete_ne by apply inputFile_not_processed.
           rewrite Hhere. by rewrite decide_True.
        -- intros k _. split.
           ++ intros E. symmetry in E. by apply inputFile_not_processed in E.
           ++ intros E. apply processedFile_inj in E. lia.
      * cbn in Hd. replace (i + S k) with (S i + k) by lia. by apply Hproc.
    + intros [|k] Hk.
      * rewrite Nat.add_0_r. rewrite Hframe.
        -- apply lookup_delete_eq.
        -- intros k _. split.
           ++ intros E. apply inputFile_inj in E. lia.
           ++ apply inputFile_not_processed.
      * replace (i + S k) with (S i + k) by lia. apply Hin. cbn in Hk. lia.
    + intros name Hname.
      destruct (Hname 0) as [Hn1 Hn2]; [cbn; lia|]. rewrite Nat.add_0_r in Hn1, Hn2.
      rewrite Hframe.
      * rewrite lookup_delete_ne by done. rewrite Hhere.
        by rewrite !decide_False.
      * intros k Hk. replace (S i + k) with (i + S k) by lia. apply Hname. cbn. lia.
Qed.

Lemma verify_present (names : list string) (s : Session) :
  Forall (fun name => is_Some (files s !! name)) names -> verify s names = (s, inl tt).
Proof.
  induction 1 as [|name rest [d Hd] _ IH]; cbn [verify]; [reflexivity|].
  unfold readFile. by rewrite Hd.
Qed.

(** The cleanup loop on files that are all there. *)
Lemma unlink_all_present (names : list string) (s : Session) :
  NoDup names ->
  Forall (fun name => is_Some (files s !! name)) names ->
  exists s', unlink_all s names = Some s' /\
             forall name, files s' !! name
                          = if decide (name ∈ names) then None else files s !! name.
Proof.
  revert s. induction names as [|file rest IH]; intros s Hnd Hall.
  - exists s. split; [reflexivity|]. intros name.
    rewrite decide_False; [reflexivity|]. by intros ?%elem_of_nil.
  - apply NoDup_cons in Hnd as [Hnotin Hnd]. apply Forall_cons in Hall as [[d Hd] Hall].
    cbn [unlink_all]. unfold unlink, readFile. rewrite Hd.
    destruct (IH (deleteFile s file) Hnd) as (s' & Hrun & Hf).
    { rewrite Forall_forall in Hall |- *. intros name Hname. cbn [files deleteFile].
      rewrite lookup_delete_ne by (intros E; apply Hnotin; by rewrite E).
      by apply Hall. }
    exists s'. split; [exact Hrun|]. intros name. rewrite Hf. cbn [files deleteFile].
    destruct (decide (name = file)) as [->|Hne].
    + rewrite lookup_delete_eq.
      rewrite (decide_True (P := file ∈ file :: rest)) by apply list_elem_of_here.
      by destruct (decide (file ∈ rest)).
    + rewrite lookup_delete_ne by done.
      destruct (decide (name ∈ rest)) as [Hr|Hr].
      * by rewrite decide_True by (by apply list_elem_of_further).
      * rewrite decide_False; [reflexivity|]. by intros [?|?]%elem_of_cons.
Qed.

Lemma processed_names_NoDup (n : nat) : NoDup (processedFile <$> seq 0 n).
Proof.
  apply NoDup_fmap_2; [|apply NoDup_seq].
  intros i j. apply processedFile_inj.
Qed.

(** X19.  Segments without usable speech, when there is not exactly one
    of them: the only command is the concat, and it runs on a file system
    in which [processed<k>.mp4] holds the downloaded bytes of segment [k],
    [concat.txt] lists these files in segment order and no input file is
    left.  If the command fails the export rejects; if it leaves the
    listed files in place and writes [output.mp4], the export returns that
    file's bytes and removes what it created. *)
Theorem silent_clips_are_concatenated_in_order (s : Session)
    (videos : list VideoSegment) (datas : list (list Z)) :
  length videos <> 1 ->
  Forall2 (silent_clip fetchFile) videos datas ->
  let names := processedFile <$> seq 0 (length videos) in
  let r := composeVideos s videos in
  exists fs0 : gmap string (list Z),
    (forall k d, datas !! k = Some d -> fs0 !! processedFile k = Some d) /\
    fs0 !! "concat.txt" = Some (utf8 (concatList names)) /\
    (forall k, k < length videos -> fs0 !! inputFile k = None) /\
    execs r.1 = execs s ++ [concat_argv] /\
    (ffmpeg_exec concat_argv fs0 = None -> exists msg, r.2 = inr msg) /\
    (forall fs out,
        ffmpeg_exec concat_argv fs0 = Some fs ->
        fs !! "output.mp4" = Some out ->
        Forall (fun name => is_Some (fs !! name)) ("concat.txt" :: names) ->
        r.2 = inl out /\
        forall name,
          files r.1 !! name
          = if decide (name ∈ "output.mp4" :: "concat.txt" :: names) then None
            else fs !! name).
Proof.
  intros Hlen Hsilent. cbv zeta.
  destruct (process_from_silent videos datas Hsilent s 0 [])
    as (s1 & Hrun & He1 & Hproc & Hin & _).
  cbn [app Nat.add] in Hrun, Hproc, Hin.
  set (names := processedFile <$> seq 0 (length videos)) in *.
  assert (Hnames : length names = length videos)
    by (subst names; by rewrite length_fmap, length_seq).
  assert (Hpresent : Forall (fun name => is_Some (files s1 !! name)) names).
  { subst names. rewrite Forall_fmap, Forall_forall. intros k Hk%elem_of_seq.
    cbn [compose]. apply Forall2_length in Hsilent.
    destruct (lookup_lt_is_Some_2 datas k) as [d Hd]; [lia|].
    rewrite (Hproc k d Hd). by eexists. }
  exists (<["concat.txt" := utf8 (concatList names)]> (files s1)).
  assert (Hcompose :
    composeVideos s videos
    = let s3 := writeFile s1 "concat.txt" (utf8 (concatList names)) in
      match exec ffmpeg_exec s3 concat_argv with
      | (s4, false) => (say s4 COMPOSITION_ERROR, inr "exec failed")
      | (s4, true) =>
          match readFile s4 "output.mp4" with
          | None => (say s4 COMPOSITION_ERROR, inr "readFile failed")
          | Some data =>
              match unlink_all s4 names with
              | None => (say s4 COMPOSITION_ERROR, inr "deleteFile failed")
              | Some s5 =>
                  match unlink s5 "concat.txt" with
                  | None => (say s5 COMPOSITION_ERROR, inr "deleteFile failed")
                  | Some s6 =>
                      match unlink s6 "output.mp4" with
                      | None => (say s6 COMPOSITION_ERROR, inr "deleteFile failed")
                      | Some s7 => (s7, inl data)
                      end
                  end
              end
          end
      end).
  { unfold ComposeVideos.composeVideos. cbv zeta.
    rewrite Hrun, (verify_present _ _ Hpresent), Hnames.
    destruct (Nat.eqb_spec (length videos) 1) as [E|_]; [contradiction|reflexivity]. }
  rewrite Hcompose. clear Hcompose. cbv zeta.
  split; [|split; [|split]].
  - intros k d Hd. rewrite lookup_insert_ne by apply concat_not_processed.
    by apply Hproc.
  - apply lookup_insert_eq.
  - intros k Hk. rewrite lookup_insert_ne by apply concat_not_input.
    by apply Hin.
  - unfold exec. cbn [files writeFile execs console].
    destruct (ffmpeg_exec concat_argv _) as [fs|] eqn:Hexec.
    2:{ cbn [fst snd execs say]. rewrite He1.
        split; [reflexivity|]. split; [by eexists|]. discriminate. }
    unfold readFile. cbn [files].
    set (s4 := {| files := fs; execs := execs s1 ++ [concat_argv]; console := console s1 |}).
    assert (He4 : execs s4 = execs s ++ [concat_argv]) by (subst s4; cbn; by rewrite He1).
    split.
    { destruct (fs !! "output.mp4") as [out|]; [|exact He4].
      destruct (unlink_all s4 names) as [s5|] eqn:H5; [|exact He4].
      apply unlink_all_execs in H5.
      destruct (unlink s5 "concat.txt") as [s6|] eqn:H6;
        [|cbn [fst execs say]; by rewrite H5].
      apply unlink_execs in H6 as [H6 _].
      destruct (unlink s6 "output.mp4") as [s7|] eqn:H7;
        [|cbn [fst execs say]; by rewrite H6, H5].
      apply unlink_execs in H7 as [H7 _].
      cbn [fst]. by rewrite H7, H6, H5. }
    split; [discriminate|].
    intros fs' out Hfs Hout Hkept. inversion Hfs; subst fs'. rewrite Hout.
    apply Forall_cons in Hkept as [[c Hc] Hkept].
    destruct (unlink_all_present names s4 (processed_names_NoDup _) Hkept)
      as (s5 & -> & Hf5).
    subst s4. cbn [files] in Hf5.
    assert (Hcn : "concat.txt" ∉ names).
    { subst names. intros (k & E & _)%list_elem_of_fmap. by apply concat_not_processed in E. }
    assert (Hon : "output.mp4" ∉ names).
    { subst names. intros (k & E & _)%list_elem_of_fmap. by apply output_not_processed in E. }
    unfold unlink, readFile.
    rewrite (Hf5 "concat.txt"), decide_False, Hc by done.
    cbn [files deleteFile].
    rewrite lookup_delete_ne by discriminate.
    rewrite (Hf5 "output.mp4"), decide_False, Hout by done.
    cbn [fst snd files deleteFile]. split; [reflexivity|].
    intros name.
    destruct (decide (name = "output.mp4")) as [->|Hn1].
    { rewrite lookup_delete_eq. by rewrite decide_True by apply list_elem_of_here. }
    rewrite lookup_delete_ne by done.
    destruct (decide (name = "concat.txt")) as [->|Hn2].
    { rewrite lookup_delete_eq.
      by rewrite decide_True by apply list_elem_of_further, list_elem_of_here. }
    rewrite lookup_delete_ne by done. rewrite Hf5.
    destruct (decide (name ∈ names)) as [Hr|Hr].
    + by rewrite decide_True by (by do 2 apply list_elem_of_further).
    + rewrite decide_False; [reflexivity|].
      by intros [?|[?|?]%elem_of_cons]%elem_of_cons.
Qed.

End Facts.

Lemma processed_segment_is_copied_or_muxed_witness :
  let r := processVideo Samples.stub_exec Samples.atob_ok Samples.fetch_ok
             Samples.one_clip "input0.mp4" (Some "data:audio/wav;base64,SUQz") None
             "processed0.mp4" in
  (exists videoData, readFile Samples.one_clip "input0.mp4" = Some videoData /\
                     files r.1 = <["processed0.mp4" := videoData]> (files Samples.one_clip) /\
                     execs r.1 = execs Samples.one_clip) \/
  (hasAudio (Some "data:audio/wav;base64,SUQz") = true /\
   execs r.1 = execs Samples.one_clip ++ [mux_argv "input0.mp4" "processed0.mp4"] /\
   readFile r.1 "temp_audio.mp3" = None /\
   ("processed0.mp4" <> "temp_audio.mp3" ->
    exists byte rest, readFile r.1 "processed0.mp4" = Some (byte :: rest))).
Proof.
  cbv zeta.
  refine (processed_segment_is_copied_or_muxed Samples.stub_exec Samples.atob_ok
            Samples.fetch_ok Samples.one_clip _ "input0.mp4" "processed0.mp4"
            (Some "data:audio/wav;base64,SUQz") None _).
  vm_compute. reflexivity.
Defined.

Lemma single_silent_clip_is_exported_unchanged_witness :
  (composeVideos Samples.stub_exec Samples.atob_ok Samples.fetch_ok
     Examples.fresh_session [Examples.silent_segment]).2
  = inl Samples.clip_bytes.
Proof.
  refine (proj1 (single_silent_clip_is_exported_unchanged Samples.stub_exec
                   Samples.atob_ok Samples.fetch_ok Examples.fresh_session
                   Examples.silent_segment Samples.clip_bytes _ _)).
  - reflexivity.
  - reflexivity.
Defined.

Lemma export_command_budget_witness :
  exists muxes,
    muxes `sublist_of` mux_commands 0 [Examples.silent_segment; Examples.spoken_segment] /\
    execs (composeVideos Samples.stub_exec Samples.atob_ok Samples.fetch_ok
             Examples.fresh_session
             [Examples.silent_segment; Examples.spoken_segment]).1
    = execs Examples.fresh_session ++ muxes ++ [concat_argv].
Proof.
  refine (export_command_budget Samples.stub_exec Samples.atob_ok Samples.fetch_ok
            Examples.fresh_session _
            [Examples.silent_segment; Examples.spoken_segment] [1; 2; 3]%Z _).
  vm_compute. reflexivity.
Defined.

Lemma silent_clips_are_concatenated_in_order_witness :
  exists fs0 : gmap string (list Z),
    fs0 !! "concat.txt"
    = Some (utf8 (concatList ["processed0.mp4"; "processed1.mp4"])) /\
    execs (composeVideos Samples.stub_exec Samples.atob_ok Samples.fetch_ok
             Examples.fresh_session
             [Examples.silent_segment; Examples.silent_segment]).1
    = [concat_argv].
Proof.
  destruct (silent_clips_are_concatenated_in_order Samples.stub_exec Samples.atob_ok
              Samples.fetch_ok Examples.fresh_session
              [Examples.silent_segment; Examples.silent_segment]
              [Samples.clip_bytes; Samples.clip_bytes])
    as (fs0 & _ & Hlist & _ & Hcmds & _).
  - discriminate.
  - repeat constructor.
  - exists fs0. split; [exact Hlist|exact Hcmds].
Defined.

End VideoComposerExtra.

(** ** Identifiers for imported stories *)

Module IdGeneratorProps.
Import Js StoryStore IdGenerator.

Section Facts.
Variable timestamp : nat -> string.
Variable random : nat -> string.

Local Abbreviation shots_with_ids := (shots_with_ids timestamp random).
Local Abbreviation scene_with_ids := (scene_with_ids timestamp random).
Local Abbreviation scenes_with_ids := (scenes_with_ids timestamp random).
Local Abbreviation addIdsToStory := (addIdsToStory timestamp random).

Lemma generated_id_truthy (prefix : string) (n : nat) :
  prefix <> "" -> truthy (generateUniqueId timestamp random prefix n) = true.
Proof. destruct prefix; [congruence|reflexivity]. Qed.

Lemma shots_with_ids_spec (l : list Shot) (n : nat) :
  let r := shots_with_ids n l in
  Forall2 shot_kept l r.1 /\
  r.2 = n + length (List.filter (fun shot => negb (truthy (id shot))) l).
Proof.
  revert n. induction l as [|shot rest IH]; intros n; cbn [IdGenerator.shots_with_ids].
  - cbn. split; [constructor|lia].
  - unfold shot_with_id.
    destruct (truthy (id shot)) eqn:Hid.
    + specialize (IH n). cbv zeta in IH.
      destruct (shots_with_ids n rest) as [rest' n2]. cbn [fst snd] in *.
      destruct IH as [IH1 IH2]. cbn [List.filter]. rewrite Hid. cbn [negb].
      split; [|exact IH2]. constructor; [|exact IH1].
      split; [exact Hid|by rewrite Hid].
    + specialize (IH (S n)). cbv zeta in IH.
      destruct (shots_with_ids (S n) rest) as [rest' n2]. cbn [fst snd] in *.
      destruct IH as [IH1 IH2]. cbn [List.filter]. rewrite Hid. cbn [negb length].
      split; [|lia]. constructor; [|exact IH1].
      split; [by apply generated_id_truthy|by rewrite Hid].
Qed.

Lemma shots_with_ids_complete (l : list Shot) (n : nat) :
  Forall (fun shot => truthy (id shot) = true) l -> shots_with_ids n l = (l, n).
Proof.
  induction 1 as [|shot rest Hid _ IH]; cbn [IdGenerator.shots_with_ids]; [reflexivity|].
  unfold shot_with_id. by rewrite Hid, IH.
Qed.

Lemma shot_kept_ids (l l' : list Shot) :
  Forall2 shot_kept l l' -> Forall (fun shot => truthy (id shot) = true) l'.
Proof. induction 1 as [|? ? ? ? [H _]]; constructor; auto. Qed.

Lemma scene_kept_ids (scene scene' : Scene) : scene_kept scene scene' -> no_missing scene'.
Proof. intros (H1 & _ & _ & _ & H2). split; [exact H1|]. by eapply shot_kept_ids. Qed.

Lemma scenes_with_ids_spec (l : list Scene) (n : nat) :
  let r := scenes_with_ids n l in
  Forall2 scene_kept l r.1 /\
  r.2 = n + length (List.filter (fun scene => negb (truthy (scene_id scene))) l)
          + length (List.filter (fun shot => negb (truthy (id shot))) (concat (shots <$> l))).
Proof.
  revert n. induction l as [|scene rest IH]; intros n; cbn [IdGenerator.scenes_with_ids].
  - cbn. split; [constructor|lia].
  - unfold IdGenerator.scene_with_ids.
    cbn [fmap list_fmap concat List.filter]. rewrite List.filter_app, length_app.
    destruct (truthy (scene_id scene)) eqn:Hid; cbn [negb].
    + pose proof (shots_with_ids_spec (shots scene) n) as Hs. cbv zeta in Hs.
      destruct (shots_with_ids n (shots scene)) as [shots' n2]. cbn [fst snd] in Hs.
      destruct Hs as [Hs1 ->].
      specialize (IH (n + length (List.filter (fun shot => negb (truthy (id shot)))
                                    (shots scene)))).
      cbv zeta in IH.
      destruct (scenes_with_ids _ rest) as [rest' n3]. cbn [fst snd] in *.
      destruct IH as [IH1 ->]. split; [|lia].
      constructor; [|exact IH1]. by repeat split.
    + pose proof (shots_with_ids_spec (shots scene) (S n)) as Hs. cbv zeta in Hs.
      destruct (shots_with_ids (S n) (shots scene)) as [shots' n2]. cbn [fst snd] in Hs.
      destruct Hs as [Hs1 ->].
      specialize (IH (S n + length (List.filter (fun shot => negb (truthy (id shot)))
                                      (shots scene)))).
      cbv zeta in IH.
      destruct (scenes_with_ids _ rest) as [rest' n3]. cbn [fst snd] in *.
      destruct IH as [IH1 ->]. split; [|cbn [length]; lia].
      constructor; [|exact IH1].
      split; [by apply generated_id_truthy|]. split; [congruence|]. by repeat split.
Qed.

Lemma scenes_with_ids_complete (l : list Scene) (n : nat) :
  Forall no_missing l -> scenes_with_ids n l = (l, n).
Proof.
  induction 1 as [|scene rest [Hid Hshots] _ IH]; cbn [IdGenerator.scenes_with_ids];
    [reflexivity|].
  unfold IdGenerator.scene_with_ids.
  rewrite Hid, (shots_with_ids_complete _ _ Hshots), IH. by destruct scene.
Qed.

Lemma filter_none {A} (p : A -> bool) (l : list A) :
  Forall (fun x => p x = true) l -> List.filter (fun x => negb (p x)) l = [].
Proof. induction 1 as [|x l Hx _ IH]; cbn [List.filter]; [reflexivity|]. by rewrite Hx. Qed.

Lemma no_missing_count (l : list Scene) :
  Forall no_missing l ->
  List.filter (fun scene => negb (truthy (scene_id scene))) l = [] /\
  List.filter (fun shot => negb (truthy (id shot))) (concat (shots <$> l)) = [].
Proof.
  induction 1 as [|scene rest [Hid Hshots] _ [IH1 IH2]]; [by split|].
  cbn [List.filter fmap list_fmap concat]. rewrite Hid, List.filter_app, IH1, IH2.
  cbn [negb]. split; [reflexivity|]. by rewrite (filter_none _ _ Hshots).
Qed.

(** X20.  [addIdsToStory] fills exactly the ids that are missing: every
    scene and shot comes out with a non-empty id, one id is generated for
    each scene and each shot that had none, whatever had an id is returned
    as it was, and a second pass generates nothing and changes nothing. *)
Theorem addIdsToStory_fills_exactly_the_missing_ids (story : StoryData) (n : nat) :
  let r := addIdsToStory n story in
  missing_ids r.1 = 0 /\
  r.2 = n + missing_ids story /\
  Forall2 scene_kept (scenes story) (scenes r.1) /\
  characters r.1 = characters story /\
  (forall m, addIdsToStory m r.1 = (r.1, m)) /\
  (missing_ids story = 0 -> r.1 = story).
Proof.
  cbv zeta. unfold IdGenerator.addIdsToStory, missing_ids, getAllShots.
  pose proof (scenes_with_ids_spec (scenes story) n) as H. cbv zeta in H.
  destruct (scenes_with_ids n (scenes story)) as [scenes' n'] eqn:E.
  cbn [fst snd scenes with_scenes characters] in *.
  destruct H as [Hkept ->].
  assert (Hall : Forall no_missing scenes').
  { clear E. induction Hkept as [|? ? ? ? Hk]; constructor; auto.
    by eapply scene_kept_ids. }
  destruct (no_missing_count _ Hall) as [E1 E2].
  split; [by rewrite E1, E2|]. split; [lia|]. split; [exact Hkept|].
  split; [reflexivity|]. split.
  - intros m. by rewrite (scenes_with_ids_complete _ m Hall).
  - intros Hnone.
    assert (Hin : Forall no_missing (scenes story)).
    { clear E Hkept Hall E1 E2 scenes'.
      induction (scenes story) as [|scene rest IH]; [constructor|].
      cbn [List.filter fmap list_fmap concat] in Hnone.
      rewrite List.filter_app, length_app in Hnone.
      destruct (truthy (scene_id scene)) eqn:Hid; cbn [negb length] in Hnone; [|lia].
      constructor.
      - split; [exact Hid|].
        assert (H0 : length (List.filter (fun shot => negb (truthy (id shot)))
                               (shots scene)) = 0) by lia.
        clear -H0. induction (shots scene) as [|shot l IHl]; [constructor|].
        cbn [List.filter] in H0.
        destruct (truthy (id shot)) eqn:Hs; cbn [negb length] in H0; [|lia].
        constructor; auto.
      - apply IH. lia. }
    rewrite (scenes_with_ids_complete _ n Hin) in E. inversion E; subst.
    by destruct story.
Qed.

End Facts.

End IdGeneratorProps.

(** ** The model cache *)

Module ModelCacheProps.
Import Js ModelCache.

Section Facts.
Context {T : Type}.
Implicit Types (cache : Cache T) (key : string) (now : Z).

Lemma map_get_set {V} (key : string) (v : V) (m : list (string * V)) :
  map_get key (map_set key v m) = Some v.
Proof.
  induction m as [|[k v'] rest IH]; cbn [map_set map_get].
  - by rewrite String.eqb_refl.
  - destruct (String.eqb k key) eqn:E; cbn [map_get]; by rewrite E.
Qed.

Lemma map_get_set_ne {V} (key key' : string) (v : V) (m : list (string * V)) :
  key <> key' -> map_get key' (map_set key v m) = map_get key' m.
Proof.
  intros Hne. induction m as [|[k v'] rest IH]; cbn [map_set map_get].
  - by rewrite (proj2 (String.eqb_neq key key') Hne).
  - destruct (String.eqb k key) eqn:E; cbn [map_get].
    + apply String.eqb_eq in E. subst k.
      by rewrite (proj2 (String.eqb_neq key key') Hne).
    + by rewrite IH.
Qed.

Lemma map_get_delete {V} (key : string) (m : list (string * V)) :
  NoDup (fst <$> m) -> map_get key (map_delete key m) = None.
Proof.
  induction m as [|[k v] rest IH]; intros Hnd; cbn [map_delete map_get]; [reflexivity|].
  cbn [fmap list_fmap fst] in Hnd. apply NoDup_cons in Hnd as [Hk Hnd].
  destruct (String.eqb k key) eqn:E; cbn [map_get].
  - apply String.eqb_eq in E. subst k.
    clear -Hk. induction rest as [|[k v'] rest IH]; [reflexivity|].
    cbn [fmap list_fmap fst] in Hk. apply not_elem_of_cons in Hk as [Hne Hk].
    cbn [map_get]. rewrite (proj2 (String.eqb_neq k key)) by congruence. by apply IH.
  - rewrite E. by apply IH.
Qed.

Lemma map_set_keys {V} (key : string) (v : V) (m : list (string * V)) :
  fst <$> map_set key v m
  = if bool_decide (key ∈ fst <$> m) then fst <$> m else (fst <$> m) ++ [key].
Proof.
  induction m as [|[k v'] rest IH]; cbn [map_set fmap list_fmap fst]; [reflexivity|].
  destruct (String.eqb k key) eqn:E.
  - apply String.eqb_eq in E. subst k. cbn [fmap list_fmap fst].
    by rewrite bool_decide_eq_true_2 by apply list_elem_of_here.
  - apply String.eqb_neq in E. cbn [fmap list_fmap fst]. rewrite IH.
    destruct (bool_decide (key ∈ fst <$> rest)) eqn:B.
    + apply bool_decide_eq_true in B.
      by rewrite bool_decide_eq_true_2 by (by apply list_elem_of_further).
    + apply bool_decide_eq_false in B.
      rewrite bool_decide_eq_false_2; [reflexivity|].
      intros [?|?]%elem_of_cons; [congruence|done].
Qed.

Lemma map_delete_filter {V} (key : string) (m : list (string * V)) :
  NoDup (fst <$> m) ->
  map_delete key m = List.filter (fun p => negb (String.eqb p.1 key)) m.
Proof.
  induction m as [|[k v] rest IH]; intros Hnd; cbn [map_delete List.filter fst];
    [reflexivity|].
  cbn [fmap list_fmap fst] in Hnd. apply NoDup_cons in Hnd as [Hk Hnd].
  destruct (String.eqb k key) eqn:E; cbn [negb].
  - apply String.eqb_eq in E. subst k.
    clear -Hk. induction rest as [|[k v'] rest IH]; [reflexivity|].
    cbn [fmap list_fmap fst] in Hk. apply not_elem_of_cons in Hk as [Hne Hk].
    cbn [List.filter fst]. rewrite (proj2 (String.eqb_neq k key)) by congruence.
    cbn [negb]. f_equal. by apply IH.
  - f_equal. by apply IH.
Qed.

Lemma filter_keys_NoDup {V} (p : string * V -> bool) (m : list (string * V)) :
  NoDup (fst <$> m) -> NoDup (fst <$> List.filter p m).
Proof.
  induction m as [|x rest IH]; intros Hnd; cbn [List.filter]; [constructor|].
  cbn [fmap list_fmap] in Hnd. apply NoDup_cons in Hnd as [Hk Hnd].
  destruct (p x); [|by apply IH].
  cbn [fmap list_fmap]. apply NoDup_cons. split; [|by apply IH].
  intros (y & Hy & Hin)%list_elem_of_fmap. apply Hk.
  apply list_elem_of_fmap. exists y. split; [exact Hy|].
  apply list_elem_of_In in Hin. apply List.filter_In in Hin as [Hin _].
  by apply list_elem_of_In.
Qed.

Lemma filter_filter {A} (p q : A -> bool) (l : list A) :
  List.filter p (List.filter q l) = List.filter (fun x => q x && p x) l.
Proof.
  induction l as [|x l IH]; cbn [List.filter]; [reflexivity|].
  destruct (q x); cbn [List.filter andb]; [|exact IH]. destruct (p x); by rewrite IH.
Qed.

Lemma filter_ext_In {A} (p q : A -> bool) (l : list A) :
  (forall x, In x l -> p x = q x) -> List.filter p l = List.filter q l.
Proof.
  induction l as [|x l IH]; intros H; cbn [List.filter]; [reflexivity|].
  rewrite (H x) by (by left). rewrite IH; [reflexivity|]. intros y Hy. apply H. by right.
Qed.

(** The cleanup loop, entry by entry of the snapshot. *)
Lemma cleanup_loop (now : Z) (snapshot : Cache T) (cache : Cache T) :
  well_keyed cache ->
  fold_left
    (fun c '(key, entry) => if expired now entry then map_delete key c else c)
    snapshot cache
  = List.filter
      (fun p => negb (existsb (fun q => String.eqb p.1 q.1 && expired now q.2) snapshot))
      cache.
Proof.
  revert cache. induction snapshot as [|[k e] rest IH]; intros cache Hnd; cbn [fold_left].
  - cbn [existsb negb]. clear. induction cache as [|x l IHl]; [reflexivity|].
    cbn [List.filter]. by f_equal.
  - destruct (expired now e) eqn:He.
    + rewrite IH by (rewrite map_delete_filter by exact Hnd; by apply filter_keys_NoDup).
      rewrite map_delete_filter by exact Hnd. rewrite filter_filter.
      apply filter_ext_In. intros [k' e'] _. cbn [existsb fst snd]. rewrite He.
      rewrite andb_true_r, negb_orb. reflexivity.
    + rewrite IH by exact Hnd. apply filter_ext_In. intros [k' e'] _.
      cbn [existsb fst snd]. rewrite He. by rewrite andb_false_r.
Qed.

Lemma cleanup_filter (cache : Cache T) (now : Z) :
  well_keyed cache ->
  cleanup cache now = List.filter (fun p => negb (expired now p.2)) cache.
Proof.
  intros Hnd. unfold cleanup. rewrite cleanup_loop by exact Hnd.
  apply filter_ext_In. intros [k e] Hin. cbn [fst snd]. f_equal.
  unfold well_keyed in Hnd. clear -Hnd Hin.
  induction cache as [|[k' e'] rest IH]; [destruct Hin|].
  cbn [fmap list_fmap fst] in Hnd. apply NoDup_cons in Hnd as [Hk Hnd].
  cbn [existsb fst snd]. destruct Hin as [E|Hin].
  - inversion E; subst. rewrite String.eqb_refl. cbn [andb].
    destruct (expired now e); [reflexivity|]. cbn [orb].
    clear -Hk. induction rest as [|[k' e'] rest IH]; [reflexivity|].
    cbn [fmap list_fmap fst] in Hk. apply not_elem_of_cons in Hk as [Hne Hk].
    cbn [existsb fst snd]. rewrite (proj2 (String.eqb_neq k k')) by congruence.
    cbn [andb orb]. by apply IH.
  - assert (Hne : k <> k').
    { intros ->. apply Hk. apply list_elem_of_fmap. exists (k', e).
      split; [reflexivity|]. by apply list_elem_of_In. }
    rewrite (proj2 (String.eqb_neq k k')) by exact Hne. cbn [andb orb].
    by apply IH.
Qed.

Lemma set_well_keyed (cache : Cache T) (now : Z) (key : string) (d : T) (ttl : option Z) :
  well_keyed cache -> well_keyed (set cache now key d ttl).
Proof.
  unfold well_keyed, set. intros Hnd. rewrite map_set_keys.
  destruct (bool_decide (key ∈ fst <$> cache)) eqn:B; [exact Hnd|].
  apply bool_decide_eq_false in B. apply NoDup_app. split; [exact Hnd|].
  split; [|apply NoDup_singleton].
  intros k Hk ->%list_elem_of_singleton. contradiction.
Qed.

(** X21.  An entry stored at [now] with a lifetime is served by [get]
    and [has] at every time up to and including [now + ttl], leaving the
    cache as it is; at any later time the first [get] or [has] answers
    "absent" and removes the entry.  [getAge] reports the age of the entry
    as long as it has not been removed, expired or not.  Other keys read
    as before the store, and the keys stay distinct. *)
Theorem entry_is_served_until_it_expires (cache : Cache T) (now now' : Z)
    (key : string) (d : T) (ttl : option Z) :
  let c := set cache now key d ttl in
  let expires := (now + default defaultTTL ttl)%Z in
  ((now' <= expires)%Z -> get c now' key = (Some d, c) /\ has c now' key = (true, c)) /\
  ((expires < now')%Z ->
     get c now' key = (None, map_delete key c) /\
     has c now' key = (false, map_delete key c)) /\
  getAge c now' key = Some (now' - now)%Z /\
  (forall key', key <> key' ->
     (get c now' key').1 = (get cache now' key').1 /\
     getAge c now' key' = getAge cache now' key') /\
  (well_keyed cache -> well_keyed c).
Proof.
  cbv zeta. split; [|split; [|split; [|split]]]; [| | | |apply set_well_keyed].
  all: unfold get, has, getAge, set.
  all: rewrite ?map_get_set; unfold expired; cbn [expiresAt data timestamp].
  all: repeat split.
  - destruct (Z.ltb_spec (now + default defaultTTL ttl) now'); [lia|reflexivity].
  - destruct (Z.ltb_spec (now + default defaultTTL ttl) now'); [lia|reflexivity].
  - destruct (Z.ltb_spec (now + default defaultTTL ttl) now'); [reflexivity|lia].
  - destruct (Z.ltb_spec (now + default defaultTTL ttl) now'); [reflexivity|lia].
  - rewrite map_get_set_ne by done.
    destruct (map_get key' cache) as [entry|]; [|reflexivity].
    by destruct (expiresAt entry <? now')%Z.
  - by rewrite map_get_set_ne.
Qed.

(** X22.  [getStats] at time [now] keeps exactly the entries that have
    not expired, in insertion order, and reports their keys and their
    number; each reported key is then found by [has], which leaves the
    cache alone; asking again at the same time changes nothing. *)
Theorem stats_list_the_live_entries (cache : Cache T) (now : Z) :
  well_keyed cache ->
  let r := getStats cache now in
  r.2 = List.filter (fun p => negb (expired now p.2)) cache /\
  keys r.1 = fst <$> r.2 /\
  size r.1 = length (keys r.1) /\
  well_keyed r.2 /\
  (forall key, key ∈ keys r.1 -> has r.2 now key = (true, r.2)) /\
  getStats r.2 now = r.
Proof.
  intros Hnd. cbv zeta. unfold getStats. cbv zeta. cbn [fst snd keys size].
  rewrite (cleanup_filter cache now Hnd).
  set (live := List.filter (fun p => negb (expired now p.2)) cache).
  assert (Hlive : well_keyed live) by (by apply filter_keys_NoDup).
  assert (Hall : Forall (fun p => expired now p.2 = false) live).
  { subst live. rewrite Forall_forall. intros p Hp%list_elem_of_In.
    apply List.filter_In in Hp as [_ Hp]. by apply negb_true_iff in Hp. }
  assert (Hsame : List.filter (fun p => negb (expired now p.2)) live = live).
  { clear -Hall. induction Hall as [|p l Hp _ IH]; [reflexivity|].
    cbn [List.filter]. rewrite Hp. cbn [negb]. by f_equal. }
  split; [reflexivity|]. split; [reflexivity|]. split; [by rewrite length_fmap|].
  split; [exact Hlive|]. split.
  - intros key Hkey. unfold has.
    assert (Hget : exists entry, map_get key live = Some entry /\ expired now entry = false).
    { clear -Hall Hkey. induction Hall as [|[k e] l Hp _ IH].
      - by apply elem_of_nil in Hkey.
      - cbn [map_get]. destruct (String.eqb k key) eqn:E; [by exists e|].
        apply String.eqb_neq in E. cbn [fmap list_fmap fst] in Hkey.
        apply elem_of_cons in Hkey as [Hk|Hk]; [congruence|by apply IH]. }
    destruct Hget as (entry & -> & ->). reflexivity.
  - by rewrite (cleanup_filter live now Hlive), Hsame.
Qed.

End Facts.

Lemma stats_list_the_live_entries_witness :
  keys (getStats Examples.two_entries 50).1 = fst <$> (getStats Examples.two_entries 50).2.
Proof.
  refine (proj1 (proj2 (stats_list_the_live_entries Examples.two_entries 50 _))).
  unfold well_keyed. refine (bool_decide_unpack _ _). vm_compute. exact I.
Defined.

End ModelCacheProps.

(** ** The table of model settings *)

Module ModelTableProps.
Import Js GenerateVideo ModelTable.

Lemma prefix_append (a b s : string) :
  String.prefix (String.append a b) s = true -> String.prefix a s = true.
Proof.
  revert s. induction a as [|c a IH]; intros s; [by destruct s|].
  change (String c a +:+ b) with (String c (a +:+ b)).
  destruct s as [|d s]; cbn [String.prefix]; [done|].
  destruct (ascii_dec c d); [apply IH|done].
Qed.

Lemma includes_append (s a b : string) :
  includes s (String.append a b) = true -> includes s a = true.
Proof.
  induction s as [|c s IH]; cbn [includes].
  - rewrite !orb_false_r. apply prefix_append.
  - intros [H|H]%orb_true_iff; apply orb_true_iff.
    + left. by eapply prefix_append.
    + right. by apply IH.
Qed.

(** X23.  The entry filed under [bytedance/seedance-1-lite] is never the
    one [getModelConfig] selects: an identifier that contains this key
    contains [bytedance/seedance], an earlier key, as well, so the table
    answers every identifier as it would without that entry. *)
Theorem seedance_lite_entry_is_never_selected (modelId : string) :
  first_including modelId MODEL_CONFIGS
  = first_including modelId (without "bytedance/seedance-1-lite" MODEL_CONFIGS).
Proof.
  unfold MODEL_CONFIGS, without. cbn [List.filter fst String.eqb Ascii.eqb Bool.eqb negb].
  cbn [first_including].
  repeat match goal with
         | |- (if ?c then _ else _) = (if ?c then _ else _) =>
             destruct c eqn:?; [reflexivity|]
         end.
  destruct (includes modelId "bytedance/seedance-1-lite") eqn:Hlite; [|reflexivity].
  apply (includes_append modelId "bytedance/seedance" "-1-lite") in Hlite. congruence.
Qed.

End ModelTableProps.

(** ** Choosing the shots to animate *)

Module SelectionProps.
Import Js StoryStore Scheduler Selection.

Lemma collect_shots (need : Shot -> bool) (st : StoryData) :
  snd <$> collect need st = List.filter need (getAllShots st).
Proof.
  unfold collect, getAllShots.
  induction (scenes st) as [|scene rest IH]; [reflexivity|].
  cbn [fmap list_fmap concat]. rewrite fmap_app, List.filter_app, IH. f_equal.
  induction (List.filter need (shots scene)) as [|shot l IHl]; [reflexivity|].
  cbn [fmap list_fmap snd]. by f_equal.
Qed.

Lemma filter_ext_among {A} (p q : A -> bool) (l : list A) :
  (forall x, In x l -> p x = q x) -> List.filter p l = List.filter q l.
Proof.
  induction l as [|x l IH]; intros H; cbn [List.filter]; [reflexivity|].
  rewrite (H x) by (by left). rewrite IH; [reflexivity|]. intros y Hy. apply H. by right.
Qed.

Lemma same_id_same_shot (l : list Shot) (a b : Shot) :
  NoDup (id <$> l) -> In a l -> In b l -> id a = id b -> a = b.
Proof.
  induction l as [|x l IH]; intros Hnd Ha Hb E; [destruct Ha|].
  cbn [fmap list_fmap] in Hnd. apply NoDup_cons in Hnd as [Hx Hnd].
  assert (Hin : forall s, In s l -> id s ∈ id <$> l).
  { intros s Hs. apply list_elem_of_fmap. exists s. split; [reflexivity|].
    by apply list_elem_of_In. }
  destruct Ha as [->|Ha], Hb as [->|Hb].
  - reflexivity.
  - exfalso. apply Hx. rewrite E. by apply Hin.
  - exfalso. apply Hx. rewrite <- E. by apply Hin.
  - by apply IH.
Qed.

(** X24.  When shot ids are distinct across the story, the batch that
    [animateSelected] forms right after [selectAll] consists of exactly the
    shots that have an image, have no animation and are not being
    animated, in story order; so every job in it has an image.  Toggling
    the same shot twice gives the selection back. *)
Theorem selectAll_schedules_the_animatable_shots (st : StoryData) :
  NoDup (id <$> getAllShots st) ->
  let jobs := collect (needs_animation (selectAll st)) st in
  snd <$> jobs
  = List.filter (fun shot => animatable shot && negb (flag (isAnimating shot)))
      (getAllShots st) /\
  Forall (fun job : Job => truthy_opt (imageUrl job.2) = true) jobs /\
  (forall selected shotId,
      toggleSelection (toggleSelection selected shotId) shotId = selected).
Proof.
  intros Hnd. cbv zeta.
  assert (Hjobs : snd <$> collect (needs_animation (selectAll st)) st
                  = List.filter (fun shot => animatable shot && negb (flag (isAnimating shot)))
                      (getAllShots st)).
  { rewrite collect_shots. apply filter_ext_among. intros shot Hshot.
    unfold needs_animation, animatable.
    destruct (truthy_opt (animationUrl shot)) eqn:Hanim;
      [by rewrite !andb_false_r|].
    cbn [negb]. rewrite !andb_true_r.
    destruct (truthy_opt (imageUrl shot)) eqn:Himg; cbn [andb].
    - rewrite bool_decide_eq_true_2; [reflexivity|].
      unfold selectAll. apply elem_of_list_to_set, list_elem_of_fmap.
      exists shot. split; [reflexivity|]. apply list_elem_of_In, List.filter_In.
      split; [exact Hshot|]. unfold animatable. by rewrite Himg, Hanim.
    - rewrite bool_decide_eq_false_2; [reflexivity|].
      unfold selectAll. intros (shot' & E & Hin)%elem_of_list_to_set%list_elem_of_fmap.
      apply list_elem_of_In, List.filter_In in Hin as [Hin Hok].
      assert (shot = shot') by (by eapply same_id_same_shot).
      subst shot'. unfold animatable in Hok. by rewrite Himg in Hok. }
  split; [exact Hjobs|]. split.
  - assert (Hall : Forall (fun shot => truthy_opt (imageUrl shot) = true)
                     (snd <$> collect (needs_animation (selectAll st)) st)).
    { rewrite Hjobs, Forall_forall. intros shot Hshot%list_elem_of_In.
      apply List.filter_In in Hshot as [_ Hok]. unfold animatable in Hok.
      by destruct (truthy_opt (imageUrl shot)). }
    by rewrite Forall_fmap in Hall.
  - intros selected shotId. unfold toggleSelection.
    destruct (decide (shotId ∈ selected)) as [Hin|Hnot].
    + rewrite (bool_decide_eq_true_2 _ Hin).
      rewrite bool_decide_eq_false_2
        by (rewrite elem_of_difference, elem_of_singleton; tauto).
      apply set_eq. intros x.
      rewrite elem_of_union, elem_of_difference, elem_of_singleton.
      destruct (decide (x = shotId)) as [->|Hne]; tauto.
    + rewrite (bool_decide_eq_false_2 _ Hnot).
      rewrite bool_decide_eq_true_2
        by (rewrite elem_of_union, elem_of_singleton; tauto).
      apply set_eq. intros x.
      rewrite elem_of_difference, elem_of_union, elem_of_singleton.
      destruct (decide (x = shotId)) as [->|Hne]; tauto.
Qed.

Lemma selectAll_schedules_the_animatable_shots_witness :
  snd <$> collect (needs_animation (selectAll Examples.drawn_story)) Examples.drawn_story
  = [Examples.drawn_shot "shot-1"; Examples.drawn_shot "shot-3"].
Proof.
  refine (eq_trans
            (proj1 (selectAll_schedules_the_animatable_shots Examples.drawn_story _)) _).
  - refine (bool_decide_unpack _ _). vm_compute. exact I.
  - vm_compute. reflexivity.
Defined.

End SelectionProps.
